(** * PSBots: a shallow embedding of the bot pool and its battle choreography

    The repository holds two versions of [PSBots.js].  The development
    follows the later one, whose [connect] returns a promise and whose
    [battle] is a chain of [awaitws] calls ending in a replay link; the
    earlier one, built on bound listeners, is modelled at the end where it
    differs in [awaitws] and in the checks of [battle].

    JavaScript values that the code inspects dynamically ([typeof],
    truthiness, property reads) are kept dynamic in [jsval]; a promise is its
    settlement; the event loop is a list of events folded over a step
    function, each event running to completion with the promise reactions it
    triggers. *)

From Stdlib Require Import String Ascii List ZArith Lia Bool DecimalString.
From Equations Require Import Equations.
Import ListNotations.
Open Scope string_scope.
Set Warnings "-register-all".

(** ** JavaScript strings

    A string is a sequence of code units; every operation the source uses
    ([slice], [split], [replaceAll], [startsWith], concatenation) works unit
    by unit, so the unit type is immaterial and [ascii] is used. *)

(** The double quote character, and [s] wrapped in a pair of them. *)
Definition dq : string := String (ascii_of_nat 34) EmptyString.
Definition quoted (s : string) : string := dq ++ s ++ dq.

(** [String.prototype.slice]: a negative index counts from the end and both
    indices are clamped to the string. *)
Definition slice_index (len i : Z) : Z :=
  if (i <? 0)%Z then Z.max (len + i) 0 else Z.min i len.

Definition slice (s : string) (start : Z) (end_ : option Z) : string :=
  let len := Z.of_nat (String.length s) in
  let from := slice_index len start in
  let to := match end_ with Some e => slice_index len e | None => len end in
  substring (Z.to_nat from) (Z.to_nat (to - from)) s.

(** [s.split(sep)] for a non-empty separator string: [skip] counts the units
    of a separator occurrence that are still to be stepped over, [cur] is the
    piece being collected. *)
Fixpoint split_go (sep : string) (skip : nat) (cur s : string) : list string :=
  match s with
  | EmptyString => [cur]
  | String c t =>
      match skip with
      | S k => split_go sep k cur t
      | O =>
          if prefix sep s
          then cur :: split_go sep (String.length sep - 1) "" t
          else split_go sep 0 (cur ++ String c "") t
      end
  end.

Definition split (sep s : string) : list string := split_go sep 0 "" s.

(** [s.replaceAll(pat, by_)] for a non-empty literal pattern and a
    replacement without [$] patterns. *)
Definition replaceAll (pat by_ s : string) : string :=
  String.concat by_ (split pat s).

Definition startsWith (s p : string) : bool := prefix p s.

(** [a[i]] on an array of strings: [undefined] past the end. *)
Definition at_ {A : Type} (l : list A) (i : nat) : option A := nth_error l i.

(** [a.pop()]: the last element. *)
Definition pop {A : Type} (l : list A) : option A :=
  match rev l with x :: _ => Some x | [] => None end.

(** Decimal rendering of an integer-valued number. *)
Definition string_of_Z (z : Z) : string := NilZero.string_of_int (Z.to_int z).

(** ** JavaScript values

    [JNum] covers the integer-valued numbers; [JHandle] is a reference to a
    host object (a [WebSocket]).  Arrays and objects are trees: the code
    never aliases two of the objects it mutates. *)
Inductive jsval : Type :=
| JUndefined
| JNull
| JBool (b : bool)
| JNum (z : Z)
| JStr (s : string)
| JArr (items : list jsval)
| JObj (fields : list (string * jsval))
| JHandle (id : nat).

Inductive error : Type :=
| Error (msg : string)
| TypeError
| SyntaxError.

(** The outcome of evaluating code that may throw. *)
Inductive completion (A : Type) : Type :=
| Normal (a : A)
| Throw (e : error).
Arguments Normal {A} a.
Arguments Throw {A} e.

Definition bind {A B : Type} (c : completion A) (k : A -> completion B)
  : completion B :=
  match c with Normal a => k a | Throw e => Throw e end.

Notation "x <- c ;; k" := (bind c (fun x => k))
  (at level 61, c at next level, right associativity).

(** [!!v]. *)
Definition truthy (v : jsval) : bool :=
  match v with
  | JUndefined | JNull => false
  | JBool b => b
  | JNum z => negb (z =? 0)%Z
  | JStr s => negb (s =? "")
  | JArr _ | JObj _ | JHandle _ => true
  end.

Definition falsy (v : jsval) : bool := negb (truthy v).

Definition typeof (v : jsval) : string :=
  match v with
  | JUndefined => "undefined"
  | JBool _ => "boolean"
  | JNum _ => "number"
  | JStr _ => "string"
  | JNull | JArr _ | JObj _ | JHandle _ => "object"
  end.

Definition isArray (v : jsval) : bool :=
  match v with JArr _ => true | _ => false end.

Fixpoint lookup (k : string) (fields : list (string * jsval)) : jsval :=
  match fields with
  | [] => JUndefined
  | (k', v) :: rest => if k' =? k then v else lookup k rest
  end.

(** [v.k] for the property names the source reads ([message], [chalcode],
    [side1], [side2], [team], [usernames], [confirmed], [name], [pass], [ws],
    [rooms], [actionsuccess], [curuser], [loggedin], [assertion]): none of
    them is a property of a string, a number, a boolean, an array or a socket,
    and reading any property of [null] or [undefined] is a [TypeError]. *)
Definition get (v : jsval) (k : string) : completion jsval :=
  match v with
  | JUndefined | JNull => Throw TypeError
  | JObj fields => Normal (lookup k fields)
  | _ => Normal JUndefined
  end.

(** [a === b] between a value held by the caller and a value that
    [JSON.parse] has just built: primitives compare by value, and a freshly
    parsed array or object is identical to nothing else. *)
Definition strict_eq (a b : jsval) : bool :=
  match a, b with
  | JUndefined, JUndefined => true
  | JNull, JNull => true
  | JBool x, JBool y => Bool.eqb x y
  | JNum x, JNum y => (x =? y)%Z
  | JStr x, JStr y => (x =? y)
  | _, _ => false
  end.

(** [`${v}`]: the string conversion of a template literal.  A number is
    an integer printed in plain digits; the exponent form that numbers from
    [1e21] on take is not modelled. *)
Fixpoint ToString (v : jsval) : string :=
  match v with
  | JUndefined => "undefined"
  | JNull => "null"
  | JBool true => "true"
  | JBool false => "false"
  | JNum z => string_of_Z z
  | JStr s => s
  | JArr items =>
      String.concat ","
        (map (fun x => match x with
                       | JUndefined | JNull => ""
                       | _ => ToString x
                       end) items)
  | JObj _ => "[object Object]"
  | JHandle _ => "[object WebSocket]"
  end.

(** [Array.prototype.find]. *)
Fixpoint find_ {A : Type} (p : A -> bool) (l : list A) : option A :=
  match l with
  | [] => None
  | x :: rest => if p x then Some x else find_ p rest
  end.

(** [Array.prototype.some]. *)
Definition some {A : Type} (p : A -> bool) (l : list A) : bool := existsb p l.


(** ** Promises

    A promise is its settlement.  The [res] and [rej] functions handed to a
    promise executor settle a pending promise and do nothing to a settled
    one.  A rejection carries whatever was passed to [rej] or thrown. *)
Inductive reason : Type :=
| Thrown (e : error)
| Value (v : jsval).

Inductive settlement (A : Type) : Type :=
| Pending
| Resolved (a : A)
| Rejected (r : reason).
Arguments Pending {A}.
Arguments Resolved {A} a.
Arguments Rejected {A} r.

Definition res {A : Type} (a : A) (p : settlement A) : settlement A :=
  match p with Pending => Resolved a | _ => p end.

Definition rej {A : Type} (r : reason) (p : settlement A) : settlement A :=
  match p with Pending => Rejected r | _ => p end.

(** ** The correlator [awaitws]

    One call owns a promise and an [AbortController] [ctrl]; its [message]
    listener is registered with [ctrl.signal], so it is detached as soon as
    [ctrl.abort()] has run.  The timer armed by [setTimeout] is never
    cleared: its firing is an event like any other. *)
Record awaitws_state : Type := {
  promise : settlement string;
  aborted : bool
}.

(** The state right after [awaitws(ws, timer, predicate)] returns. *)
Definition awaitws : awaitws_state :=
  {| promise := Pending; aborted := false |}.

(** [ctrl.abort()]. *)
Definition abort (st : awaitws_state) : awaitws_state :=
  {| promise := promise st; aborted := true |}.

(** The object literal [{ reason, msgraw: msgraw.data }]. *)
Definition rejection_of (r data : string) : jsval :=
  JObj [("reason", JStr r); ("msgraw", JStr data)].

Definition timed_out : reason := Value (JStr "Timed out (awaitws).").

(** The body of the listener once [predicate(msgraw.data)] has been
    evaluated to [r]; a predicate that throws leaves the listener through the
    exception, before either branch. *)
Definition listener (r : completion jsval) (data : string)
    (st : awaitws_state) : awaitws_state :=
  match r with
  | Normal (JBool true) =>
      abort {| promise := res data (promise st); aborted := aborted st |}
  | Normal (JStr why) =>
      abort {| promise := rej (Value (rejection_of why data)) (promise st);
               aborted := aborted st |}
  | _ => st
  end.

Section Correlator.
(** The predicate may read and write state of the caller: [S] is that
    state. *)
Context {S : Type}.
Variable predicate : S -> string -> S * completion jsval.

(** A [message] event carrying [data] reaches the socket. *)
Definition on_message (data : string) (w : S * awaitws_state)
  : S * awaitws_state :=
  if aborted (snd w) then w
  else
    let (s', r) := predicate (fst w) data in
    (s', listener r data (snd w)).

(** The timer fires. *)
Definition on_timeout (w : S * awaitws_state) : S * awaitws_state :=
  (fst w, abort {| promise := rej timed_out (promise (snd w));
                   aborted := aborted (snd w) |}).

Inductive ws_event : Type :=
| Message (data : string)
| Timeout.

Definition deliver (w : S * awaitws_state) (e : ws_event)
  : S * awaitws_state :=
  match e with
  | Message data => on_message data w
  | Timeout => on_timeout w
  end.

Definition deliver_all (w : S * awaitws_state) (es : list ws_event)
  : S * awaitws_state :=
  fold_left deliver es w.
End Correlator.

Definition settled {A : Type} (p : settlement A) : bool :=
  match p with Pending => false | _ => true end.

(** ** Regular expressions

    The two patterns of the source use literal characters, [^], [.], [|], one
    capturing group and the lazy quantifier [+?]; the module models that
    fragment of the pattern language with the backtracking order of the
    language definition (alternatives left to right, a lazy quantifier trying
    its continuation before another iteration). *)
Module RegExp.

Inductive regex : Type :=
| Empty
| Bol
| Char (c : ascii)
| Any
| Seq (a b : regex)
| Alt (a b : regex)
| Group (n : nat) (a : regex)
| PlusLazy (a : regex).

Record mstate : Type := {
  pos : nat;
  rest : string;
  caps : list (nat * string)
}.

Definition advance (st : mstate) (t : string) : mstate :=
  {| pos := S (pos st); rest := t; caps := caps st |}.

Definition set_cap (n : nat) (text : string) (st : mstate) : mstate :=
  {| pos := pos st; rest := rest st; caps := (n, text) :: caps st |}.

(** Line feed and carriage return, the line terminators among the units. *)
Definition line_terminator (c : ascii) : bool :=
  (nat_of_ascii c =? 10)%nat || (nat_of_ascii c =? 13)%nat.

(** [m r st k]: match [r] at [st], then the continuation [k]; the first
    success in backtracking order. *)
Fixpoint m (r : regex) (st : mstate) (k : mstate -> option mstate)
  {struct r} : option mstate :=
  match r with
  | Empty => k st
  | Bol => if (pos st =? 0)%nat then k st else None
  | Char c =>
      match rest st with
      | String c' t => if Ascii.eqb c c' then k (advance st t) else None
      | EmptyString => None
      end
  | Any =>
      match rest st with
      | String c' t => if line_terminator c' then None else k (advance st t)
      | EmptyString => None
      end
  | Seq a b => m a st (fun st' => m b st' k)
  | Alt a b =>
      match m a st k with
      | Some out => Some out
      | None => m b st k
      end
  | Group n a =>
      m a st (fun st' =>
        k (set_cap n (substring 0 (pos st' - pos st) (rest st)) st'))
  | PlusLazy a =>
      m a st (fun first =>
        (fix more (fuel : nat) (cur : mstate) {struct fuel} : option mstate :=
           match k cur with
           | Some out => Some out
           | None =>
               match fuel with
               | O => None
               | S fuel' =>
                   m a cur (fun nxt =>
                     if (pos cur <? pos nxt)%nat then more fuel' nxt
                     else None)
               end
           end) (String.length (rest first)) first)
  end.

(** [exec] without the [g] or [y] flag: the leftmost start that matches. *)
Fixpoint exec_from (r : regex) (p : nat) (s : string) : option mstate :=
  match m r {| pos := p; rest := s; caps := [] |} Some with
  | Some out => Some out
  | None =>
      match s with
      | String _ t => exec_from r (S p) t
      | EmptyString => None
      end
  end.

Definition exec (r : regex) (s : string) : option mstate := exec_from r 0 s.

Definition test (r : regex) (s : string) : bool :=
  match exec r s with Some _ => true | None => false end.

(** [result[n]] of a successful [exec]. *)
Fixpoint capture (n : nat) (cs : list (nat * string)) : option string :=
  match cs with
  | [] => None
  | (n', text) :: more =>
      if (n' =? n)%nat then Some text else capture n more
  end.

(** The characters with a meaning of their own in a pattern. *)
Definition syntax_char (c : ascii) : bool :=
  existsb (Ascii.eqb c)
    (list_ascii_of_string "^$\.*+?()[]{}|").

(** A quantifier after an atom: only [+?] is in the fragment. *)
Definition quantifier (atom : regex) (n : nat) (t : string)
  : option (regex * nat * string) :=
  match t with
  | String "+" (String "?" t') => Some (PlusLazy atom, n, t')
  | String "+" _ | String "*" _ | String "?" _ | String "{" _ => None
  | _ => Some (atom, n, t)
  end.

(** Recursive descent over the pattern source; [n] counts the groups
    opened so far.  [None] is a pattern that is ill-formed or leaves the
    fragment. *)
Fixpoint parse_disjunction (fuel n : nat) (s : string)
  : option (regex * nat * string) :=
  match fuel with
  | O => None
  | S f =>
      match parse_alternative f n s with
      | Some (a, n1, String "|" t) =>
          match parse_disjunction f n1 t with
          | Some (d, n2, t') => Some (Alt a d, n2, t')
          | None => None
          end
      | other => other
      end
  end
with parse_alternative (fuel n : nat) (s : string)
  : option (regex * nat * string) :=
  match fuel with
  | O => None
  | S f =>
      match s with
      | EmptyString | String "|" _ | String ")" _ => Some (Empty, n, s)
      | _ =>
          match parse_term f n s with
          | Some (t, n1, s1) =>
              match parse_alternative f n1 s1 with
              | Some (a, n2, s2) => Some (Seq t a, n2, s2)
              | None => None
              end
          | None => None
          end
      end
  end
with parse_term (fuel n : nat) (s : string)
  : option (regex * nat * string) :=
  match fuel with
  | O => None
  | S f =>
      match s with
      | EmptyString => None
      | String "^" t => Some (Bol, n, t)
      | String "." t => quantifier Any n t
      | String "(" t =>
          match parse_disjunction f (S n) t with
          | Some (d, n1, String ")" t1) => quantifier (Group (S n) d) n1 t1
          | _ => None
          end
      | String c t =>
          if syntax_char c then None else quantifier (Char c) n t
      end
  end.

(** [new RegExp(source)] and a regular expression literal, for a source of
    the fragment.  A source that leaves the fragment is answered like an
    ill-formed one, so what is stated through [compile] is stated of the
    sources of the fragment: the two patterns of the program are such when
    the room name is a text without pattern syntax. *)
Definition compile (source : string) : completion regex :=
  match parse_disjunction (3 * String.length source + 3) 0 source with
  | Some (r, _, EmptyString) => Normal r
  | _ => Throw SyntaxError
  end.

End RegExp.

(** ** [JSON.parse]

    The properties below hold for whatever [JSON.parse] returns, so the
    functions that call it take it as a parameter.  For running the model on
    concrete frames this module parses the texts that need no more than
    objects, arrays, strings without escapes, integers and the three
    literals; [replaceAll] has removed every backslash from a lookup reply
    before it is parsed.  A text outside that fragment is
    reported as a [SyntaxError]; the examples stay within it. *)
Module JSON.

Definition whitespace (c : ascii) : bool :=
  existsb (Nat.eqb (nat_of_ascii c)) [32; 9; 10; 13]%nat.

Fixpoint skip (s : string) : string :=
  match s with
  | String c t => if whitespace c then skip t else s
  | EmptyString => s
  end.

(** The units of a string up to its closing quote. *)
Fixpoint chars_until_quote (s acc : string) : option (string * string) :=
  match s with
  | EmptyString => None
  | String c t =>
      if (nat_of_ascii c =? 34)%nat then Some (acc, t)
      else if (nat_of_ascii c =? 92)%nat || (nat_of_ascii c <? 32)%nat
           then None
           else chars_until_quote t (acc ++ String c "")
  end.

Definition digit (c : ascii) : option Z :=
  let n := nat_of_ascii c in
  if ((48 <=? n) && (n <=? 57))%nat then Some (Z.of_nat (n - 48)) else None.

Fixpoint digits (s : string) (acc : Z) : Z * string :=
  match s with
  | String c t =>
      match digit c with
      | Some d => digits t (10 * acc + d)%Z
      | None => (acc, s)
      end
  | EmptyString => (acc, s)
  end.

Definition natural (s : string) : option (Z * string) :=
  match s with
  | String "0" t => Some (0%Z, t)
  | String c t =>
      match digit c with
      | Some d => Some (digits t d)
      | None => None
      end
  | EmptyString => None
  end.

(** A fraction or an exponent would follow here. *)
Definition integral (r : option (Z * string)) : option (Z * string) :=
  match r with
  | Some (_, String "." _) | Some (_, String "e" _)
  | Some (_, String "E" _) => None
  | other => other
  end.

Definition literal (word : string) (v : jsval) (s : string)
  : option (jsval * string) :=
  if prefix word s
  then Some (v, substring (String.length word)
                          (String.length s - String.length word) s)
  else None.

(** Members are kept last first, so that [lookup] finds the last of two
    members with one key, as [JSON.parse] keeps it. *)
Fixpoint value (fuel : nat) (s : string) : option (jsval * string) :=
  match fuel with
  | O => None
  | S f =>
      match skip s with
      | String "{" t =>
          match skip t with
          | String "}" t' => Some (JObj [], t')
          | _ => members f t []
          end
      | String "[" t =>
          match skip t with
          | String "]" t' => Some (JArr [], t')
          | _ => elements f t []
          end
      | String "034" t =>
          match chars_until_quote t "" with
          | Some (text, t') => Some (JStr text, t')
          | None => None
          end
      | String "-" t =>
          match integral (natural t) with
          | Some (z, t') => Some (JNum (- z), t')
          | None => None
          end
      | String "t" _ => literal "true" (JBool true) (skip s)
      | String "f" _ => literal "false" (JBool false) (skip s)
      | String "n" _ => literal "null" JNull (skip s)
      | other =>
          match integral (natural other) with
          | Some (z, t') => Some (JNum z, t')
          | None => None
          end
      end
  end
with members (fuel : nat) (s : string) (acc : list (string * jsval))
  : option (jsval * string) :=
  match fuel with
  | O => None
  | S f =>
      match skip s with
      | String "034" t =>
          match chars_until_quote t "" with
          | Some (key, t1) =>
              match skip t1 with
              | String ":" t2 =>
                  match value f t2 with
                  | Some (v, t3) =>
                      match skip t3 with
                      | String "," t4 => members f t4 ((key, v) :: acc)
                      | String "}" t4 => Some (JObj ((key, v) :: acc), t4)
                      | _ => None
                      end
                  | None => None
                  end
              | _ => None
              end
          | None => None
          end
      | _ => None
      end
  end
with elements (fuel : nat) (s : string) (acc : list jsval)
  : option (jsval * string) :=
  match fuel with
  | O => None
  | S f =>
      match value f s with
      | Some (v, t) =>
          match skip t with
          | String "," t' => elements f t' (acc ++ [v])
          | String "]" t' => Some (JArr (acc ++ [v]), t')
          | _ => None
          end
      | None => None
      end
  end.

Definition parse (text : string) : completion jsval :=
  match value (2 * String.length text + 2) text with
  | Some (v, t) =>
      match skip t with
      | EmptyString => Normal v
      | _ => Throw SyntaxError
      end
  | None => Throw SyntaxError
  end.

End JSON.

(** ** The class: state and construction *)

(** A [WebSocket]: its endpoint, whether [close()] has been called, and the
    frames passed to [send()], oldest first. *)
Record WebSocket : Type := {
  url : string;
  closed : bool;
  sent : list string
}.

(** An entry of [this.bots].  [ws] is [None] while the property is the falsy
    value the entry came with and [Some id] once [connect] has stored the
    socket [id] there. *)
Record bot : Type := {
  name : jsval;
  pass : jsval;
  ws : option nat
}.

(** An instance: [bots], the [aborted] flag of the signal of [#abort], and
    the sockets created so far ([Some id] in a bot is [sockets[id]]). *)
Record PSBots : Type := {
  bots : list bot;
  signal_aborted : bool;
  sockets : list WebSocket
}.

Definition invalid_authentication : error :=
  Error "Invalid authentication data.".

(** The callback [(x) => !x || !x.name || !x.pass || x.ws]. *)
Definition invalid_entry (x : jsval) : completion bool :=
  if falsy x then Normal true
  else
    n <- get x "name" ;;
    if falsy n then Normal true
    else
      p <- get x "pass" ;;
      if falsy p then Normal true
      else
        w <- get x "ws" ;;
        Normal (truthy w).

(** [some] with a callback that may throw. *)
Fixpoint some_c {A : Type} (p : A -> completion bool) (l : list A)
  : completion bool :=
  match l with
  | [] => Normal false
  | x :: rest => b <- p x ;; if b then Normal true else some_c p rest
  end.

(** A property read that cannot throw because the object was checked. *)
Definition field (v : jsval) (k : string) : jsval :=
  match get v k with Normal x => x | Throw _ => JUndefined end.

Definition bot_of (x : jsval) : bot :=
  {| name := field x "name"; pass := field x "pass"; ws := None |}.

Definition constructor (auth : jsval) : completion PSBots :=
  match auth with
  | JArr entries =>
      bad <- some_c invalid_entry entries ;;
      if bad then Throw invalid_authentication
      else Normal {| bots := map bot_of entries;
                     signal_aborted := false;
                     sockets := [] |}
  | _ => Throw invalid_authentication
  end.

(** ** [getEntry]

    [Math.random()] returns a number [r] with [0 <= r < 1].  A draw is the
    fraction [num / den], the source of randomness is the sequence of the
    draws, and [cursor] counts the draws taken.  [Math.floor(r * n)] is
    computed on the fraction, exactly: the rounding of the product to a
    double is not modelled, which leaves the range of the result and the
    number of draws read as they are. *)
Record draw : Type := { num : Z; den : Z }.

Definition unit_interval (d : draw) : Prop := (0 <= num d < den d)%Z.

Definition floor_times (d : draw) (n : Z) : Z := (num d * n / den d)%Z.

Definition chars : string := "abcdefghijklmnopqrstuvwxyz0123456789_".

(** [r1 += chars[i]]: an index outside the string reads [undefined]. *)
Definition char_at (s : string) (i : Z) : string :=
  if (i <? 0)%Z then "undefined"
  else match String.get (Z.to_nat i) s with
       | Some c => String c ""
       | None => "undefined"
       end.

Lemma length_append (a b : string) :
  String.length (a ++ b) = String.length a + String.length b.
Proof. induction a as [|c a IH]; simpl; [reflexivity | now rewrite IH]. Qed.

Lemma char_at_length (s : string) (i : Z) : 1 <= String.length (char_at s i).
Proof.
  unfold char_at. destruct (i <? 0)%Z; [simpl; lia|].
  destruct (String.get (Z.to_nat i) s); simpl; lia.
Qed.

(** The loop [while(r1.length < 8) { ... }]. *)
Equations? r1_loop (random : nat -> draw) (cursor : nat) (r1 : string)
  : string * nat by wf (8 - String.length r1) lt :=
  r1_loop random cursor r1 with lt_dec (String.length r1) 8 := {
    | left _ =>
        let i := floor_times (random cursor) (Z.of_nat (String.length chars)) in
        r1_loop random (S cursor) (r1 ++ char_at chars i)
    | right _ => (r1, cursor) }.
Proof.
  change (8 - String.length (r1 ++ char_at chars i) < 8 - String.length r1).
  rewrite length_append.
  pose proof (char_at_length chars i).
  lia.
Qed.

Definition getEntry (random : nat -> draw) (cursor : nat) : string * nat :=
  let (r1, cursor1) := r1_loop random cursor "" in
  let r2 := (floor_times (random cursor1) 900 + 100)%Z in
  ("wss://sim3.psim.us/showdown/" ++ r1 ++ "/" ++ string_of_Z r2
     ++ "/websocket",
   S cursor1).

(** [msgToRaw]: the argument is a string at every call. *)
Definition msgToRaw (msg : string) : string := "[" ++ dq ++ msg ++ dq ++ "]".

(** ** [shutdown] and [connect] *)

(** [l[i] = f(l[i])]; nothing happens when [i] is outside the list. *)
Fixpoint update {A : Type} (i : nat) (f : A -> A) (l : list A) : list A :=
  match l, i with
  | [], _ => []
  | x :: rest, O => f x :: rest
  | x :: rest, S j => x :: update j f rest
  end.

Definition close (sk : WebSocket) : WebSocket :=
  {| url := url sk; closed := true; sent := sent sk |}.

Definition send (frame : string) (sk : WebSocket) : WebSocket :=
  {| url := url sk; closed := closed sk; sent := sent sk ++ [frame] |}.

(** [for(const { ws } of this.bots) ws.close()], every [ws] being a socket. *)
Fixpoint close_each (bs : list bot) (sks : list WebSocket) : list WebSocket :=
  match bs with
  | [] => sks
  | b :: rest =>
      close_each rest
        (match ws b with Some id => update id close sks | None => sks end)
  end.

Definition no_socket (b : bot) : bool :=
  match ws b with Some _ => false | None => true end.

Definition shutdown (p : PSBots) : PSBots :=
  if some no_socket (bots p) || signal_aborted p then p
  else {| bots := bots p;
          signal_aborted := true;
          sockets := close_each (bots p) (sockets p) |}.

(** The promise chain that [connect] builds for one bot, by how far it has
    got: the correlator waiting for the handshake line, the login request in
    flight, the rename command sent, or the chain rejected (after the
    [catch] handler has run). *)
Inductive stage : Type :=
| AwaitChallstr (w : awaitws_state)
| Fetching (challstr : string)
| Connected
| Failed (r : reason).

Record connecting : Type := {
  pool : PSBots;
  stages : list stage;
  all : settlement string
}.

(** The loop of [connect]: one socket per bot, at a fresh endpoint. *)
Fixpoint open_sockets (random : nat -> draw) (cursor : nat) (bs : list bot)
    (sks : list WebSocket) : list bot * list WebSocket * nat :=
  match bs with
  | [] => ([], sks, cursor)
  | b :: rest =>
      let (entry, cursor1) := getEntry random cursor in
      let id := List.length sks in
      let sk := {| url := entry; closed := false; sent := [] |} in
      let '(rest', sks', cursor2) :=
        open_sockets random cursor1 rest (sks ++ [sk]) in
      ({| name := name b; pass := pass b; ws := Some id |} :: rest',
       sks', cursor2)
  end.

Definition all_connected : string := "=== ALL CONNECTED ===".

Definition is_connected (s : stage) : bool :=
  match s with Connected => true | _ => false end.

(** [Promise.all(connections).then(() => "=== ALL CONNECTED ===")], looked
    at after a chain has resolved. *)
Definition join (ss : list stage) (p : settlement string)
  : settlement string :=
  if forallb is_connected ss then res all_connected p else p.

Definition connect (random : nat -> draw) (cursor : nat) (p : PSBots)
  : connecting * nat :=
  let '(bs, sks, cursor') := open_sockets random cursor (bots p) (sockets p) in
  let ss := map (fun _ => AwaitChallstr awaitws) bs in
  ({| pool := {| bots := bs; signal_aborted := signal_aborted p;
                 sockets := sks |};
      stages := ss;
      all := join ss Pending |},
   cursor').

(** The predicate of the first [awaitws]: the handshake line. *)
Definition challstr_predicate (s : unit) (msgraw : string)
  : unit * completion jsval :=
  let msg := slice msgraw 3 (Some (-2)%Z) in
  let data := split "|" msg in
  match at_ data 1 with
  | Some "challstr" => (s, Normal (JBool true))
  | _ => (s, Normal JUndefined)
  end.

(** The condition of the [if] on the decoded login response; reading a
    property of [undefined], and calling [startsWith] on anything but a
    string, throw. *)
Definition login_refused (r : jsval) : completion bool :=
  ok <- get r "actionsuccess" ;;
  if falsy ok then Normal true
  else
    cu <- get r "curuser" ;;
    li <- get cu "loggedin" ;;
    if falsy li then Normal true
    else
      a <- get r "assertion" ;;
      match a with
      | JStr text => Normal (startsWith text ";;")
      | _ => Throw TypeError
      end.

Definition could_not_connect (b : bot) : error :=
  Error ("Could not connect " ++ ToString (name b) ++ ".").

Definition could_not_login (b : bot) (r : jsval) : error :=
  Error ("Could not login " ++ ToString (name b) ++ ": "
         ++ ToString (field r "assertion")).

Definition trn (b : bot) (r : jsval) : string :=
  "[" ++ dq ++ "|/trn " ++ ToString (name b) ++ ",0,"
      ++ ToString (field r "assertion") ++ dq ++ "]".

(** Whether the socket of bot [i] is open.  A socket fires [message] events
    only while it is open: once [close()] has been called, what still
    arrives is dropped. *)
Definition is_open (p : PSBots) (i : nat) : bool :=
  match nth_error (bots p) i with
  | Some b =>
      match ws b with
      | Some id =>
          match nth_error (sockets p) id with
          | Some sk => negb (closed sk)
          | None => false
          end
      | None => false
      end
  | None => false
  end.

Inductive event : Type :=
| SocketMessage (i : nat) (data : string)
| SocketError (i : nat)
| TimerFired (i : nat)
| FetchRejected (i : nat) (e : error)
| FetchResponse (i : nat) (ok : bool) (text : string).

Section Connect.
Variable JSON_parse : string -> completion jsval.

Definition set_stage (i : nat) (s : stage) (c : connecting) : connecting :=
  {| pool := pool c; stages := update i (fun _ => s) (stages c);
     all := all c |}.

(** [.catch((err) => { this.shutdown(); throw err; })] on the chain of bot
    [i], and [Promise.all] seeing the rejection. *)
Definition fail (i : nat) (r : reason) (c : connecting) : connecting :=
  {| pool := shutdown (pool c);
     stages := update i (fun _ => Failed r) (stages c);
     all := rej r (all c) |}.

(** The last [then]: the login check, then the idle listener and the
    rename command. *)
Definition logged_in (i : nat) (b : bot) (r : jsval) (c : connecting)
  : connecting :=
  match login_refused r with
  | Throw e => fail i (Thrown e) c
  | Normal true => fail i (Thrown (could_not_login b r)) c
  | Normal false =>
      match ws b with
      | None => fail i (Thrown TypeError) c
      | Some id =>
          let ss := update i (fun _ => Connected) (stages c) in
          {| pool := {| bots := bots (pool c);
                        signal_aborted := signal_aborted (pool c);
                        sockets := update id (send (trn b r))
                                     (sockets (pool c)) |};
             stages := ss;
             all := join ss (all c) |}
      end
  end.

Definition connect_step (c : connecting) (e : event) : connecting :=
  match e with
  | SocketMessage i data =>
      match nth_error (stages c) i with
      | Some (AwaitChallstr w) =>
          if is_open (pool c) i
          then
            let w' := snd (on_message challstr_predicate data (tt, w)) in
            match promise w' with
            | Resolved msgraw =>
                set_stage i (Fetching (slice msgraw 13 (Some (-2)%Z))) c
            | Rejected r => fail i r c
            | Pending => set_stage i (AwaitChallstr w') c
            end
          else c
      | _ => c
      end
  | TimerFired i =>
      match nth_error (stages c) i with
      | Some (AwaitChallstr w) =>
          let w' := snd (on_timeout (tt, w)) in
          match promise w' with
          | Rejected r => fail i r c
          | _ => set_stage i (AwaitChallstr w') c
          end
      | _ => c
      end
  | SocketError i =>
      match nth_error (stages c) i with
      | Some _ =>
          if signal_aborted (pool c) then c
          else {| pool := shutdown (pool c); stages := stages c;
                  all := all c |}
      | None => c
      end
  | FetchRejected i e =>
      match nth_error (stages c) i with
      | Some (Fetching _) => fail i (Thrown e) c
      | _ => c
      end
  | FetchResponse i ok text =>
      match nth_error (stages c) i, nth_error (bots (pool c)) i with
      | Some (Fetching _), Some b =>
          if negb ok then fail i (Thrown (could_not_connect b)) c
          else
            match JSON_parse (slice text 1 None) with
            | Throw e => fail i (Thrown e) c
            | Normal r => logged_in i b r c
            end
      | _, _ => c
      end
  end.

Definition connect_run (c : connecting) (es : list event) : connecting :=
  fold_left connect_step es c.
End Connect.

(** ** [battle]: the argument and its checks *)

Record SideSpec : Type := {
  team : string;
  usernames : list jsval;
  confirmed : jsval
}.

Record BattleSpec : Type := {
  message : string;
  chalcode : string;
  side1 : SideSpec;
  side2 : SideSpec
}.

Definition invalid_data : error := Error "Invalid data in argument.".

(** The four conditions on one side: [typeof side !== "object"],
    [typeof side.team !== "string"], [!Array.isArray(side.usernames)],
    [side.confirmed].  [typeof v === "string"] holds exactly of [JStr _] and
    [Array.isArray(v)] exactly of [JArr _]. *)
Definition check_side (s : jsval) : completion SideSpec :=
  if negb (typeof s =? "object") then Throw invalid_data
  else
    t <- get s "team" ;;
    match t with
    | JStr team_ =>
        u <- get s "usernames" ;;
        match u with
        | JArr names =>
            c <- get s "confirmed" ;;
            if truthy c then Throw invalid_data
            else Normal {| team := team_; usernames := names;
                           confirmed := c |}
        | _ => Throw invalid_data
        end
    | _ => Throw invalid_data
    end.

(** The input type checks, in the order of the [if]. *)
Definition check (arg : jsval) : completion BattleSpec :=
  if negb (typeof arg =? "object") then Throw invalid_data
  else
    m <- get arg "message" ;;
    match m with
    | JStr message_ =>
        c <- get arg "chalcode" ;;
        match c with
        | JStr chalcode_ =>
            s1 <- get arg "side1" ;;
            side1_ <- check_side s1 ;;
            s2 <- get arg "side2" ;;
            side2_ <- check_side s2 ;;
            Normal {| message := message_; chalcode := chalcode_;
                      side1 := side1_; side2 := side2_ |}
        | _ => Throw invalid_data
        end
    | _ => Throw invalid_data
    end.

(** ** [battle]: the choreography

    [bots[0]] and [bots[1]] are connected; [sent0] and [sent1] are the frames
    passed to [send] on their sockets, oldest first. *)
Record wires : Type := {
  sent0 : list string;
  sent1 : list string
}.

Definition send0 (frame : string) (io : wires) : wires :=
  {| sent0 := sent0 io ++ [frame]; sent1 := sent1 io |}.

Definition send1 (frame : string) (io : wires) : wires :=
  {| sent0 := sent0 io; sent1 := sent1 io ++ [frame] |}.

Definition userdetails (user : jsval) : string :=
  msgToRaw ("|/cmd userdetails " ++ ToString user).

(** The two [for] loops that request the player info. *)
Definition request_players (b : BattleSpec) (io : wires) : wires :=
  {| sent0 := sent0 io ++ map userdetails (usernames (side1 b))
                       ++ map userdetails (usernames (side2 b));
     sent1 := sent1 io |}.

(** The step a run is waiting in; [AwaitEnd] and [AwaitReplay] carry the
    variable [room] of the enclosing callback. *)
Inductive phase : Type :=
| AwaitPlayers
| AwaitChallenge
| AwaitRoom
| AwaitEnd (room : string)
| AwaitReplay (room : string)
| Over.

(** One run: the battle object, the sockets, the correlator of the current
    step, the promise [battle] returned ([outcome], resolved with the [room]
    property of the result) and the promise in the [replay] property. *)
Record world : Type := {
  spec : BattleSpec;
  io : wires;
  step : phase;
  wait : awaitws_state;
  outcome : settlement string;
  replay : settlement string
}.

Inductive conn : Type := A | B.

(** A [message] event on one of the two sockets, or the timer of the
    [k]-th [awaitws] call of the run firing. *)
Inductive battle_event : Type :=
| Inbound (c : conn) (data : string)
| TimerOf (k : nat).

Definition is_ (o : option string) (s : string) : bool :=
  match o with Some x => x =? s | None => false end.

Definition set_confirmed (s : SideSpec) (v : jsval) : SideSpec :=
  {| team := team s; usernames := usernames s; confirmed := v |}.

(** [a.find(p)] as a value: [undefined] when nothing is found. *)
Definition found {A : Type} (o : option A) (d : A) : A :=
  match o with Some x => x | None => d end.

(** [foundSide]: which of [battle.side1] and [battle.side2] it refers to. *)
Inductive side_id : Type := Side1 | Side2.

(** [foundSide.confirmed = foundUser]. *)
Definition confirm (which : side_id) (user : jsval) (b : BattleSpec)
  : BattleSpec :=
  match which with
  | Side1 => {| message := message b; chalcode := chalcode b;
                side1 := set_confirmed (side1 b) user; side2 := side2 b |}
  | Side2 => {| message := message b; chalcode := chalcode b;
                side1 := side1 b; side2 := set_confirmed (side2 b) user |}
  end.

Definition base_url : string := "https://play.pokemonshowdown.com/".

Definition fallback : string := "this should not have happened".

Section Battle.
Variable JSON_parse : string -> completion jsval.
(** [this.bots[0].name] and [this.bots[1].name]. *)
Variables name0 name1 : jsval.

(** The predicate of the first correlator; it writes [confirmed]. *)
Definition players_predicate (b : BattleSpec) (msgraw : string)
  : BattleSpec * completion jsval :=
  let msg := slice msgraw 3 (Some (-2)%Z) in
  let data := split "|" msg in
  if negb (is_ (at_ data 1) "queryresponse")
     || negb (is_ (at_ data 2) "userdetails")
  then (b, Normal JUndefined)
  else
    match at_ data 3 with
    | None => (b, Throw TypeError)
    | Some d3 =>
        match JSON_parse (replaceAll "\" "" d3) with
        | Throw e => (b, Throw e)
        | Normal details =>
            if falsy details
            then (b, Normal (JStr "Unregistered username in queue."))
            else
              let dname := field details "name" in
              let same := fun x => strict_eq x dname in
              let foundUser1 :=
                found (find_ same (usernames (side1 b))) JUndefined in
              let foundUser :=
                if truthy foundUser1 then foundUser1
                else found (find_ same (usernames (side2 b))) JUndefined in
              let foundSide := if truthy foundUser1 then Side1 else Side2 in
              if falsy foundUser then (b, Normal JUndefined)
              else if falsy (field details "rooms")
              then (b, Normal (JStr ("User is offline: "
                                     ++ ToString dname)))
              else
                let b' := confirm foundSide foundUser b in
                if falsy (confirmed (side1 b'))
                   || falsy (confirmed (side2 b'))
                then (b', Normal JUndefined)
                else (b', Normal (JBool true))
        end
    end.

(** The private message from [bots[0]] to [bots[1]] carrying the
    challenge. *)
Definition challenge_predicate (b : BattleSpec) (msgraw : string)
  : BattleSpec * completion jsval :=
  let msg := slice msgraw 3 (Some (-2)%Z) in
  let data := split "|" msg in
  (b,
   if negb (is_ (at_ data 1) "pm") then Normal JUndefined
   else
     match at_ data 2 with
     | None => Throw TypeError
     | Some d2 =>
         if negb (strict_eq (JStr (slice d2 1 None)) name0)
         then Normal JUndefined
         else
           match at_ data 3 with
           | None => Throw TypeError
           | Some d3 =>
               if negb (strict_eq (JStr (slice d3 1 None)) name1)
               then Normal JUndefined
               else
                 match at_ data 4 with
                 | None => Throw TypeError
                 | Some d4 =>
                     if negb (startsWith d4 "/challenge ")
                     then Normal JUndefined
                     else Normal (JBool true)
                 end
           end
     end).

(** [const [ room, data_ ] = msg.split("\\n")]: the separator is the two
    units backslash and [n]; [split] returns at least one piece. *)
Definition room_of (msgraw : string) : string :=
  found (at_ (split "\n" (slice msgraw 3 (Some (-2)%Z))) 0) "".

Definition room_predicate (b : BattleSpec) (msgraw : string)
  : BattleSpec * completion jsval :=
  let msg := slice msgraw 3 (Some (-2)%Z) in
  (b,
   match at_ (split "\n" msg) 1 with
   | None | Some "" => Normal JUndefined
   | Some data_ =>
       let data := split "|" data_ in
       if negb (is_ (at_ data 1) "init") || negb (is_ (at_ data 2) "battle")
       then Normal JUndefined
       else Normal (JBool true)
   end).

Definition end_predicate (b : BattleSpec) (msgraw : string)
  : BattleSpec * completion jsval :=
  let msg := slice msgraw 3 (Some (-2)%Z) in
  (b,
   match pop (split "\n" msg) with
   | Some line =>
       if is_ (at_ (split "|" line) 1) "win" then Normal (JBool true)
       else Normal JUndefined
   | None => Normal JUndefined
   end).

(** The source of the pattern built for the upload notice. *)
Definition uploaded_pattern (room : string) : string :=
  "^|popup||html|<p>Your replay has been uploaded!.+?" ++ slice room 1 None.

Definition replay_predicate (room : string) (b : BattleSpec)
    (msgraw : string) : BattleSpec * completion jsval :=
  let msg := slice msgraw 3 (Some (-2)%Z) in
  (b,
   match RegExp.compile (uploaded_pattern room) with
   | Throw e => Throw e
   | Normal test =>
       if negb (RegExp.test test msg) then Normal JUndefined
       else Normal (JBool true)
   end).

(** [/href="(.+?)"/.exec(msgraw)?.[1] ?? "this should not have happened"]. *)
Definition href_pattern : string := "href=" ++ dq ++ "(.+?)" ++ dq.

Definition href_of (msgraw : string) : string :=
  match RegExp.compile href_pattern with
  | Normal r =>
      match RegExp.exec r msgraw with
      | Some out => found (RegExp.capture 1 (RegExp.caps out)) fallback
      | None => fallback
      end
  | Throw _ => fallback
  end.

(** The synchronous part of [battle]: the checks, then the lookups; a
    failed check throws before anything is sent. *)
Definition battle (wires0 : wires) (arg : jsval)
  : wires * completion world :=
  match check arg with
  | Throw e => (wires0, Throw e)
  | Normal b =>
      let io1 := request_players b wires0 in
      (io1,
       Normal {| spec := b; io := io1; step := AwaitPlayers;
                 wait := awaitws; outcome := Pending; replay := Pending |})
  end.

(** The first [then]: the teams and the challenge. *)
Definition then_challenge (w : world) : world :=
  let b := spec w in
  let msgraw0 := msgToRaw ("|/utm " ++ team (side1 b)) in
  let msgraw1 := msgToRaw ("|/utm " ++ team (side2 b)) in
  let msgraw2 := msgToRaw ("|/challenge " ++ ToString name1 ++ ", "
                           ++ chalcode b) in
  {| spec := b;
     io := send0 msgraw2 (send1 msgraw1 (send0 msgraw0 (io w)));
     step := AwaitChallenge; wait := awaitws;
     outcome := outcome w; replay := replay w |}.

(** The second [then]: accepting the challenge. *)
Definition then_accept (w : world) : world :=
  let msgraw0 := msgToRaw ("|/accept " ++ ToString name0) in
  {| spec := spec w; io := send1 msgraw0 (io w);
     step := AwaitRoom; wait := awaitws;
     outcome := outcome w; replay := replay w |}.

Definition leave (room : string) : string :=
  msgToRaw ("|/noreply /leave " ++ slice room 1 None).

(** The third [then]: the on-start actions and the returned object. *)
Definition then_started (msgraw : string) (w : world) : world :=
  let b := spec w in
  let room := room_of msgraw in
  let id := slice room 1 None in
  let msgraw0 := msgToRaw (id ++ "|" ++ message b) in
  let msgraw1 := msgToRaw (id ++ "|/timer on") in
  let msgraw2 := msgToRaw (id ++ "|/leavebattle") in
  let msgraw3 := msgToRaw (id ++ "|/addplayer "
                           ++ ToString (confirmed (side1 b)) ++ ", p1") in
  let msgraw4 := msgToRaw (id ++ "|/addplayer "
                           ++ ToString (confirmed (side2 b)) ++ ", p2") in
  let msgraw5 := leave room in
  {| spec := b;
     io := send1 msgraw5 (send1 msgraw4 (send0 msgraw3 (send1 msgraw2
             (send0 msgraw2 (send1 msgraw1 (send0 msgraw1
               (send0 msgraw0 (io w))))))));
     step := AwaitEnd room; wait := awaitws;
     outcome := res (base_url ++ id) (outcome w);
     replay := replay w |}.

(** The [then] after the battle has ended: asking for the replay. *)
Definition then_savereplay (room : string) (w : world) : world :=
  let msgraw0 := msgToRaw (slice room 1 None ++ "|/savereplay") in
  {| spec := spec w; io := send0 msgraw0 (io w);
     step := AwaitReplay room; wait := awaitws;
     outcome := outcome w; replay := replay w |}.

(** The last [then]: leaving the room and returning the link. *)
Definition then_link (room msgraw : string) (w : world) : world :=
  {| spec := spec w; io := send0 (leave room) (io w);
     step := Over; wait := wait w;
     outcome := outcome w;
     replay := res (href_of msgraw) (replay w) |}.

(** A rejected correlator rejects the promise its chain ends in. *)
Definition then_rejected (r : reason) (w : world) : world :=
  match step w with
  | AwaitPlayers | AwaitChallenge | AwaitRoom =>
      {| spec := spec w; io := io w; step := Over; wait := wait w;
         outcome := rej r (outcome w); replay := replay w |}
  | AwaitEnd _ | AwaitReplay _ =>
      {| spec := spec w; io := io w; step := Over; wait := wait w;
         outcome := outcome w; replay := rej r (replay w) |}
  | Over => w
  end.

(** The reactions run as soon as the correlator of the step settles,
    before the next event is delivered. *)
Definition react (w : world) : world :=
  match promise (wait w) with
  | Pending => w
  | Rejected r => then_rejected r w
  | Resolved msgraw =>
      match step w with
      | AwaitPlayers => then_challenge w
      | AwaitChallenge => then_accept w
      | AwaitRoom => then_started msgraw w
      | AwaitEnd room => then_savereplay room w
      | AwaitReplay room => then_link room msgraw w
      | Over => w
      end
  end.

(** The socket the correlator of a step listens on, its predicate, and
    its place among the [awaitws] calls of the run. *)
Definition listens_on (p : phase) : option conn :=
  match p with
  | AwaitPlayers | AwaitRoom | AwaitEnd _ | AwaitReplay _ => Some A
  | AwaitChallenge => Some B
  | Over => None
  end.

Definition predicate_of (p : phase)
  : BattleSpec -> string -> BattleSpec * completion jsval :=
  match p with
  | AwaitPlayers => players_predicate
  | AwaitChallenge => challenge_predicate
  | AwaitRoom => room_predicate
  | AwaitEnd _ => end_predicate
  | AwaitReplay room => replay_predicate room
  | Over => fun b _ => (b, Normal JUndefined)
  end.

Definition call_index (p : phase) : option nat :=
  match p with
  | AwaitPlayers => Some 0
  | AwaitChallenge => Some 1
  | AwaitRoom => Some 2
  | AwaitEnd _ => Some 3
  | AwaitReplay _ => Some 4
  | Over => None
  end.

Definition same_conn (a b : conn) : bool :=
  match a, b with A, A | B, B => true | _, _ => false end.

Definition with_wait (w : world) (sw : BattleSpec * awaitws_state) : world :=
  {| spec := fst sw; io := io w; step := step w; wait := snd sw;
     outcome := outcome w; replay := replay w |}.

(** One event.  A message reaches the correlator of the current step when
    it arrives on its socket; a timer acts when it is the timer of that
    correlator.  The correlators of earlier steps have settled and
    aborted, so their timers do nothing. *)
Definition battle_step (w : world) (e : battle_event) : world :=
  match e with
  | Inbound c data =>
      match listens_on (step w) with
      | Some c' =>
          if same_conn c c'
          then react (with_wait w
                        (on_message (predicate_of (step w)) data
                                    (spec w, wait w)))
          else w
      | None => w
      end
  | TimerOf k =>
      match call_index (step w) with
      | Some k' =>
          if (k =? k')%nat
          then react (with_wait w (on_timeout (spec w, wait w)))
          else w
      | None => w
      end
  end.

Definition battle_run (w : world) (es : list battle_event) : world :=
  fold_left battle_step es w.
End Battle.

(** * Properties *)

(** ** The correlator *)

Section CorrelatorFacts.
Context {S : Type}.
Variable predicate : S -> string -> S * completion jsval.

(** A settled correlator has aborted its controller. *)
Definition consistent (st : awaitws_state) : Prop :=
  promise st = Pending \/ aborted st = true.

Lemma listener_consistent r data st :
  consistent st -> consistent (listener r data st).
Proof.
  intros H. unfold listener.
  destruct r as [[| |[|]| | | | |]|]; try exact H; right; reflexivity.
Qed.

Lemma deliver_consistent w e :
  consistent (snd w) -> consistent (snd (deliver predicate w e)).
Proof.
  intros H. destruct e as [data|]; simpl.
  - unfold on_message. destruct (aborted (snd w)); [exact H|].
    destruct (predicate (fst w) data) as [s' r]. simpl.
    now apply listener_consistent.
  - right. reflexivity.
Qed.

Lemma deliver_all_consistent es w :
  consistent (snd w) -> consistent (snd (deliver_all predicate w es)).
Proof.
  revert w. induction es as [|e es IH]; intros w H; simpl; [exact H|].
  apply IH. now apply deliver_consistent.
Qed.

(** Once the controller has aborted, no event changes anything: the
    listener is gone, and [rej] from the timer finds the promise settled. *)
Lemma deliver_after_abort w e :
  aborted (snd w) = true -> promise (snd w) <> Pending ->
  deliver predicate w e = w.
Proof.
  destruct w as [s [p a]]. simpl. intros -> Hp.
  destruct e as [data|]; simpl.
  - reflexivity.
  - unfold on_timeout, abort. simpl.
    destruct p; [congruence| |]; reflexivity.
Qed.

Lemma deliver_all_after_abort es w :
  aborted (snd w) = true -> promise (snd w) <> Pending ->
  deliver_all predicate w es = w.
Proof.
  induction es as [|e es IH]; intros Ha Hp; simpl; [reflexivity|].
  rewrite deliver_after_abort by assumption. now apply IH.
Qed.
End CorrelatorFacts.

(** C5, as the code has it.  While the correlator is live, a message on
    which the predicate returns exactly [true] resolves the call with that
    message, a message on which it returns a string rejects the call with
    the object holding that string as [reason], and both abort the
    controller; on any other value, [undefined] included, the correlator is
    left as it was. *)
Theorem awaitws_message_outcomes
    (S : Type) (predicate : S -> string -> S * completion jsval)
    (s : S) (st : awaitws_state) (data : string) :
  promise st = Pending -> aborted st = false ->
  let after := on_message predicate data (s, st) in
  fst after = fst (predicate s data)
  /\ (snd (predicate s data) = Normal (JBool true) ->
      snd after = {| promise := Resolved data; aborted := true |})
  /\ (forall why, snd (predicate s data) = Normal (JStr why) ->
      snd after = {| promise := Rejected (Value (rejection_of why data));
                     aborted := true |})
  /\ (forall v, snd (predicate s data) = Normal v ->
      v <> JBool true -> (forall why, v <> JStr why) ->
      snd after = st).
Proof.
  intros Hp Ha. unfold on_message. simpl. rewrite Ha.
  destruct (predicate s data) as [s' r]. simpl.
  split; [reflexivity|].
  destruct st as [p a]. simpl in *. subst p a.
  repeat split.
  - intros ->. reflexivity.
  - intros why ->. reflexivity.
  - intros v -> Hv Hs.
    destruct v as [| |[|]| |why| | |]; try reflexivity.
    + congruence.
    + exfalso. now apply (Hs why).
Qed.

Lemma awaitws_message_outcomes_witness :
  snd (on_message (fun (s : unit) (_ : string) => (s, Normal (JBool true)))
         "line" (tt, awaitws))
  = {| promise := Resolved "line"; aborted := true |}.
Proof.
  apply (awaitws_message_outcomes unit
           (fun s _ => (s, Normal (JBool true))) tt awaitws "line");
    reflexivity.
Defined.

(** C5 as stated fails: a predicate that returns the truthy number [1]
    does not resolve the call, which keeps listening. *)
Lemma awaitws_truthy_is_not_enough :
  truthy (JNum 1) = true
  /\ snd (on_message (fun (s : unit) (_ : string) => (s, Normal (JNum 1)))
            "line" (tt, awaitws))
     = {| promise := Pending; aborted := false |}.
Proof. split; reflexivity. Qed.

(** C6.  Once a call has settled, by a match, an explicit failure or its
    timeout, no later message and no later timer firing changes its
    settlement or runs its predicate again; the controller is aborted, and
    aborting it again changes nothing. *)
Theorem awaitws_settles_once
    (S : Type) (predicate : S -> string -> S * completion jsval)
    (s0 : S) (before later : list (ws_event)) :
  promise (snd (deliver_all predicate (s0, awaitws) before)) <> Pending ->
  deliver_all predicate (s0, awaitws) (before ++ later)
    = deliver_all predicate (s0, awaitws) before
  /\ aborted (snd (deliver_all predicate (s0, awaitws) before)) = true
  /\ abort (snd (deliver_all predicate (s0, awaitws) before))
     = snd (deliver_all predicate (s0, awaitws) before).
Proof.
  intros Hp.
  assert (Ha : aborted (snd (deliver_all predicate (s0, awaitws) before))
               = true).
  { destruct (deliver_all_consistent predicate before (s0, awaitws))
      as [H|H]; [left; reflexivity | congruence | exact H]. }
  repeat split.
  - unfold deliver_all. rewrite fold_left_app.
    now apply deliver_all_after_abort.
  - exact Ha.
  - destruct (snd (deliver_all predicate (s0, awaitws) before)) as [p a].
    simpl in Ha. subst a. reflexivity.
Qed.

Lemma awaitws_settles_once_witness :
  deliver_all (fun (n : nat) (_ : string) => (Datatypes.S n, Normal (JBool true)))
    (0, awaitws) ([Message "first"] ++ [Message "second"; Timeout])
  = (1, {| promise := Resolved "first"; aborted := true |}).
Proof.
  exact (proj1 (awaitws_settles_once nat
                  (fun n _ => (Datatypes.S n, Normal (JBool true))) 0
                  [Message "first"] [Message "second"; Timeout]
                  ltac:(discriminate))).
Defined.

(** ** The constructor *)

(** What the callback of [some] decides, without the evaluation order. *)
Definition entry_rejected (x : jsval) : bool :=
  falsy x || falsy (field x "name") || falsy (field x "pass")
  || truthy (field x "ws").

Lemma get_truthy x k : truthy x = true -> get x k = Normal (field x k).
Proof. destruct x; simpl; try discriminate; reflexivity. Qed.

Lemma invalid_entry_total x : invalid_entry x = Normal (entry_rejected x).
Proof.
  unfold invalid_entry, entry_rejected, falsy.
  destruct (truthy x) eqn:Hx; simpl; [|reflexivity].
  rewrite !(get_truthy x) by exact Hx. simpl.
  destruct (truthy (field x "name")); simpl; [|reflexivity].
  destruct (truthy (field x "pass")); reflexivity.
Qed.

Lemma some_c_invalid_entry entries :
  some_c invalid_entry entries = Normal (existsb entry_rejected entries).
Proof.
  induction entries as [|x rest IH]; simpl; [reflexivity|].
  rewrite invalid_entry_total. simpl.
  destruct (entry_rejected x); [reflexivity | exact IH].
Qed.

Lemma constructor_unfold entries :
  constructor (JArr entries)
  = if existsb entry_rejected entries then Throw invalid_authentication
    else Normal {| bots := map bot_of entries; signal_aborted := false;
                   sockets := [] |}.
Proof. unfold constructor. rewrite some_c_invalid_entry. reflexivity. Qed.

(** C9.  The constructor throws the error "Invalid authentication data."
    exactly when the argument is not an array or has an entry that is falsy,
    has no truthy [name], has no truthy [pass], or has a truthy [ws]; it
    throws nothing else; and when it returns, no entry has a socket and the
    signal of the new controller is not aborted. *)
Theorem constructor_contract (auth : jsval) :
  (constructor auth = Throw (Error "Invalid authentication data.")
   <-> (isArray auth = false
        \/ exists entries x,
             auth = JArr entries /\ In x entries
             /\ (falsy x = true \/ falsy (field x "name") = true
                 \/ falsy (field x "pass") = true
                 \/ truthy (field x "ws") = true)))
  /\ (forall e, constructor auth = Throw e ->
        e = Error "Invalid authentication data.")
  /\ (forall p, constructor auth = Normal p ->
        (exists entries,
           auth = JArr entries
           /\ List.length (bots p) = List.length entries
           /\ Forall (fun x => falsy (field x "ws") = true) entries)
        /\ Forall (fun b => ws b = None) (bots p)
        /\ signal_aborted p = false).
Proof.
  assert (Hrej : forall x, entry_rejected x = true <->
            (falsy x = true \/ falsy (field x "name") = true
             \/ falsy (field x "pass") = true
             \/ truthy (field x "ws") = true)).
  { intros x. unfold entry_rejected. rewrite !orb_true_iff. tauto. }
  destruct auth as [| | | | |entries| |];
    try (split; [split; [intros _; left; reflexivity | reflexivity]|];
         split; [intros e [= <-]; reflexivity | discriminate]).
  rewrite constructor_unfold.
  destruct (existsb entry_rejected entries) eqn:Hex.
  - repeat split; try discriminate.
    + intros _. right. apply existsb_exists in Hex as [x [Hin Hx]].
      exists entries, x. repeat split; [exact Hin | now apply Hrej].
    + intros e [= <-]. reflexivity.
  - split; [split|split].
    + discriminate.
    + intros [H|[entries' [x [[= <-] [Hin Hx]]]]]; [discriminate|].
      exfalso. apply Hrej in Hx.
      assert (existsb entry_rejected entries = true)
        by (apply existsb_exists; eauto).
      congruence.
    + discriminate.
    + intros p [= <-]. simpl. repeat split.
      * exists entries. repeat split; [apply length_map|].
        apply Forall_forall. intros x Hin.
        destruct (falsy (field x "ws")) eqn:Hw; [reflexivity|].
        exfalso.
        assert (existsb entry_rejected entries = true).
        { apply existsb_exists. exists x. split; [exact Hin|].
          apply Hrej. right. right. right. unfold falsy in Hw.
          now destruct (truthy (field x "ws")). }
        congruence.
      * apply Forall_forall. intros b Hin.
        apply in_map_iff in Hin as [x [<- _]]. reflexivity.
Qed.

(** ** [getEntry] *)

(** A lowercase letter, a digit or the underscore. *)
Definition entry_char (c : ascii) : bool :=
  let n := nat_of_ascii c in
  ((97 <=? n) && (n <=? 122) || (48 <=? n) && (n <=? 57) || (n =? 95))%nat.

Definition entry_chars (s : string) : bool :=
  forallb entry_char (list_ascii_of_string s).

Lemma floor_times_range d n :
  unit_interval d -> (0 < n)%Z -> (0 <= floor_times d n < n)%Z.
Proof.
  unfold unit_interval, floor_times. intros [H0 H1] Hn. split.
  - apply Z.div_pos; nia.
  - apply Z.div_lt_upper_bound; nia.
Qed.

Lemma char_at_chars i :
  (0 <= i < 37)%Z ->
  exists c, char_at chars i = String c "" /\ entry_char c = true.
Proof.
  intros Hi. unfold char_at.
  replace (i <? 0)%Z with false by (symmetry; apply Z.ltb_ge; lia).
  assert (Hn : Z.to_nat i < 37) by lia.
  generalize dependent (Z.to_nat i). intros n Hn.
  do 37 (destruct n as [|n]; [eexists; split; reflexivity|]).
  lia.
Qed.

Lemma entry_chars_app a b :
  entry_chars (a ++ b) = entry_chars a && entry_chars b.
Proof.
  unfold entry_chars. induction a as [|c a IH]; simpl; [reflexivity|].
  rewrite IH. now rewrite andb_assoc.
Qed.

Lemma r1_loop_spec random :
  (forall i, unit_interval (random i)) ->
  forall cursor r1,
    String.length r1 <= 8 -> entry_chars r1 = true ->
    String.length (fst (r1_loop random cursor r1)) = 8
    /\ entry_chars (fst (r1_loop random cursor r1)) = true.
Proof.
  intros Hrandom cursor r1.
  funelim (r1_loop random cursor r1); intros Hlen Hchars.
  - destruct (char_at_chars
                (floor_times (random cursor) (Z.of_nat (String.length chars))))
      as [c [Hc Hok]].
    { apply floor_times_range; [apply Hrandom | reflexivity]. }
    apply H; try assumption.
    + rewrite length_append, Hc. simpl. lia.
    + rewrite entry_chars_app, Hchars, Hc. unfold entry_chars. simpl.
      now rewrite Hok.
  - simpl. split; [lia | exact Hchars].
Qed.

(** C10.  Whatever [Math.random] returns within its range, [getEntry]
    returns [wss://sim3.psim.us/showdown/<r1>/<r2>/websocket] with [r1] of
    exactly eight characters, each a lowercase letter, a digit or the
    underscore, and [r2] the decimal form of an integer from 100 to 999. *)
Theorem getEntry_shape (random : nat -> draw) (cursor : nat) :
  (forall i, unit_interval (random i)) ->
  exists (r1 : string) (r2 : Z),
    fst (getEntry random cursor)
    = "wss://sim3.psim.us/showdown/" ++ r1 ++ "/" ++ string_of_Z r2
        ++ "/websocket"
    /\ String.length r1 = 8
    /\ (forall c, In c (list_ascii_of_string r1) -> entry_char c = true)
    /\ (100 <= r2 <= 999)%Z.
Proof.
  intros Hrandom. unfold getEntry.
  destruct (r1_loop_spec random Hrandom cursor "") as [Hlen Hchars];
    [simpl; lia | reflexivity |].
  destruct (r1_loop random cursor "") as [r1 cursor1]. simpl in *.
  exists r1, (floor_times (random cursor1) 900 + 100)%Z.
  repeat split; try assumption.
  - intros c Hin. unfold entry_chars in Hchars.
    rewrite forallb_forall in Hchars. now apply Hchars.
  - pose proof (floor_times_range (random cursor1) 900 (Hrandom cursor1)). lia.
  - pose proof (floor_times_range (random cursor1) 900 (Hrandom cursor1)). lia.
Qed.

Lemma getEntry_shape_witness :
  exists (r1 : string) (r2 : Z),
    fst (getEntry (fun _ => {| num := 1; den := 2 |}) 0)
    = "wss://sim3.psim.us/showdown/" ++ r1 ++ "/" ++ string_of_Z r2
        ++ "/websocket"
    /\ String.length r1 = 8
    /\ (forall c, In c (list_ascii_of_string r1) -> entry_char c = true)
    /\ (100 <= r2 <= 999)%Z.
Proof.
  apply (getEntry_shape (fun _ => {| num := 1; den := 2 |}) 0).
  intros i. unfold unit_interval. simpl. lia.
Defined.

(** ** [battle]: the input checks *)

(** The three conditions the checks put on a side, read off the argument. *)
Definition side_refused (s : jsval) : Prop :=
  typeof (field s "team") <> "string"
  \/ isArray (field s "usernames") = false
  \/ truthy (field s "confirmed") = true.

Lemma check_side_ok s sd :
  check_side s = Normal sd ->
  field s "team" = JStr (team sd)
  /\ field s "usernames" = JArr (usernames sd)
  /\ field s "confirmed" = confirmed sd
  /\ truthy (confirmed sd) = false.
Proof.
  unfold check_side, field.
  destruct s as [| | | | | |fields|]; simpl; try discriminate.
  - destruct (lookup "team" fields); simpl; try discriminate.
    destruct (lookup "usernames" fields); simpl; try discriminate.
    destruct (truthy (lookup "confirmed" fields)) eqn:Hc; try discriminate.
    intros [= <-]. simpl. auto.
Qed.

Lemma check_side_throws s e :
  check_side s = Throw e -> e = invalid_data \/ e = TypeError.
Proof.
  unfold check_side.
  destruct s as [| | | | | |fields|]; simpl;
    try (intros [= <-]; auto; fail).
  destruct (lookup "team" fields); simpl; try (intros [= <-]; auto; fail).
  destruct (lookup "usernames" fields); simpl;
    try (intros [= <-]; auto; fail).
  destruct (truthy (lookup "confirmed" fields)); intros [= <-]; auto.
Qed.

Lemma check_ok arg b :
  check arg = Normal b ->
  check_side (field arg "side1") = Normal (side1 b)
  /\ check_side (field arg "side2") = Normal (side2 b).
Proof.
  unfold check, field.
  destruct arg as [| | | | | |fields|]; simpl; try discriminate.
  destruct (lookup "message" fields); simpl; try discriminate.
  destruct (lookup "chalcode" fields); simpl; try discriminate.
  destruct (check_side (lookup "side1" fields)) as [sd1|]; simpl;
    try discriminate.
  destruct (check_side (lookup "side2" fields)) as [sd2|]; simpl;
    try discriminate.
  intros [= <-]. simpl. auto.
Qed.

Lemma check_throws arg e :
  check arg = Throw e -> e = invalid_data \/ e = TypeError.
Proof.
  unfold check.
  destruct arg as [| | | | | |fields|]; simpl;
    try (intros [= <-]; auto; fail).
  destruct (lookup "message" fields); simpl;
    try (intros [= <-]; auto; fail).
  destruct (lookup "chalcode" fields); simpl;
    try (intros [= <-]; auto; fail).
  destruct (check_side (lookup "side1" fields)) as [sd1|e1] eqn:H1; simpl.
  - destruct (check_side (lookup "side2" fields)) as [sd2|e2] eqn:H2; simpl.
    + discriminate.
    + intros [= <-]. now apply check_side_throws in H2.
  - intros [= <-]. now apply check_side_throws in H1.
Qed.

Lemma check_side_accepts s sd : check_side s = Normal sd -> ~ side_refused s.
Proof.
  intros H [Ht|[Hu|Hc]]; apply check_side_ok in H as (H1 & H2 & H3 & H4).
  - apply Ht. now rewrite H1.
  - now rewrite H2 in Hu.
  - rewrite H3 in Hc. congruence.
Qed.

(** C4, as the code has it.  When a side of the argument has a [team] that
    is not a string, [usernames] that is not an array, or a truthy
    [confirmed], [battle] throws before it sends anything: the sockets are
    as they were.  What it throws is the error "Invalid data in argument.",
    or a [TypeError] when the argument or a side is [null]. *)
Theorem battle_refuses_before_sending (wires0 : wires) (arg : jsval) :
  side_refused (field arg "side1") \/ side_refused (field arg "side2") ->
  exists e,
    battle wires0 arg = (wires0, Throw e)
    /\ (e = Error "Invalid data in argument." \/ e = TypeError).
Proof.
  intros Hbad. unfold battle.
  destruct (check arg) as [b|e] eqn:Hcheck.
  - exfalso. apply check_ok in Hcheck as [H1 H2].
    destruct Hbad as [Hbad|Hbad];
      [ now apply (check_side_accepts _ _ H1)
      | now apply (check_side_accepts _ _ H2) ].
  - exists e. split; [reflexivity | now apply check_throws in Hcheck].
Qed.

Definition no_frames : wires := {| sent0 := []; sent1 := [] |}.

Definition side_of (team_ : jsval) (names : jsval) : jsval :=
  JObj [("team", team_); ("usernames", names)].

Lemma battle_refuses_before_sending_witness :
  exists e,
    battle no_frames
      (JObj [("message", JStr "35 Factory Format: idk");
             ("chalcode", JStr "gen9nationaldex35pokes");
             ("side1", side_of JUndefined (JArr [JStr "alice"]));
             ("side2", side_of (JStr "packed") (JArr [JStr "carol"]))])
    = (no_frames, Throw e)
    /\ (e = Error "Invalid data in argument." \/ e = TypeError).
Proof.
  apply battle_refuses_before_sending.
  left. left. simpl. discriminate.
Defined.

(** C4 as stated fails for an empty candidate set: the argument passes the
    checks of [battle], which goes on to send the lookup for the other
    side. *)
Lemma battle_accepts_empty_usernames :
  exists w,
    battle no_frames
      (JObj [("message", JStr "35 Factory Format: idk");
             ("chalcode", JStr "gen9nationaldex35pokes");
             ("side1", side_of (JStr "packed") (JArr []));
             ("side2", side_of (JStr "packed") (JArr [JStr "carol"]))])
    = ({| sent0 := [msgToRaw "|/cmd userdetails carol"]; sent1 := [] |},
       Normal w)
    /\ usernames (side1 (spec w)) = []
    /\ step w = AwaitPlayers.
Proof. eexists. repeat split. Qed.

(** ** [battle]: the run *)

Lemma find_in {A : Type} (p : A -> bool) (l : list A) (x : A) :
  find_ p l = Some x -> In x l /\ p x = true.
Proof.
  induction l as [|y l IH]; simpl; [discriminate|].
  destruct (p y) eqn:Hy.
  - intros [= <-]. auto.
  - intros H. destruct (IH H). auto.
Qed.

Lemma strict_eq_string x u : strict_eq x (JStr u) = true -> x = JStr u.
Proof.
  destruct x; simpl; try discriminate.
  intros H. apply String.eqb_eq in H. now subst.
Qed.

Lemma find_candidate u l :
  In (JStr u) l -> find_ (fun x => strict_eq x (JStr u)) l = Some (JStr u).
Proof.
  induction l as [|y l IH]; simpl; [tauto|].
  destruct (strict_eq y (JStr u)) eqn:Hy.
  - intros _. now rewrite (strict_eq_string _ _ Hy).
  - intros [->|H]; [|auto].
    simpl in Hy. now rewrite String.eqb_refl in Hy.
Qed.

(** What a correlator that was live can be after one message. *)
Lemma listener_cases r data :
  listener r data awaitws = awaitws
  \/ (r = Normal (JBool true)
      /\ listener r data awaitws
         = {| promise := Resolved data; aborted := true |})
  \/ (exists why,
        r = Normal (JStr why)
        /\ listener r data awaitws
           = {| promise := Rejected (Value (rejection_of why data));
                aborted := true |}).
Proof.
  destruct r as [[| |[|]| |why| | |]|]; simpl; auto.
  right. right. exists why. auto.
Qed.

(** A side as it may be during a run started with [initial]: the same team
    and candidates, and [confirmed] either untouched and falsy or a truthy
    member of the candidates. *)
Definition bound_within (initial now : SideSpec) : Prop :=
  team now = team initial
  /\ usernames now = usernames initial
  /\ ((confirmed now = confirmed initial /\ truthy (confirmed now) = false)
      \/ (In (confirmed now) (usernames initial)
          /\ truthy (confirmed now) = true)).

Definition spec_within (initial now : BattleSpec) : Prop :=
  message now = message initial
  /\ chalcode now = chalcode initial
  /\ bound_within (side1 initial) (side1 now)
  /\ bound_within (side2 initial) (side2 now).

Definition looking_up (w : world) : Prop := step w = AwaitPlayers.

Section BattleFacts.
Variable JSON_parse : string -> completion jsval.
Variables name0 name1 : jsval.

Local Abbreviation players := (players_predicate JSON_parse).
Local Abbreviation step_ := (battle_step JSON_parse name0 name1).
Local Abbreviation run_ := (battle_run JSON_parse name0 name1).

Lemma confirm_within initial b which user :
  spec_within initial b ->
  truthy user = true ->
  In user (usernames (match which with
                      | Side1 => side1 b
                      | Side2 => side2 b
                      end)) ->
  spec_within initial (confirm which user b).
Proof.
  intros (Hm & Hc & (T1 & U1 & C1) & (T2 & U2 & C2)) Ht Hin.
  destruct which; simpl in *; repeat split; simpl; auto.
  - right. rewrite <- U1. auto.
  - right. rewrite <- U2. auto.
Qed.

Lemma players_within initial b msgraw :
  spec_within initial b -> spec_within initial (fst (players b msgraw)).
Proof.
  intros H. unfold players_predicate.
  destruct (negb _ || negb _); [exact H|].
  destruct (at_ _ 3) as [d3|]; [|exact H].
  destruct (JSON_parse _) as [details|e]; [|exact H].
  destruct (falsy details); [exact H|].
  set (same := fun x => strict_eq x (field details "name")).
  destruct (find_ same (usernames (side1 b))) as [x1|] eqn:F1; simpl.
  - destruct (truthy x1) eqn:T1; simpl.
    + unfold falsy at 1. rewrite T1. simpl.
      destruct (falsy (field details "rooms")); [exact H|].
      assert (W : spec_within initial (confirm Side1 x1 b)).
      { apply confirm_within; auto. now apply find_in in F1. }
      match goal with |- context [if ?c then _ else _] => destruct c end;
        exact W.
    + destruct (find_ same (usernames (side2 b))) as [x2|] eqn:F2; simpl.
      * destruct (falsy x2) eqn:T2; [exact H|].
        destruct (falsy (field details "rooms")); [exact H|].
        assert (W : spec_within initial (confirm Side2 x2 b)).
        { apply confirm_within; auto.
          - unfold falsy in T2. now destruct (truthy x2).
          - now apply find_in in F2. }
        match goal with |- context [if ?c then _ else _] => destruct c end;
        exact W.
      * exact H.
  - destruct (find_ same (usernames (side2 b))) as [x2|] eqn:F2; simpl.
    + destruct (falsy x2) eqn:T2; [exact H|].
      destruct (falsy (field details "rooms")); [exact H|].
      assert (W : spec_within initial (confirm Side2 x2 b)).
      { apply confirm_within; auto.
        - unfold falsy in T2. now destruct (truthy x2).
        - now apply find_in in F2. }
      match goal with |- context [if ?c then _ else _] => destruct c end;
        exact W.
    + exact H.
Qed.

Lemma predicate_keeps_spec p b msgraw :
  p <> AwaitPlayers ->
  fst (predicate_of JSON_parse name0 name1 p b msgraw) = b.
Proof. intros H. destruct p; try reflexivity. now destruct H. Qed.

Lemma spec_react w : spec (react name0 name1 w) = spec w.
Proof.
  unfold react. destruct (promise (wait w)); [reflexivity| |].
  - destruct (step w); reflexivity.
  - unfold then_rejected. destruct (step w); reflexivity.
Qed.

Lemma step_react_not_players w :
  step w <> AwaitPlayers -> step (react name0 name1 w) <> AwaitPlayers.
Proof.
  intros Hs. unfold react. destruct (promise (wait w)); [auto| |].
  - destruct (step w) eqn:E; simpl; congruence.
  - unfold then_rejected. destruct (step w) eqn:E; simpl; congruence.
Qed.

Lemma on_message_spec p b st data :
  fst (on_message (predicate_of JSON_parse name0 name1 p) data (b, st)) = b
  \/ fst (on_message (predicate_of JSON_parse name0 name1 p) data (b, st))
     = fst (predicate_of JSON_parse name0 name1 p b data).
Proof.
  unfold on_message. simpl. destruct (aborted st); [left; reflexivity|].
  right. now destruct (predicate_of _ _ _ p b data).
Qed.

(** One event leaves the battle object alone, or is the predicate of the
    first step writing [confirmed]. *)
Lemma spec_step w e :
  spec (step_ w e) = spec w
  \/ (step w = AwaitPlayers
      /\ exists data, spec (step_ w e) = fst (players (spec w) data)).
Proof.
  destruct e as [c data|k]; simpl.
  - destruct (listens_on (step w)) as [c'|]; [|left; reflexivity].
    destruct (same_conn c c'); [|left; reflexivity].
    rewrite spec_react. simpl.
    destruct (on_message_spec (step w) (spec w) (wait w) data) as [->| ->];
      [left; reflexivity|].
    destruct (step w) eqn:Hs; try (left; reflexivity).
    right. split; [reflexivity|]. exists data. reflexivity.
  - destruct (call_index (step w)) as [k'|]; [|left; reflexivity].
    destruct (k =? k')%nat; [|left; reflexivity].
    rewrite spec_react. left. reflexivity.
Qed.

Lemma step_within initial w e :
  spec_within initial (spec w) -> spec_within initial (spec (step_ w e)).
Proof.
  intros H. destruct (spec_step w e) as [->|[_ [data ->]]];
    [exact H | now apply players_within].
Qed.

Lemma run_within initial es w :
  spec_within initial (spec w) -> spec_within initial (spec (run_ w es)).
Proof.
  revert w. induction es as [|e es IH]; intros w H; simpl; [exact H|].
  apply IH. now apply step_within.
Qed.

Lemma step_not_players w e :
  step w <> AwaitPlayers ->
  step (step_ w e) <> AwaitPlayers /\ spec (step_ w e) = spec w.
Proof.
  intros Hs. split.
  - destruct e as [c data|k]; simpl.
    + destruct (listens_on (step w)); [|exact Hs].
      destruct (same_conn _ _); [|exact Hs].
      now apply step_react_not_players.
    + destruct (call_index (step w)); [|exact Hs].
      destruct (_ =? _)%nat; [|exact Hs].
      now apply step_react_not_players.
  - destruct (spec_step w e) as [H|[H _]]; [exact H | contradiction].
Qed.

Lemma run_not_players es w :
  step w <> AwaitPlayers ->
  step (run_ w es) <> AwaitPlayers /\ spec (run_ w es) = spec w.
Proof.
  revert w. induction es as [|e es IH]; intros w Hs; simpl; [auto|].
  destruct (step_not_players w e Hs) as [H1 H2].
  destruct (IH _ H1) as [H3 H4]. split; [exact H3 | congruence].
Qed.

Lemma battle_starts wires0 arg io1 w0 :
  battle wires0 arg = (io1, Normal w0) ->
  spec_within (spec w0) (spec w0)
  /\ step w0 = AwaitPlayers /\ wait w0 = awaitws
  /\ outcome w0 = Pending /\ replay w0 = Pending
  /\ io w0 = io1 /\ io1 = request_players (spec w0) wires0.
Proof.
  unfold battle. destruct (check arg) as [b|e] eqn:Hc; [|discriminate].
  intros [= <- <-]. simpl. repeat split; auto.
  - left. split; [reflexivity|].
    apply check_ok in Hc as [H1 _]. now apply check_side_ok in H1.
  - left. split; [reflexivity|].
    apply check_ok in Hc as [_ H2]. now apply check_side_ok in H2.
Qed.

(** C1, as the code has it.  In a run that [battle] has started, the
    candidates of a side never change, and [confirmed] is either the falsy
    value the side came with or a truthy member of the candidates of that
    side; and once the run has left the step that waits for the players,
    no event changes the battle object any more. *)
Theorem confirmed_is_a_candidate
    (wires0 io1 : wires) (arg : jsval) (w0 : world)
    (es later : list battle_event) :
  battle wires0 arg = (io1, Normal w0) ->
  bound_within (side1 (spec w0)) (side1 (spec (run_ w0 es)))
  /\ bound_within (side2 (spec w0)) (side2 (spec (run_ w0 es)))
  /\ (step (run_ w0 es) <> AwaitPlayers ->
      spec (run_ w0 (es ++ later)) = spec (run_ w0 es)).
Proof.
  intros Hb. apply battle_starts in Hb as [Hw _].
  pose proof (run_within (spec w0) es w0 Hw) as (_ & _ & H1 & H2).
  repeat split; try apply H1; try apply H2.
  intros Hs. unfold battle_run. rewrite fold_left_app.
  now apply run_not_players.
Qed.
End BattleFacts.

(** ** Frames *)

Lemma append_nil_r (s : string) : s ++ "" = s.
Proof. induction s as [|c s IH]; simpl; [reflexivity | now rewrite IH]. Qed.

Lemma append_assoc (a b c : string) : (a ++ b) ++ c = a ++ b ++ c.
Proof. induction a as [|x a IH]; simpl; [reflexivity | now rewrite IH]. Qed.

Lemma substring_prefix (a b : string) :
  substring 0 (String.length a) (a ++ b) = a.
Proof. induction a as [|c a IH]; simpl; [now destruct b | now rewrite IH]. Qed.

(** [slice(3, -2)] takes the payload out of a frame [a["payload"]]. *)
Lemma slice_frame (body : string) :
  slice ("a[" ++ dq ++ body ++ dq ++ "]") 3 (Some (-2)%Z) = body.
Proof.
  unfold slice, slice_index. simpl String.length.
  rewrite length_append. simpl String.length.
  replace (3 <? 0)%Z with false by reflexivity.
  replace (-2 <? 0)%Z with true by reflexivity.
  set (n := String.length body).
  replace (Z.to_nat (Z.min 3 (Z.of_nat (S (S (S (n + 2)))))))
    with 3 by lia.
  replace (Z.to_nat (Z.max (Z.of_nat (S (S (S (n + 2)))) + -2) 0
                     - Z.min 3 (Z.of_nat (S (S (S (n + 2)))))))
    with n by lia.
  simpl. apply substring_prefix.
Qed.

(** [slice(1)] drops the first unit. *)
Lemma slice_tail (c : ascii) (s : string) : slice (String c s) 1 None = s.
Proof.
  unfold slice, slice_index. simpl String.length.
  replace (1 <? 0)%Z with false by reflexivity.
  set (n := String.length s).
  replace (Z.to_nat (Z.min 1 (Z.of_nat (S n)))) with 1 by lia.
  replace (Z.to_nat (Z.of_nat (S n) - Z.min 1 (Z.of_nat (S n))))
    with n by lia.
  simpl. pose proof (substring_prefix s "") as H.
  now rewrite append_nil_r in H.
Qed.

(** [s] holds no backslash. *)
Fixpoint plain (s : string) : bool :=
  match s with
  | EmptyString => true
  | String c t => negb (Ascii.eqb c "\") && plain t
  end.

Lemma split_go_cons sep skip cur c t :
  split_go sep skip cur (String c t)
  = match skip with
    | S k => split_go sep k cur t
    | O =>
        if prefix sep (String c t)
        then cur :: split_go sep (String.length sep - 1) "" t
        else split_go sep 0 (cur ++ String c "") t
    end.
Proof. reflexivity. Qed.


Lemma prefix_plain c t :
  Ascii.eqb c "\" = false -> prefix "\n" (String c t) = false.
Proof.
  intros Hc. cbn [prefix].
  destruct (ascii_dec "\" c) as [<-|_]; [discriminate | reflexivity].
Qed.


Lemma split_go_plain (p cur : string) :
  plain p = true -> split_go "\n" 0 cur p = [cur ++ p].
Proof.
  revert cur. induction p as [|c p IH]; intros cur Hp.
  - simpl. now rewrite append_nil_r.
  - simpl in Hp. apply andb_true_iff in Hp as [Hc Hp].
    apply negb_true_iff in Hc.
    rewrite split_go_cons, (prefix_plain _ _ Hc), IH by exact Hp.
    now rewrite append_assoc.
Qed.


(** The payload of a session-init broadcast for the room [R]. *)
Definition init_payload (R tail : string) : string :=
  ">" ++ R ++ "\n|init|battle" ++ tail.

Definition frame (payload : string) : string :=
  "a[" ++ dq ++ payload ++ dq ++ "]".


(** A frame is a challenge command when its payload starts with it. *)
Definition is_challenge (f : string) : bool :=
  startsWith f ("[" ++ dq ++ "|/challenge ").

Lemma userdetails_is_no_challenge user : is_challenge (userdetails user) = false.
Proof. reflexivity. Qed.

(** ** [battle]: the steps *)

(** In every step but the last the correlator of the step is live, and the
    promises that the step can still settle are pending. *)
Definition phase_ok (w : world) : Prop :=
  match step w with
  | AwaitPlayers | AwaitChallenge | AwaitRoom =>
      wait w = awaitws /\ outcome w = Pending /\ replay w = Pending
  | AwaitEnd _ | AwaitReplay _ => wait w = awaitws /\ replay w = Pending
  | Over => True
  end.

Section ChoreographyFacts.
Variable JSON_parse : string -> completion jsval.
Variables name0 name1 : jsval.

Local Abbreviation players := (players_predicate JSON_parse).
Local Abbreviation step_ := (battle_step JSON_parse name0 name1).
Local Abbreviation run_ := (battle_run JSON_parse name0 name1).
Local Abbreviation react_ := (react name0 name1).

Lemma step_over w e : step w = Over -> step_ w e = w.
Proof. intros H. destruct e; simpl; now rewrite H. Qed.

Lemma run_over es w : step w = Over -> run_ w es = w.
Proof.
  induction es as [|e es IH]; intros H; simpl; [reflexivity|].
  rewrite step_over by exact H. now apply IH.
Qed.

(** The reactions keep [phase_ok] when the correlator they look at is
    live or settled. *)
Lemma react_ok w sw :
  phase_ok w ->
  (promise (snd sw) = Pending -> snd sw = awaitws) ->
  phase_ok (react_ (with_wait w sw)).
Proof.
  unfold phase_ok, react, with_wait. simpl. intros Hw Hlive.
  destruct (promise (snd sw)) as [|msgraw|r] eqn:Hp; simpl.
  - destruct (step w); intuition.
  - destruct (step w); simpl; intuition.
  - unfold then_rejected. simpl. destruct (step w); simpl; intuition.
Qed.

Lemma on_message_live p b data :
  promise (snd (on_message p data (b, awaitws))) = Pending ->
  snd (on_message (S := BattleSpec) p data (b, awaitws)) = awaitws.
Proof.
  unfold on_message. simpl. destruct (p b data) as [b' r]. simpl.
  destruct (listener_cases r data) as [->|[[_ ->]|[why [_ ->]]]];
    [reflexivity | discriminate | discriminate].
Qed.

Lemma step_ok w e : phase_ok w -> phase_ok (step_ w e).
Proof.
  intros Hw. destruct e as [c data|k]; simpl.
  - destruct (listens_on (step w)) as [c'|] eqn:Hl; [|exact Hw].
    destruct (same_conn c c'); [|exact Hw].
    apply react_ok; [exact Hw|].
    assert (Hwait : wait w = awaitws).
    { unfold phase_ok in Hw. destruct (step w); try tauto. discriminate. }
    rewrite Hwait. apply on_message_live.
  - destruct (call_index (step w)) as [k'|]; [|exact Hw].
    destruct (k =? k')%nat; [|exact Hw].
    apply react_ok; [exact Hw|].
    simpl. destruct (promise (wait w)); discriminate.
Qed.

Lemma run_ok es w : phase_ok w -> phase_ok (run_ w es).
Proof.
  revert w. induction es as [|e es IH]; intros w H; simpl; [exact H|].
  apply IH. now apply step_ok.
Qed.

(** While the run waits for the players nothing is sent. *)
Lemma step_io_players w e :
  step (step_ w e) = AwaitPlayers -> io (step_ w e) = io w.
Proof.
  destruct e as [c data|k]; simpl.
  - destruct (listens_on (step w)) as [c'|]; [|reflexivity].
    destruct (same_conn c c'); [|reflexivity].
    unfold react. simpl.
    destruct (promise (snd (on_message _ data (spec w, wait w)))); simpl.
    + reflexivity.
    + destruct (step w) eqn:E; simpl; rewrite ?E; try discriminate;
        reflexivity.
    + unfold then_rejected. simpl.
      destruct (step w) eqn:E; simpl; rewrite ?E; discriminate.
  - destruct (call_index (step w)) as [k'|]; [|reflexivity].
    destruct (k =? k')%nat; [|reflexivity].
    unfold react. simpl.
    destruct (rej timed_out (promise (wait w))); simpl.
    + reflexivity.
    + destruct (step w) eqn:E; simpl; rewrite ?E; try discriminate;
        reflexivity.
    + unfold then_rejected. simpl.
      destruct (step w) eqn:E; simpl; rewrite ?E; discriminate.
Qed.

Lemma run_io_players es w :
  step (run_ w es) = AwaitPlayers -> io (run_ w es) = io w.
Proof.
  revert w. induction es as [|e es IH]; intros w H; simpl in *;
    [reflexivity|].
  rewrite (IH _ H).
  apply step_io_players.
  destruct (step (step_ w e)) eqn:Hs; try reflexivity;
    exfalso;
    refine (proj1 (run_not_players JSON_parse name0 name1 es
                     (step_ w e) _) H);
    rewrite Hs; discriminate.
Qed.

(** A message on which the predicate of the step returns [true]. *)
Lemma step_resolves w c data b' :
  wait w = awaitws ->
  listens_on (step w) = Some c ->
  predicate_of JSON_parse name0 name1 (step w) (spec w) data
  = (b', Normal (JBool true)) ->
  step_ w (Inbound c data)
  = react_ {| spec := b'; io := io w; step := step w;
              wait := {| promise := Resolved data; aborted := true |};
              outcome := outcome w; replay := replay w |}.
Proof.
  intros Hwait Hl Hp. unfold battle_step. rewrite Hl.
  replace (same_conn c c) with true by (destruct c; reflexivity).
  unfold on_message. cbn [fst snd]. rewrite Hwait. cbn [aborted awaitws].
  rewrite Hp. reflexivity.
Qed.

(** What the source decodes from a frame that is a reply to a lookup. *)
Definition lookup_reply (msgraw : string) (details : jsval) : Prop :=
  let data := split "|" (slice msgraw 3 (Some (-2)%Z)) in
  at_ data 1 = Some "queryresponse"
  /\ at_ data 2 = Some "userdetails"
  /\ exists d3,
       at_ data 3 = Some d3
       /\ JSON_parse (replaceAll "\" "" d3) = Normal details.

Lemma players_offline b msgraw fields u :
  lookup_reply msgraw (JObj fields) ->
  lookup "name" fields = JStr u -> u <> "" ->
  In (JStr u) (usernames (side1 b)) \/ In (JStr u) (usernames (side2 b)) ->
  falsy (lookup "rooms" fields) = true ->
  players b msgraw = (b, Normal (JStr ("User is offline: " ++ u))).
Proof.
  intros (H1 & H2 & d3 & H3 & Hparse) Hname Hu Hin Hrooms.
  unfold players_predicate. rewrite H1, H2, H3, Hparse. simpl.
  unfold field. simpl. rewrite Hname, Hrooms.
  assert (Ht : truthy (JStr u) = true).
  { simpl. destruct (String.eqb_spec u ""); [contradiction | reflexivity]. }
  destruct (find_ (fun x => strict_eq x (JStr u)) (usernames (side1 b)))
    as [x1|] eqn:F1; simpl.
  - apply find_in in F1 as [_ F1]. apply strict_eq_string in F1. subst x1.
    rewrite Ht. unfold falsy. rewrite Ht. reflexivity.
  - destruct Hin as [Hin|Hin].
    + rewrite (find_candidate _ _ Hin) in F1. discriminate.
    + rewrite (find_candidate _ _ Hin). simpl. unfold falsy. rewrite Ht.
      reflexivity.
Qed.

(** C7.  In a run that still waits for the players, a lookup reply for a
    candidate of either side that carries no [rooms] rejects the promise
    of [battle] with the reason "User is offline: " and the name, and
    whatever arrives later, all that the run has ever sent is the lookups:
    nothing on the second socket, and no challenge command. *)
Theorem offline_candidate_rejects
    (wires0 io1 : wires) (arg : jsval) (w0 : world)
    (before later : list battle_event)
    (msgraw : string) (fields : list (string * jsval)) (u : string) :
  battle wires0 arg = (io1, Normal w0) ->
  step (run_ w0 before) = AwaitPlayers ->
  lookup_reply msgraw (JObj fields) ->
  lookup "name" fields = JStr u -> u <> "" ->
  In (JStr u) (usernames (side1 (spec w0)))
  \/ In (JStr u) (usernames (side2 (spec w0))) ->
  falsy (lookup "rooms" fields) = true ->
  let w := run_ w0 (before ++ Inbound A msgraw :: later) in
  outcome w
  = Rejected (Value (rejection_of ("User is offline: " ++ u) msgraw))
  /\ exists lookups,
       sent0 (io w) = (sent0 wires0 ++ lookups)%list
       /\ sent1 (io w) = sent1 wires0
       /\ Forall (fun f => is_challenge f = false) lookups.
Proof.
  intros Hb Hstep Hreply Hname Hu Hin Hrooms w.
  pose proof (battle_starts wires0 arg io1 w0 Hb)
    as (Hwithin & Hs0 & Hw0 & Ho0 & Hr0 & Hio0 & Hio1).
  set (w1 := run_ w0 before) in *.
  assert (Hok : phase_ok w1).
  { apply run_ok. unfold phase_ok. rewrite Hs0. auto. }
  unfold phase_ok in Hok. rewrite Hstep in Hok.
  destruct Hok as (Hwait & Hout & Hrep).
  pose proof (run_io_players before w0 Hstep) as Hio.
  pose proof (run_within JSON_parse name0 name1 (spec w0) before w0 Hwithin)
    as (_ & _ & (_ & U1 & _) & (_ & U2 & _)).
  fold w1 in Hio, U1, U2.
  assert (Hin' : In (JStr u) (usernames (side1 (spec w1)))
                 \/ In (JStr u) (usernames (side2 (spec w1))))
    by (rewrite U1, U2; exact Hin).
  pose proof (players_offline (spec w1) msgraw fields u
                Hreply Hname Hu Hin' Hrooms) as Hpred.
  assert (Hnext : step_ w1 (Inbound A msgraw)
                  = {| spec := spec w1; io := io w1; step := Over;
                       wait := {| promise := Rejected (Value (rejection_of
                                    ("User is offline: " ++ u) msgraw));
                                  aborted := true |};
                       outcome := Rejected (Value (rejection_of
                                    ("User is offline: " ++ u) msgraw));
                       replay := replay w1 |}).
  { simpl. rewrite Hstep. simpl. unfold on_message. simpl.
    rewrite Hwait. simpl. rewrite Hpred. simpl.
    unfold react, then_rejected. simpl. rewrite Hstep, Hout. reflexivity. }
  assert (Hw : w = step_ w1 (Inbound A msgraw)).
  { unfold w, battle_run. rewrite fold_left_app.
    change (run_ (step_ w1 (Inbound A msgraw)) later
            = step_ w1 (Inbound A msgraw)).
    apply run_over. rewrite Hnext. reflexivity. }
  rewrite Hw, Hnext. simpl. split; [reflexivity|].
  rewrite Hio, Hio0, Hio1. unfold request_players. simpl.
  exists (map userdetails (usernames (side1 (spec w0)))
          ++ map userdetails (usernames (side2 (spec w0))))%list.
  repeat split.
  apply Forall_app. split; apply Forall_forall; intros f Hf;
    apply in_map_iff in Hf as [user [<- _]];
    apply userdetails_is_no_challenge.
Qed.



End ChoreographyFacts.

(** ** [connect] *)

Lemma nth_error_update_same {A : Type} (f : A -> A) (l : list A) i x :
  nth_error l i = Some x -> nth_error (update i f l) i = Some (f x).
Proof.
  revert i. induction l as [|y l IH]; intros [|i]; simpl; try discriminate.
  - now intros [= ->].
  - apply IH.
Qed.

Lemma nth_error_update_other {A : Type} (f : A -> A) (l : list A) i j :
  j <> i -> nth_error (update i f l) j = nth_error l j.
Proof.
  revert i j. induction l as [|y l IH]; intros [|i] [|j] H; simpl;
    try reflexivity; try congruence.
  apply IH. congruence.
Qed.

Lemma length_update {A : Type} (f : A -> A) (l : list A) i :
  List.length (update i f l) = List.length l.
Proof.
  revert i. induction l as [|y l IH]; intros [|i]; simpl; auto.
Qed.




(** The states [connect] can reach: every bot has its socket, there is one
    chain per bot, and the promise of [connect] is resolved only when every
    chain has resolved. *)
Definition connecting_ok (c : connecting) : Prop :=
  some no_socket (bots (pool c)) = false
  /\ List.length (stages c) = List.length (bots (pool c))
  /\ (forall x, all c = Resolved x -> forallb is_connected (stages c) = true).

Lemma open_sockets_ok random cursor bs sks :
  let '(bs', _, _) := open_sockets random cursor bs sks in
  some no_socket bs' = false /\ List.length bs' = List.length bs.
Proof.
  revert cursor sks. induction bs as [|b bs IH]; intros cursor sks; simpl;
    [auto|].
  destruct (getEntry random cursor) as [entry cursor1].
  specialize (IH cursor1
    (sks ++ [{| url := entry; closed := false; sent := [] |}])%list).
  destruct (open_sockets random cursor1 bs _) as [[bs' sks'] cursor2].
  simpl. destruct IH as [H1 H2]. split; [exact H1 | now rewrite H2].
Qed.

Lemma shutdown_bots p : bots (shutdown p) = bots p.
Proof.
  unfold shutdown. now destruct (some no_socket (bots p) || signal_aborted p).
Qed.

Lemma shutdown_aborts p :
  some no_socket (bots p) = false -> signal_aborted (shutdown p) = true.
Proof.
  intros H. unfold shutdown. rewrite H. simpl.
  destruct (signal_aborted p) eqn:Ha; [exact Ha | reflexivity].
Qed.

Lemma forallb_update_not_connected ss i s :
  nth_error ss i = Some s -> is_connected s = false ->
  forallb is_connected ss = false.
Proof.
  revert i. induction ss as [|y ss IH]; intros [|i]; simpl; try discriminate.
  - intros [= ->] ->. reflexivity.
  - intros H Hs. rewrite (IH _ H Hs). apply andb_false_r.
Qed.

(** No open socket at [id]. *)
Definition closed_at (sks : list WebSocket) (id : nat) : bool :=
  match nth_error sks id with Some sk => closed sk | None => true end.

Lemma is_open_closed_at p i :
  is_open p i
  = match nth_error (bots p) i with
    | Some b =>
        match ws b with
        | Some id => negb (closed_at (sockets p) id)
        | None => false
        end
    | None => false
    end.
Proof.
  unfold is_open, closed_at.
  destruct (nth_error (bots p) i) as [b|]; [|reflexivity].
  destruct (ws b) as [id|]; [|reflexivity].
  now destruct (nth_error (sockets p) id).
Qed.

Lemma closed_at_update f sks id id' :
  (forall sk, closed sk = true -> closed (f sk) = true) ->
  closed_at sks id' = true -> closed_at (update id f sks) id' = true.
Proof.
  intros Hf. unfold closed_at. revert id id'.
  induction sks as [|sk sks IH]; intros [|id] [|id']; simpl; auto.
Qed.

Lemma closed_at_close sks id : closed_at (update id close sks) id = true.
Proof.
  unfold closed_at. revert id.
  induction sks as [|sk sks IH]; intros [|id]; simpl; auto.
Qed.

Lemma closed_at_send frame_ sks id id' :
  closed_at (update id (send frame_) sks) id' = closed_at sks id'.
Proof.
  unfold closed_at. revert id id'.
  induction sks as [|sk sks IH]; intros [|id] [|id']; simpl; auto.
Qed.

Lemma close_each_keeps bs sks id :
  closed_at sks id = true -> closed_at (close_each bs sks) id = true.
Proof.
  revert sks. induction bs as [|b bs IH]; intros sks H; simpl; [exact H|].
  apply IH. destruct (ws b) as [id'|]; [|exact H].
  now apply closed_at_update.
Qed.

Lemma close_each_closes bs sks b id :
  In b bs -> ws b = Some id -> closed_at (close_each bs sks) id = true.
Proof.
  revert sks. induction bs as [|b' bs IH]; intros sks Hin Hws; simpl;
    [contradiction|].
  destruct Hin as [<-|Hin].
  - rewrite Hws. apply close_each_keeps, closed_at_close.
  - now apply IH.
Qed.

(** Once the shared signal is aborted, no bot has an open socket. *)
Definition sealed (p : PSBots) : Prop :=
  signal_aborted p = true -> forall i, is_open p i = false.

Lemma shutdown_sealed p :
  some no_socket (bots p) = false -> sealed p -> sealed (shutdown p).
Proof.
  intros _ Hs. unfold shutdown.
  destruct (some no_socket (bots p) || signal_aborted p) eqn:Hc;
    [exact Hs|].
  unfold sealed. simpl. intros _ i. rewrite is_open_closed_at. simpl.
  destruct (nth_error (bots p) i) as [b|] eqn:Hb; [|reflexivity].
  destruct (ws b) as [id|] eqn:Hw; [|reflexivity].
  rewrite (close_each_closes (bots p) (sockets p) b id); auto.
  now apply nth_error_In in Hb.
Qed.

Section ConnectFacts.
Variable JSON_parse : string -> completion jsval.

Local Abbreviation cstep := (connect_step JSON_parse).
Local Abbreviation crun := (connect_run JSON_parse).

Lemma connect_ok random cursor p :
  connecting_ok (fst (connect random cursor p)).
Proof.
  unfold connect, connecting_ok.
  pose proof (open_sockets_ok random cursor (bots p) (sockets p)) as H.
  destruct (open_sockets random cursor (bots p) (sockets p))
    as [[bs sks] cursor']. simpl. destruct H as [H1 H2].
  repeat split; [exact H1 | apply length_map|].
  unfold join. intros x.
  destruct (forallb is_connected _) eqn:Hf; [reflexivity | discriminate].
Qed.

Lemma fail_ok i r c s :
  connecting_ok c ->
  nth_error (stages c) i = Some s -> is_connected s = false ->
  connecting_ok (fail i r c).
Proof.
  intros (H1 & H2 & H3) Hs Hn. unfold connecting_ok, fail. simpl.
  rewrite shutdown_bots, length_update. repeat split; auto.
  intros x Hx. exfalso.
  destruct (all c) eqn:Ha; simpl in Hx; try discriminate.
  specialize (H3 _ eq_refl).
  rewrite (forallb_update_not_connected _ _ _ Hs Hn) in H3. discriminate.
Qed.

Lemma set_stage_ok i s' c s :
  connecting_ok c ->
  nth_error (stages c) i = Some s -> is_connected s = false ->
  connecting_ok (set_stage i s' c).
Proof.
  intros (H1 & H2 & H3) Hs Hn. unfold connecting_ok, set_stage. simpl.
  rewrite length_update. repeat split; auto.
  intros x Hx. exfalso. specialize (H3 _ Hx).
  rewrite (forallb_update_not_connected _ _ _ Hs Hn) in H3. discriminate.
Qed.

Lemma logged_in_ok i b r c s :
  connecting_ok c ->
  nth_error (stages c) i = Some s -> is_connected s = false ->
  connecting_ok (logged_in i b r c).
Proof.
  intros Hc Hs Hn. unfold logged_in.
  destruct (login_refused r) as [[|]|e];
    try (eapply fail_ok; eassumption).
  destruct (ws b) as [id|]; [|eapply fail_ok; eassumption].
  destruct Hc as (H1 & H2 & H3). unfold connecting_ok. simpl.
  rewrite length_update. repeat split; auto.
  intros x. unfold join.
  destruct (forallb is_connected
              (update i (fun _ => Connected) (stages c))) eqn:Hf;
    [reflexivity|].
  intros Hx. specialize (H3 _ Hx).
  rewrite (forallb_update_not_connected _ _ _ Hs Hn) in H3. discriminate.
Qed.

Lemma cstep_ok c e : connecting_ok c -> connecting_ok (cstep c e).
Proof.
  intros Hc. destruct e as [i data|i|i|i e|i ok text]; simpl.
  - destruct (nth_error (stages c) i) as [[w|ch| |r]|] eqn:Hs; auto.
    destruct (is_open (pool c) i); auto.
    match goal with
    | |- connecting_ok (match ?q with _ => _ end) => destruct q
    end;
      [ eapply set_stage_ok | eapply set_stage_ok | eapply fail_ok ];
      eauto.
  - destruct (nth_error (stages c) i) as [s|]; auto.
    destruct (signal_aborted (pool c)); auto.
    destruct Hc as (H1 & H2 & H3). unfold connecting_ok. simpl.
    rewrite shutdown_bots. auto.
  - destruct (nth_error (stages c) i) as [[w|ch| |r]|] eqn:Hs; auto.
    match goal with
    | |- connecting_ok (match ?q with _ => _ end) => destruct q
    end;
      [ eapply set_stage_ok | eapply set_stage_ok | eapply fail_ok ];
      eauto.
  - destruct (nth_error (stages c) i) as [[w|ch| |r]|] eqn:Hs; auto.
    eapply fail_ok; eauto.
  - destruct (nth_error (stages c) i) as [[w|ch| |r]|] eqn:Hs; auto.
    destruct (nth_error (bots (pool c)) i) as [b|]; auto.
    destruct (negb ok); [eapply fail_ok; eauto|].
    destruct (JSON_parse _);
      [eapply logged_in_ok | eapply fail_ok]; eauto.
Qed.


(** *** After the abort *)

Lemma fail_sealed i r c :
  connecting_ok c -> sealed (pool c) -> sealed (pool (fail i r c)).
Proof. intros (H & _) Hs. simpl. now apply shutdown_sealed. Qed.

Lemma logged_in_sealed i b r c :
  connecting_ok c -> sealed (pool c) -> sealed (pool (logged_in i b r c)).
Proof.
  intros Hc Hs. unfold logged_in.
  destruct (login_refused r) as [[|]|e]; try now apply fail_sealed.
  destruct (ws b) as [id|]; [|now apply fail_sealed].
  unfold sealed in *. simpl. intros Ha j. specialize (Hs Ha j).
  rewrite is_open_closed_at in *. simpl.
  destruct (nth_error (bots (pool c)) j) as [b'|]; [|reflexivity].
  destruct (ws b') as [id'|]; [|reflexivity].
  now rewrite closed_at_send.
Qed.

Lemma cstep_sealed c e :
  connecting_ok c -> sealed (pool c) -> sealed (pool (cstep c e)).
Proof.
  intros Hc Hs. destruct e as [i data|i|i|i e|i ok text]; simpl.
  - destruct (nth_error (stages c) i) as [[w|ch| |r]|]; auto.
    destruct (is_open (pool c) i); auto.
    match goal with
    | |- sealed (pool (match ?q with _ => _ end)) => destruct q
    end; auto using fail_sealed.
  - destruct (nth_error (stages c) i) as [s|]; auto.
    destruct (signal_aborted (pool c)); auto.
    simpl. apply shutdown_sealed; [apply Hc | exact Hs].
  - destruct (nth_error (stages c) i) as [[w|ch| |r]|]; auto.
    match goal with
    | |- sealed (pool (match ?q with _ => _ end)) => destruct q
    end; auto using fail_sealed.
  - destruct (nth_error (stages c) i) as [[w|ch| |r]|];
      auto using fail_sealed.
  - destruct (nth_error (stages c) i) as [[w|ch| |r]|]; auto.
    destruct (nth_error (bots (pool c)) i) as [b|]; auto.
    destruct (negb ok); [now apply fail_sealed|].
    destruct (JSON_parse _);
      [now apply logged_in_sealed | now apply fail_sealed].
Qed.


Lemma cstep_stays_aborted c e :
  signal_aborted (pool c) = true ->
  signal_aborted (pool (cstep c e)) = true.
Proof.
  intros Ha.
  assert (Hsh : signal_aborted (shutdown (pool c)) = true).
  { unfold shutdown. rewrite Ha, orb_true_r. exact Ha. }
  assert (Hfail : forall i r, signal_aborted (pool (fail i r c)) = true)
    by (intros; exact Hsh).
  destruct e as [i data|i|i|i e|i ok text]; simpl.
  - destruct (nth_error (stages c) i) as [[w|ch| |r]|]; auto.
    destruct (is_open (pool c) i); auto.
    match goal with
    | |- signal_aborted (pool (match ?q with _ => _ end)) = _ => destruct q
    end; auto.
  - destruct (nth_error (stages c) i) as [s|]; auto. now rewrite Ha.
  - destruct (nth_error (stages c) i) as [[w|ch| |r]|]; auto.
    match goal with
    | |- signal_aborted (pool (match ?q with _ => _ end)) = _ => destruct q
    end; auto.
  - destruct (nth_error (stages c) i) as [[w|ch| |r]|]; auto.
  - destruct (nth_error (stages c) i) as [[w|ch| |r]|]; auto.
    destruct (nth_error (bots (pool c)) i) as [b|]; auto.
    destruct (negb ok); auto.
    destruct (JSON_parse _); auto. unfold logged_in.
    destruct (login_refused _) as [[|]|]; auto.
    destruct (ws b); auto.
Qed.








Lemma connect_sealed random cursor p :
  signal_aborted p = false -> sealed (pool (fst (connect random cursor p))).
Proof.
  intros Ha. unfold connect.
  destruct (open_sockets random cursor (bots p) (sockets p))
    as [[bs sks] cursor']. unfold sealed. simpl. congruence.
Qed.

End ConnectFacts.

(** ** The pattern for the upload notice *)

Lemma parse_disjunction_S f n s :
  RegExp.parse_disjunction (S f) n s
  = match RegExp.parse_alternative f n s with
    | Some (a, n1, String "|" t) =>
        match RegExp.parse_disjunction f n1 t with
        | Some (d, n2, t') => Some (RegExp.Alt a d, n2, t')
        | None => None
        end
    | other => other
    end.
Proof. reflexivity. Qed.

Lemma parse_alternative_caret f t :
  RegExp.parse_alternative f 0 (String "^" (String "|" t))
  = match f with
    | S (S _) =>
        Some (RegExp.Seq RegExp.Bol RegExp.Empty, 0, String "|" t)
    | _ => None
    end.
Proof. destruct f as [|[|f]]; reflexivity. Qed.

(** A pattern source that starts with [^|] is a disjunction whose first
    alternative is the assertion [^] alone. *)
Lemma parse_caret_bar fuel t r n s' :
  RegExp.parse_disjunction fuel 0 (String "^" (String "|" t)) = Some (r, n, s')
  -> exists d, r = RegExp.Alt (RegExp.Seq RegExp.Bol RegExp.Empty) d.
Proof.
  destruct fuel as [|f]; [discriminate|].
  rewrite parse_disjunction_S, parse_alternative_caret.
  destruct f as [|[|f]]; try discriminate.
  destruct (RegExp.parse_disjunction (S (S f)) 0 t) as [[[d n2] t']|];
    [|discriminate].
  intros [= <- _ _]. now exists d.
Qed.

Lemma caret_alternative_matches d msg :
  RegExp.test (RegExp.Alt (RegExp.Seq RegExp.Bol RegExp.Empty) d) msg = true.
Proof. now destruct msg. Qed.

(** The pattern built for the upload notice, whenever it compiles, accepts
    every string: its unescaped [|] make [^] an alternative of its own. *)
Lemma uploaded_pattern_accepts_everything room re msg :
  RegExp.compile (uploaded_pattern room) = Normal re ->
  RegExp.test re msg = true.
Proof.
  unfold RegExp.compile, uploaded_pattern.
  change ("^|popup||html|<p>Your replay has been uploaded!.+?"
          ++ slice room 1 None)
    with (String "^" (String "|"
            ("popup||html|<p>Your replay has been uploaded!.+?"
             ++ slice room 1 None))).
  match goal with
  | |- match ?parsed with _ => _ end = _ -> _ =>
      destruct parsed as [[[r n] s']|] eqn:Hparse; [|discriminate]
  end.
  apply parse_caret_bar in Hparse as [d ->].
  destruct s'; [|discriminate].
  intros [= <-]. apply caret_alternative_matches.
Qed.

Lemma replay_predicate_accepts_everything room re b msgraw :
  RegExp.compile (uploaded_pattern room) = Normal re ->
  replay_predicate room b msgraw = (b, Normal (JBool true)).
Proof.
  intros Hre. unfold replay_predicate. rewrite Hre.
  now rewrite (uploaded_pattern_accepts_everything room re _ Hre).
Qed.

(** * Scenarios

    One battle between [botA] and [botB]: the first side may be claimed by
    [alice] or [bob], the second by [carol]. *)

(** A quoted string as it stands inside a frame, its quotes escaped. *)
Definition escaped (s : string) : string := "\" ++ dq ++ s ++ "\" ++ dq.

(** The reply to a lookup of [user], with [rooms] as given. *)
Definition details (user rooms : string) : string :=
  frame ("|queryresponse|userdetails|{" ++ escaped "name" ++ ":"
         ++ escaped user ++ "," ++ escaped "rooms" ++ ":" ++ rooms ++ "}").

Definition botA : jsval := JStr "botA".
Definition botB : jsval := JStr "botB".

Definition two_candidates : jsval :=
  JObj [("message", JStr "35 Factory Format: idk");
        ("chalcode", JStr "gen9nationaldex35pokes");
        ("side1", side_of (JStr "packed1") (JArr [JStr "alice"; JStr "bob"]));
        ("side2", side_of (JStr "packed2") (JArr [JStr "carol"]))].

Definition two_candidates_spec : BattleSpec :=
  {| message := "35 Factory Format: idk";
     chalcode := "gen9nationaldex35pokes";
     side1 := {| team := "packed1"; usernames := [JStr "alice"; JStr "bob"];
                 confirmed := JUndefined |};
     side2 := {| team := "packed2"; usernames := [JStr "carol"];
                 confirmed := JUndefined |} |}.

Definition lookups_sent : wires :=
  {| sent0 := [msgToRaw "|/cmd userdetails alice";
               msgToRaw "|/cmd userdetails bob";
               msgToRaw "|/cmd userdetails carol"];
     sent1 := [] |}.

Definition started : world :=
  {| spec := two_candidates_spec; io := lookups_sent; step := AwaitPlayers;
     wait := awaitws; outcome := Pending; replay := Pending |}.

Lemma battle_two_candidates :
  battle no_frames two_candidates = (lookups_sent, Normal started).
Proof. reflexivity. Qed.

Definition scenario : list battle_event -> world :=
  battle_run JSON.parse botA botB started.

Definition online (user : string) : battle_event :=
  Inbound A (details user "{}").

Definition offline (user : string) : battle_event :=
  Inbound A (details user "false").

Definition challenged : battle_event :=
  Inbound B (frame "|pm| botA| botB|/challenge gen9nationaldex35pokes|||").

Definition room_id : string := "battle-gen9nationaldex35pokes-2297742922".

Definition initialised : battle_event :=
  Inbound A (frame (init_payload room_id "\n|title|botA vs. botB\n")).

Definition won : battle_event :=
  Inbound A (frame (">" ++ room_id ++ "\n|\n|win|alice")).

Definition unrelated : battle_event :=
  Inbound A (frame "|pm| dave| botA|hello").

Example scenario_players_then_room :
  step (scenario [online "alice"; online "carol"; challenged]) = AwaitRoom.
Proof. vm_compute. reflexivity. Qed.

(** C1 as stated fails: with two candidates online on one side, the reply
    that arrives second replaces the candidate bound by the first. *)
Lemma later_reply_rebinds_confirmed :
  battle no_frames two_candidates = (lookups_sent, Normal started)
  /\ confirmed (side1 (spec (scenario [online "alice"]))) = JStr "alice"
  /\ confirmed (side1 (spec (scenario [online "alice"; online "bob"])))
     = JStr "bob".
Proof. vm_compute. repeat split. Qed.

Lemma confirmed_is_a_candidate_witness :
  bound_within (side1 two_candidates_spec)
    (side1 (spec (scenario [online "alice"; online "bob"]))).
Proof.
  exact (proj1 (confirmed_is_a_candidate JSON.parse botA botB
                  no_frames lookups_sent two_candidates started
                  [online "alice"; online "bob"] []
                  battle_two_candidates)).
Defined.

Lemma offline_candidate_rejects_witness :
  outcome (scenario ([online "alice"]
                     ++ offline "bob" :: [online "carol"; TimerOf 0]))
  = Rejected (Value (rejection_of ("User is offline: " ++ "bob")
                       (details "bob" "false"))).
Proof.
  refine (proj1 (offline_candidate_rejects JSON.parse botA botB
                   no_frames lookups_sent two_candidates started
                   [online "alice"] [online "carol"; TimerOf 0]
                   (details "bob" "false")
                   [("rooms", JBool false); ("name", JStr "bob")] "bob"
                   battle_two_candidates _ _ _ _ _ _)).
  - vm_compute. reflexivity.
  - unfold lookup_reply. cbv zeta.
    split; [vm_compute; reflexivity|].
    split; [vm_compute; reflexivity|].
    exists ("{" ++ escaped "name" ++ ":" ++ escaped "bob" ++ ","
            ++ escaped "rooms" ++ ":false}").
    split; vm_compute; reflexivity.
  - reflexivity.
  - discriminate.
  - left. simpl. auto.
  - reflexivity.
Defined.

(** A battle whose second side may be claimed by [carol] or [dave]. *)
Definition one_against_two : jsval :=
  JObj [("message", JStr "35 Factory Format: idk");
        ("chalcode", JStr "gen9nationaldex35pokes");
        ("side1", side_of (JStr "packed1") (JArr [JStr "alice"]));
        ("side2", side_of (JStr "packed2")
                    (JArr [JStr "carol"; JStr "dave"]))].

Definition one_against_two_spec : BattleSpec :=
  {| message := "35 Factory Format: idk";
     chalcode := "gen9nationaldex35pokes";
     side1 := {| team := "packed1"; usernames := [JStr "alice"];
                 confirmed := JUndefined |};
     side2 := {| team := "packed2";
                 usernames := [JStr "carol"; JStr "dave"];
                 confirmed := JUndefined |} |}.

Definition one_against_two_sent : wires :=
  {| sent0 := [msgToRaw "|/cmd userdetails alice";
               msgToRaw "|/cmd userdetails carol";
               msgToRaw "|/cmd userdetails dave"];
     sent1 := [] |}.

Definition one_against_two_started : world :=
  {| spec := one_against_two_spec; io := one_against_two_sent;
     step := AwaitPlayers; wait := awaitws; outcome := Pending;
     replay := Pending |}.

(** The replies to the three lookups, in the order of the lookups. *)
Definition replies_in_order : list battle_event :=
  [online "alice"; online "carol"; offline "dave"].

(** C7 as stated fails: the reply that reports [dave] offline arrives after
    [alice] and [carol] have been confirmed.  The correlator of the first
    step is gone by then: the challenge has been sent, the reply is not
    looked at, the promise stays pending and the battle starts. *)
Lemma late_offline_reply_is_ignored :
  battle no_frames one_against_two
  = (one_against_two_sent, Normal one_against_two_started)
  /\ players_predicate JSON.parse one_against_two_spec
       (details "dave" "false")
     = (one_against_two_spec, Normal (JStr "User is offline: dave"))
  /\ outcome (battle_run JSON.parse botA botB one_against_two_started
                replies_in_order) = Pending
  /\ step (battle_run JSON.parse botA botB one_against_two_started
             replies_in_order) = AwaitChallenge
  /\ existsb is_challenge
       (sent0 (io (battle_run JSON.parse botA botB one_against_two_started
                     replies_in_order))) = true
  /\ outcome (battle_run JSON.parse botA botB one_against_two_started
                (replies_in_order ++ [challenged; initialised]))
     = Resolved ("https://play.pokemonshowdown.com/" ++ room_id).
Proof. vm_compute. repeat split. Qed.


(** C2 at a failing input.  The battle has ended and the command that saves
    the replay is the last frame sent on the first socket; the next frame to
    arrive there is a private message that has nothing to do with the
    replay.  The correlator resolves on it, the room is left, and the
    promise in [replay] is resolved with the fallback text. *)
Theorem replay_resolves_on_unrelated_message :
  let ended :=
    scenario [online "alice"; online "carol"; challenged; initialised; won] in
  step ended = AwaitReplay (">" ++ room_id)
  /\ pop (sent0 (io ended)) = Some (msgToRaw (room_id ++ "|/savereplay"))
  /\ replay ended = Pending
  /\ step (battle_step JSON.parse botA botB ended unrelated) = Over
  /\ replay (battle_step JSON.parse botA botB ended unrelated)
     = Resolved "this should not have happened".
Proof. vm_compute. repeat split. Qed.

(** The link is the first [href] of the frame when the frame has one with
    plain quotes. *)
Example href_of_notice :
  href_of ("<p>Your replay has been uploaded!</p><a href=" ++ dq
           ++ "https://replay.pokemonshowdown.com/x-1" ++ dq ++ " target="
           ++ dq ++ "_blank" ++ dq ++ ">")
  = "https://replay.pokemonshowdown.com/x-1".
Proof. vm_compute. reflexivity. Qed.


Definition two_bots_pool : PSBots :=
  {| bots := [{| name := JStr "botA"; pass := JStr "secretA"; ws := None |};
              {| name := JStr "botB"; pass := JStr "secretB"; ws := None |}];
     signal_aborted := false;
     sockets := [] |}.


Definition half : nat -> draw := fun _ => {| num := 1; den := 2 |}.

Definition handshake : string := frame "|challstr|4|0123abcd".

(** The body of a refused login, its sentinel first. *)
Definition refusal : string :=
  "]{" ++ quoted "actionsuccess" ++ ":false," ++ quoted "assertion" ++ ":"
       ++ quoted ";;Wrong password" ++ "," ++ quoted "curuser" ++ ":{"
       ++ quoted "loggedin" ++ ":false}}".


Definition connecting_two : list event -> connecting :=
  connect_run JSON.parse (fst (connect half 0 two_bots_pool)).



(** On a frame whose quotes are escaped, as they are in the lookup replies
    from which the source strips the backslashes before parsing, the pattern
    finds no [href] and the fallback text is returned. *)
Example href_of_escaped_notice :
  href_of (frame ("|popup||html|<p>Your replay has been uploaded!</p><a href="
                  ++ escaped "https://replay.pokemonshowdown.com/x-1" ++ ">"))
  = "this should not have happened".
Proof. vm_compute. reflexivity. Qed.

(** * The earlier version

    [awaitws] applied the predicate to the message twice, rejecting with the
    message on [false] and resolving on [true]; [battle] tested its argument
    for truthiness inside the promise executor and rejected with a string. *)
Module Earlier.

Section Correlator.
Context {S : Type}.
Variable predicate : S -> string -> S * completion jsval.

(** The listener: [if(predicate(msgraw) === false) { rej(msgraw); ... }]
    then [if(predicate(msgraw) === true) { res(msgraw); ... }]. *)
Definition on_message (msgraw : string) (w : S * awaitws_state)
  : S * awaitws_state :=
  if aborted (snd w) then w
  else
    let (s1, r1) := predicate (fst w) msgraw in
    match r1 with
    | Throw _ => (s1, snd w)
    | Normal (JBool false) =>
        (s1, abort {| promise := rej (Value (JStr msgraw)) (promise (snd w));
                      aborted := aborted (snd w) |})
    | Normal _ =>
        let (s2, r2) := predicate s1 msgraw in
        match r2 with
        | Normal (JBool true) =>
            (s2, abort {| promise := res msgraw (promise (snd w));
                          aborted := aborted (snd w) |})
        | _ => (s2, snd w)
        end
    end.
End Correlator.

(** The condition of the [if] in the executor of [battle]. *)
Definition refused (arg : jsval) : completion bool :=
  if negb (typeof arg =? "object") then Normal true
  else
    m <- get arg "message" ;;
    if falsy m then Normal true
    else
      c <- get arg "chalcode" ;;
      if falsy c then Normal true
      else
        s1 <- get arg "side1" ;;
        if falsy s1 then Normal true
        else
          t1 <- get s1 "team" ;;
          if falsy t1 then Normal true
          else
            u1 <- get s1 "usernames" ;;
            if falsy u1 then Normal true
            else
              c1 <- get s1 "confirmed" ;;
              if truthy c1 then Normal true
              else
                s2 <- get arg "side2" ;;
                if falsy s2 then Normal true
                else
                  t2 <- get s2 "team" ;;
                  if falsy t2 then Normal true
                  else
                    u2 <- get s2 "usernames" ;;
                    if falsy u2 then Normal true
                    else
                      c2 <- get s2 "confirmed" ;;
                      Normal (truthy c2).

(** In this version a string returned by the predicate settles nothing. *)
Lemma earlier_string_keeps_listening (why msgraw : string) :
  snd (on_message (fun (s : unit) (_ : string) => (s, Normal (JStr why)))
         msgraw (tt, awaitws))
  = awaitws.
Proof. reflexivity. Qed.

(** A settled call ignores every later message, here as well. *)
Lemma earlier_settled_ignores_messages
    (S : Type) (predicate : S -> string -> S * completion jsval)
    (msgraw : string) (w : S * awaitws_state) :
  aborted (snd w) = true -> on_message predicate msgraw w = w.
Proof. intros H. unfold on_message. now rewrite H. Qed.

(** An empty array is truthy: this version as well lets an empty candidate
    set through. *)
Lemma earlier_accepts_empty_usernames :
  refused (JObj [("message", JStr "35 Factory Format: idk");
                 ("chalcode", JStr "gen9nationaldex35pokes");
                 ("side1", side_of (JStr "packed") (JArr []));
                 ("side2", side_of (JStr "packed") (JArr [JStr "carol"]))])
  = Normal false.
Proof. reflexivity. Qed.

End Earlier.

(** * Further properties of the later version *)

(** ** [battle]: what is accepted *)

(** A side that passes the checks: an object with a string [team], an array
    [usernames] and a falsy [confirmed]. *)
Definition side_accepted (s : jsval) (sd : SideSpec) : Prop :=
  exists fields,
    s = JObj fields
    /\ lookup "team" fields = JStr (team sd)
    /\ lookup "usernames" fields = JArr (usernames sd)
    /\ lookup "confirmed" fields = confirmed sd
    /\ truthy (confirmed sd) = false.

(** An argument that passes the checks. *)
Definition accepted (arg : jsval) (b : BattleSpec) : Prop :=
  exists fields,
    arg = JObj fields
    /\ lookup "message" fields = JStr (message b)
    /\ lookup "chalcode" fields = JStr (chalcode b)
    /\ side_accepted (lookup "side1" fields) (side1 b)
    /\ side_accepted (lookup "side2" fields) (side2 b).

Lemma check_side_iff s sd : check_side s = Normal sd <-> side_accepted s sd.
Proof.
  split.
  - intros H. pose proof (check_side_ok s sd H) as (H1 & H2 & H3 & H4).
    destruct s as [| | | | | |fields|]; try discriminate.
    exists fields. unfold field in *. simpl in *. auto.
  - intros (fields & -> & H1 & H2 & H3 & H4).
    unfold check_side. simpl. rewrite H1. simpl. rewrite H2. simpl.
    rewrite H3, H4. now destruct sd.
Qed.

Lemma check_iff arg b : check arg = Normal b <-> accepted arg b.
Proof.
  split.
  - intros H. pose proof (check_ok arg b H) as [H1 H2].
    unfold check in H.
    destruct arg as [| | | | | |fields|]; try discriminate.
    simpl in H.
    destruct (lookup "message" fields) eqn:Hm; try discriminate.
    destruct (lookup "chalcode" fields) eqn:Hc; try discriminate.
    unfold field in H1, H2. simpl in H1, H2. simpl in H.
    rewrite H1, H2 in H. simpl in H. injection H as <-.
    exists fields. simpl. repeat split; auto; now apply check_side_iff.
  - intros (fields & -> & Hm & Hc & H1 & H2).
    apply check_side_iff in H1, H2.
    unfold check. simpl. rewrite Hm. simpl. rewrite Hc. simpl.
    rewrite H1. simpl. rewrite H2. simpl. now destruct b.
Qed.

(** X1.  [battle] goes past its checks exactly when the argument is an
    object with a string [message], a string [chalcode] and two sides that
    are objects with a string [team], an array [usernames] and a falsy
    [confirmed].  It then sends one lookup per candidate on the first
    socket, the first side before the second and each in the order of the
    array, sends nothing on the second socket, and returns a pending
    promise whose run waits for the players. *)
Theorem battle_accepts_exactly (wires0 : wires) (arg : jsval) :
  (forall w,
     snd (battle wires0 arg) = Normal w ->
     accepted arg (spec w)
     /\ fst (battle wires0 arg) = io w
     /\ sent0 (io w)
        = (sent0 wires0 ++ map userdetails (usernames (side1 (spec w)))
                        ++ map userdetails (usernames (side2 (spec w))))%list
     /\ sent1 (io w) = sent1 wires0
     /\ step w = AwaitPlayers /\ wait w = awaitws
     /\ outcome w = Pending /\ replay w = Pending)
  /\ (forall b, accepted arg b ->
        exists w, snd (battle wires0 arg) = Normal w /\ spec w = b).
Proof.
  unfold battle. split.
  - intros w. destruct (check arg) as [b|e] eqn:Hc; [|discriminate].
    simpl. intros [= <-]. simpl. repeat split. now apply check_iff.
  - intros b Hb. apply check_iff in Hb. rewrite Hb. simpl. eauto.
Qed.

(** ** [battle]: promises settle once *)

Lemma res_settled {A : Type} (a : A) p : p <> Pending -> res a p = p.
Proof. now destruct p. Qed.

Lemma rej_settled {A : Type} r (p : settlement A) : p <> Pending -> rej r p = p.
Proof. now destruct p. Qed.

Section SettledFacts.
Variable JSON_parse : string -> completion jsval.
Variables name0 name1 : jsval.

Local Abbreviation step_ := (battle_step JSON_parse name0 name1).
Local Abbreviation run_ := (battle_run JSON_parse name0 name1).

Lemma react_outcome w :
  outcome w <> Pending -> outcome (react name0 name1 w) = outcome w.
Proof.
  intros H. unfold react. destruct (promise (wait w)); [reflexivity| |].
  - destruct (step w); simpl; try reflexivity. now apply res_settled.
  - unfold then_rejected. destruct (step w); simpl; try reflexivity;
      now apply rej_settled.
Qed.

Lemma react_replay w :
  replay w <> Pending -> replay (react name0 name1 w) = replay w.
Proof.
  intros H. unfold react. destruct (promise (wait w)); [reflexivity| |].
  - destruct (step w); simpl; try reflexivity. now apply res_settled.
  - unfold then_rejected. destruct (step w); simpl; try reflexivity;
      now apply rej_settled.
Qed.

Lemma step_settled w e :
  (outcome w <> Pending -> outcome (step_ w e) = outcome w)
  /\ (replay w <> Pending -> replay (step_ w e) = replay w).
Proof.
  destruct e as [c data|k]; simpl.
  - destruct (listens_on (step w)) as [c'|]; [|auto].
    destruct (same_conn c c'); [|auto].
    split; intros H; [rewrite react_outcome | rewrite react_replay];
      auto.
  - destruct (call_index (step w)) as [k'|]; [|auto].
    destruct (k =? k')%nat; [|auto].
    split; intros H; [rewrite react_outcome | rewrite react_replay];
      auto.
Qed.

End SettledFacts.

(** ** [battle]: the steps of a run, one by one *)

Lemma strict_eq_eq a b : strict_eq a b = true -> a = b.
Proof.
  destruct a, b; simpl; try discriminate; try reflexivity; intros H.
  - f_equal. now apply Bool.eqb_prop.
  - f_equal. now apply Z.eqb_eq.
  - f_equal. now apply String.eqb_eq.
Qed.

Lemma listener_other r data :
  r <> Normal (JBool true) -> (forall why, r <> Normal (JStr why)) ->
  listener r data awaitws = awaitws.
Proof.
  intros H1 H2.
  destruct (listener_cases r data) as [H|[[H _]|[why [H _]]]];
    [exact H | contradiction | now destruct (H2 why)].
Qed.

(** Once the battle has started its promise is resolved with the URL of the
    room the run is in. *)
Definition started_ok (w : world) : Prop :=
  match step w with
  | AwaitEnd room | AwaitReplay room =>
      outcome w = Resolved (base_url ++ slice room 1 None)
  | _ => True
  end.

(** Past the first step both sides are confirmed. *)
Definition confirmed_ok (w : world) : Prop :=
  match step w with
  | AwaitPlayers | Over => True
  | _ => truthy (confirmed (side1 (spec w))) = true
         /\ truthy (confirmed (side2 (spec w))) = true
  end.

(** How the two promises stand in each step: the promise of [battle] is
    settled by the chain up to the room, the [replay] promise by the chain
    that starts once the room is known. *)
Definition promises_ok (w : world) : Prop :=
  match step w with
  | AwaitPlayers | AwaitChallenge | AwaitRoom =>
      outcome w = Pending /\ replay w = Pending
  | AwaitEnd room | AwaitReplay room =>
      outcome w = Resolved (base_url ++ slice room 1 None)
      /\ replay w = Pending
  | Over =>
      (exists r, outcome w = Rejected r /\ replay w = Pending)
      \/ (exists room,
            outcome w = Resolved (base_url ++ slice room 1 None)
            /\ replay w <> Pending)
  end.

Section StepFacts.
Variable JSON_parse : string -> completion jsval.
Variables name0 name1 : jsval.

Local Abbreviation players := (players_predicate JSON_parse).
Local Abbreviation pred_ := (predicate_of JSON_parse name0 name1).
Local Abbreviation step_ := (battle_step JSON_parse name0 name1).
Local Abbreviation run_ := (battle_run JSON_parse name0 name1).
Local Abbreviation react_ := (react name0 name1).

(** A message that reaches the live correlator of the step. *)
Lemma step_live w c data :
  wait w = awaitws -> listens_on (step w) = Some c ->
  step_ w (Inbound c data)
  = react_ {| spec := fst (pred_ (step w) (spec w) data); io := io w;
              step := step w;
              wait := listener (snd (pred_ (step w) (spec w) data))
                        data awaitws;
              outcome := outcome w; replay := replay w |}.
Proof.
  intros Hwait Hl. unfold battle_step. rewrite Hl.
  replace (same_conn c c) with true by (destruct c; reflexivity).
  unfold on_message. cbn [fst snd]. rewrite Hwait. cbn [aborted awaitws].
  now destruct (pred_ (step w) (spec w) data).
Qed.

(** A message on which the predicate returns neither [true] nor a string
    changes nothing but what the predicate wrote. *)
Lemma step_keeps_listening w c data :
  wait w = awaitws -> listens_on (step w) = Some c ->
  snd (pred_ (step w) (spec w) data) <> Normal (JBool true) ->
  (forall why, snd (pred_ (step w) (spec w) data) <> Normal (JStr why)) ->
  step_ w (Inbound c data)
  = {| spec := fst (pred_ (step w) (spec w) data); io := io w;
       step := step w; wait := awaitws;
       outcome := outcome w; replay := replay w |}.
Proof.
  intros Hwait Hl H1 H2. rewrite step_live by assumption.
  now rewrite listener_other.
Qed.

(** A message on which the predicate returns a string. *)
Lemma step_rejects w c data why :
  wait w = awaitws -> listens_on (step w) = Some c ->
  snd (pred_ (step w) (spec w) data) = Normal (JStr why) ->
  step_ w (Inbound c data)
  = then_rejected (Value (rejection_of why data))
      {| spec := fst (pred_ (step w) (spec w) data); io := io w;
         step := step w;
         wait := {| promise := Rejected (Value (rejection_of why data));
                    aborted := true |};
         outcome := outcome w; replay := replay w |}.
Proof.
  intros Hwait Hl Hr. rewrite step_live by assumption. now rewrite Hr.
Qed.

Lemma players_true b data :
  snd (players b data) = Normal (JBool true) ->
  truthy (confirmed (side1 (fst (players b data)))) = true
  /\ truthy (confirmed (side2 (fst (players b data)))) = true.
Proof.
  unfold players_predicate.
  destruct (negb _ || negb _); [discriminate|].
  destruct (at_ _ 3) as [d3|]; [|discriminate].
  destruct (JSON_parse _) as [details|e]; [|discriminate].
  destruct (falsy details); [discriminate|].
  match goal with
  | |- context [if falsy ?u then _ else _] => destruct (falsy u)
  end; [discriminate|].
  destruct (falsy (field details "rooms")); [discriminate|].
  match goal with
  | |- context [if falsy (confirmed (side1 ?b')) || _ then _ else _] =>
      destruct (falsy (confirmed (side1 b'))) eqn:H1;
      destruct (falsy (confirmed (side2 b'))) eqn:H2
  end; cbn [orb fst snd]; try discriminate.
  intros _. unfold falsy in H1, H2.
  split; now apply negb_false_iff.
Qed.

Lemma step_started_ok w e : phase_ok w -> started_ok w -> started_ok (step_ w e).
Proof.
  intros Hp Hs.
  assert (Hreact : forall sw,
            (promise (snd sw) = Pending -> snd sw = awaitws) ->
            started_ok (react_ (with_wait w sw))).
  { intros sw Hlive. unfold started_ok, react, with_wait in *. simpl.
    unfold phase_ok in Hp.
    destruct (promise (snd sw)) as [|msgraw|r] eqn:Hpr; simpl.
    - exact Hs.
    - destruct (step w) eqn:E; simpl; rewrite ?E; auto.
      destruct Hp as (_ & -> & _). reflexivity.
    - unfold then_rejected. simpl.
      destruct (step w) eqn:E; simpl; rewrite ?E; auto. }
  destruct e as [c data|k]; simpl.
  - destruct (listens_on (step w)) as [c'|] eqn:Hl; [|exact Hs].
    destruct (same_conn c c'); [|exact Hs].
    apply Hreact.
    assert (Hwait : wait w = awaitws).
    { unfold phase_ok in Hp. destruct (step w); try tauto. discriminate. }
    rewrite Hwait. apply on_message_live.
  - destruct (call_index (step w)) as [k'|]; [|exact Hs].
    destruct (k =? k')%nat; [|exact Hs].
    apply Hreact. simpl. destruct (promise (wait w)); discriminate.
Qed.

Lemma step_confirmed_ok w e :
  phase_ok w -> confirmed_ok w -> confirmed_ok (step_ w e).
Proof.
  intros Hp Hc. destruct e as [c data|k].
  - destruct (listens_on (step w)) as [c'|] eqn:Hl;
      [|simpl; now rewrite Hl].
    destruct (same_conn c c') eqn:Hcc; [|simpl; now rewrite Hl, Hcc].
    assert (c = c') by (destruct c, c'; try discriminate; reflexivity).
    subst c'.
    assert (Hwait : wait w = awaitws).
    { unfold phase_ok in Hp. destruct (step w); try tauto. discriminate. }
    rewrite step_live by assumption.
    destruct (listener_cases (snd (pred_ (step w) (spec w) data)) data)
      as [->|[[Hr ->]|[why [Hr ->]]]].
    + unfold react, confirmed_ok in *. simpl.
      destruct (step w) eqn:E; simpl; auto.
    + unfold react, confirmed_ok in *. simpl.
      destruct (step w) eqn:E; simpl; auto.
      now apply players_true.
    + unfold react, then_rejected, confirmed_ok. simpl.
      now destruct (step w).
  - simpl. destruct (call_index (step w)) as [k'|] eqn:Hk; [|exact Hc].
    destruct (k =? k')%nat; [|exact Hc].
    assert (Hwait : wait w = awaitws).
    { unfold phase_ok in Hp. destruct (step w); try tauto. discriminate. }
    unfold react, then_rejected, confirmed_ok. simpl. rewrite Hwait. simpl.
    now destruct (step w).
Qed.

(** What holds of every state of a run that [battle] has started. *)
Lemma reached wires0 arg io1 w0 es :
  battle wires0 arg = (io1, Normal w0) ->
  phase_ok (run_ w0 es) /\ started_ok (run_ w0 es)
  /\ confirmed_ok (run_ w0 es)
  /\ spec_within (spec w0) (spec (run_ w0 es)).
Proof.
  intros Hb.
  pose proof (battle_starts wires0 arg io1 w0 Hb)
    as (Hwithin & Hs0 & Hw0 & Ho0 & Hr0 & _).
  assert (H0 : phase_ok w0 /\ started_ok w0 /\ confirmed_ok w0).
  { unfold phase_ok, started_ok, confirmed_ok. rewrite Hs0. auto. }
  split; [|split; [|split]].
  4: now apply run_within.
  all: revert H0; generalize w0; clear;
    induction es as [|e es IH]; intros w (H1 & H2 & H3); simpl; auto;
    apply IH; auto using step_ok, step_started_ok, step_confirmed_ok.
Qed.

Lemma step_promises_ok w e : promises_ok w -> promises_ok (step_ w e).
Proof.
  intros H.
  assert (Hreact : forall sw, promises_ok (react_ (with_wait w sw))).
  { intros sw. unfold promises_ok, react, with_wait in *.
    cbn [wait promise step outcome replay].
    destruct (promise (snd sw)) as [|msgraw|r].
    - exact H.
    - destruct (step w) eqn:E; cbn [step outcome replay then_challenge
        then_accept then_started then_savereplay then_link];
        rewrite ?E; try exact H; destruct H as [Ho Hr].
      + rewrite Ho, Hr. split; reflexivity.
      + right. exists room. rewrite Hr. split; [exact Ho | discriminate].
    - unfold then_rejected. cbn [step].
      destruct (step w) eqn:E; cbn [step outcome replay]; rewrite ?E;
        try exact H; destruct H as [Ho Hr];
        try (left; exists r; rewrite Ho, Hr; split; reflexivity);
        right; exists room; rewrite Hr; (split; [exact Ho | discriminate]). }
  destruct e as [c data|k]; simpl.
  - destruct (listens_on (step w)) as [c'|]; [|exact H].
    destruct (same_conn c c'); [|exact H]. apply Hreact.
  - destruct (call_index (step w)) as [k'|]; [|exact H].
    destruct (k =? k')%nat; [|exact H]. apply Hreact.
Qed.

Lemma run_promises_ok es w : promises_ok w -> promises_ok (run_ w es).
Proof.
  revert w. induction es as [|e es IH]; intros w H; simpl; [exact H|].
  apply IH. now apply step_promises_ok.
Qed.

(** X2.  The [replay] promise is settled only after the promise of
    [battle] has been resolved.  In a run of an accepted battle, while the
    promise of [battle] is pending the run waits in one of the three steps
    before the room and [replay] is pending; when it is rejected the run is
    over and [replay] is pending, and stays so whatever follows; when it is
    resolved, its value is the address of a room, and [replay] is pending
    exactly while the run waits for the end of the battle in that room or
    for the upload notice. *)
Theorem replay_settles_only_after_battle_resolved
    (wires0 io1 : wires) (arg : jsval) (w0 : world)
    (es : list battle_event) :
  battle wires0 arg = (io1, Normal w0) ->
  let w := run_ w0 es in
  match outcome w with
  | Pending =>
      replay w = Pending
      /\ (step w = AwaitPlayers \/ step w = AwaitChallenge
          \/ step w = AwaitRoom)
  | Rejected _ =>
      step w = Over
      /\ forall later, replay (run_ w later) = Pending
  | Resolved url =>
      exists room,
        url = (base_url ++ slice room 1 None)%string
        /\ (replay w = Pending
            /\ (step w = AwaitEnd room \/ step w = AwaitReplay room)
            \/ replay w <> Pending /\ step w = Over)
  end.
Proof.
  intros Hb w.
  pose proof (battle_starts wires0 arg io1 w0 Hb)
    as (_ & Hs0 & _ & Ho0 & Hr0 & _).
  assert (H : promises_ok w).
  { apply run_promises_ok. unfold promises_ok. rewrite Hs0. now split. }
  unfold promises_ok in H.
  destruct (step w) eqn:E.
  1-3: destruct H as [-> Hr]; split; auto.
  1-2: destruct H as [-> Hr]; exists room; split; [reflexivity|]; left;
       split; auto.
  destruct H as [(r & -> & Hr)|(room & -> & Hr)].
  - split; [reflexivity|]. intros later.
    now rewrite (run_over JSON_parse name0 name1 later w E).
  - exists room. split; [reflexivity|]. right. now split.
Qed.
End StepFacts.

Lemma find_absent u l :
  ~ In (JStr u) l -> find_ (fun x => strict_eq x (JStr u)) l = None.
Proof.
  induction l as [|y l IH]; simpl; [reflexivity|]. intros H.
  destruct (strict_eq y (JStr u)) eqn:Hy.
  - apply strict_eq_eq in Hy. subst y. exfalso. apply H. now left.
  - apply IH. intros Hin. apply H. now right.
Qed.

Lemma world_eta w :
  {| spec := spec w; io := io w; step := step w; wait := wait w;
     outcome := outcome w; replay := replay w |} = w.
Proof. now destruct w. Qed.

Definition utm (team_ : string) : string := msgToRaw ("|/utm " ++ team_).

Section RunFacts.
Variable JSON_parse : string -> completion jsval.
Variables name0 name1 : jsval.

Local Abbreviation players := (players_predicate JSON_parse).
Local Abbreviation pred_ := (predicate_of JSON_parse name0 name1).
Local Abbreviation step_ := (battle_step JSON_parse name0 name1).
Local Abbreviation run_ := (battle_run JSON_parse name0 name1).
Local Abbreviation reply_ := (lookup_reply JSON_parse).

(** X3.  The timer of the step a run is waiting in ends the run without
    sending anything: in the three steps before the battle has started it
    rejects the promise of [battle] with "Timed out (awaitws)."; in the two
    steps after, it rejects the [replay] promise and leaves the promise of
    [battle] resolved with the room URL.  Nothing that follows changes the
    run any more. *)
Theorem step_timeout_ends_run
    (wires0 io1 : wires) (arg : jsval) (w0 : world)
    (before later : list battle_event) (k : nat) :
  battle wires0 arg = (io1, Normal w0) ->
  call_index (step (run_ w0 before)) = Some k ->
  let w := run_ w0 before in
  let w' := step_ w (TimerOf k) in
  step w' = Over /\ io w' = io w /\ spec w' = spec w
  /\ match step w with
     | AwaitEnd room | AwaitReplay room =>
         outcome w' = Resolved ("https://play.pokemonshowdown.com/"
                                ++ slice room 1 None)
         /\ replay w' = Rejected (Value (JStr "Timed out (awaitws)."))
     | _ =>
         outcome w' = Rejected (Value (JStr "Timed out (awaitws)."))
         /\ replay w' = Pending
     end
  /\ run_ w' later = w'.
Proof.
  intros Hb Hk w w'.
  destruct (reached JSON_parse name0 name1 wires0 arg io1 w0 before Hb)
    as (Hp & Hs & _ & _).
  fold w in Hp, Hs, Hk.
  assert (Hw' : w' = then_rejected timed_out
                  {| spec := spec w; io := io w; step := step w;
                     wait := {| promise := Rejected timed_out;
                                aborted := true |};
                     outcome := outcome w; replay := replay w |}).
  { unfold w'. simpl. rewrite Hk, Nat.eqb_refl.
    unfold phase_ok in Hp. unfold react, with_wait, on_timeout. simpl.
    destruct (step w); try discriminate;
      destruct Hp as (-> & _); reflexivity. }
  assert (Hover : step w' = Over).
  { rewrite Hw'. unfold then_rejected. simpl.
    destruct (step w); try reflexivity; discriminate. }
  unfold phase_ok in Hp. unfold started_ok in Hs.
  repeat split.
  - exact Hover.
  - rewrite Hw'. unfold then_rejected. simpl. now destruct (step w).
  - rewrite Hw'. unfold then_rejected. simpl. now destruct (step w).
  - rewrite Hw'. unfold then_rejected. simpl.
    destruct (step w); try discriminate; simpl;
      try (destruct Hp as (_ & -> & ->); split; reflexivity);
      destruct Hp as (_ & ->); split; auto.
  - now apply run_over.
Qed.

(** A reply on which the predicate of the first step returns a string. *)
Lemma players_reason_rejects wires0 io1 arg w0 before later msgraw why :
  battle wires0 arg = (io1, Normal w0) ->
  step (run_ w0 before) = AwaitPlayers ->
  players (spec (run_ w0 before)) msgraw
  = (spec (run_ w0 before), Normal (JStr why)) ->
  let w := run_ w0 (before ++ Inbound A msgraw :: later) in
  outcome w = Rejected (Value (rejection_of why msgraw))
  /\ step w = Over /\ io w = io1 /\ replay w = Pending.
Proof.
  intros Hb Hstep Hpred w.
  destruct (reached JSON_parse name0 name1 wires0 arg io1 w0 before Hb)
    as (Hp & _).
  pose proof (battle_starts wires0 arg io1 w0 Hb) as (_ & _ & _ & _ & _ & Hio0 & _).
  pose proof (run_io_players JSON_parse name0 name1 before w0 Hstep) as Hio.
  set (w1 := run_ w0 before) in *.
  unfold phase_ok in Hp. rewrite Hstep in Hp. destruct Hp as (Hwait & Hout & Hrep).
  assert (Hnext : step_ w1 (Inbound A msgraw)
                  = {| spec := spec w1; io := io w1; step := Over;
                       wait := {| promise := Rejected (Value
                                    (rejection_of why msgraw));
                                  aborted := true |};
                       outcome := Rejected (Value (rejection_of why msgraw));
                       replay := replay w1 |}).
  { rewrite (step_rejects JSON_parse name0 name1 w1 A msgraw why Hwait);
      rewrite Hstep; simpl; rewrite ?Hpred; try reflexivity.
    unfold then_rejected. simpl. now rewrite Hout. }
  assert (Hw : w = step_ w1 (Inbound A msgraw)).
  { unfold w, battle_run. rewrite fold_left_app.
    change (run_ (step_ w1 (Inbound A msgraw)) later
            = step_ w1 (Inbound A msgraw)).
    apply run_over. now rewrite Hnext. }
  rewrite Hw, Hnext. simpl. repeat split; congruence.
Qed.

(** X4.  In a run that waits for the players, a lookup reply whose payload
    parses to a falsy value ([null], [false], [0] or the empty string)
    rejects the promise of [battle] with the reason "Unregistered username
    in queue."; the run is over and has sent the lookups only. *)
Theorem unregistered_reply_rejects
    (wires0 io1 : wires) (arg : jsval) (w0 : world)
    (before later : list battle_event) (msgraw : string) (details : jsval) :
  battle wires0 arg = (io1, Normal w0) ->
  step (run_ w0 before) = AwaitPlayers ->
  reply_ msgraw details ->
  falsy details = true ->
  let w := run_ w0 (before ++ Inbound A msgraw :: later) in
  outcome w
  = Rejected (Value (rejection_of "Unregistered username in queue." msgraw))
  /\ step w = Over /\ io w = io1 /\ replay w = Pending.
Proof.
  intros Hb Hstep (H1 & H2 & d3 & H3 & Hparse) Hfalsy.
  apply (players_reason_rejects wires0 io1 arg w0 before later msgraw
           "Unregistered username in queue." Hb Hstep).
  unfold players_predicate. now rewrite H1, H2, H3, Hparse, Hfalsy.
Qed.

(** X5.  While a run waits for the players it reacts to nothing but lookup
    replies about its candidates: a message on the second socket, a frame
    on the first socket that is not a lookup reply, and a lookup reply
    whose name is no candidate of either side each leave the run exactly as
    it was. *)
Theorem players_step_ignores_the_rest
    (wires0 io1 : wires) (arg : jsval) (w0 : world)
    (before : list battle_event) (msgraw : string) :
  battle wires0 arg = (io1, Normal w0) ->
  step (run_ w0 before) = AwaitPlayers ->
  let w := run_ w0 before in
  let data := split "|" (slice msgraw 3 (Some (-2)%Z)) in
  step_ w (Inbound B msgraw) = w
  /\ (at_ data 1 <> Some "queryresponse" \/ at_ data 2 <> Some "userdetails" ->
      step_ w (Inbound A msgraw) = w)
  /\ (forall details,
        reply_ msgraw details -> truthy details = true ->
        (forall x, In x (usernames (side1 (spec w0))) ->
                   strict_eq x (field details "name") = false) ->
        (forall x, In x (usernames (side2 (spec w0))) ->
                   strict_eq x (field details "name") = false) ->
        step_ w (Inbound A msgraw) = w).
Proof.
  intros Hb Hstep w data.
  destruct (reached JSON_parse name0 name1 wires0 arg io1 w0 before Hb)
    as (Hp & _ & _ & (_ & _ & (_ & U1 & _) & (_ & U2 & _))).
  fold w in Hp, Hstep, U1, U2.
  unfold phase_ok in Hp. rewrite Hstep in Hp. destruct Hp as (Hwait & _).
  assert (Hkeep : players (spec w) msgraw = (spec w, Normal JUndefined) ->
                  step_ w (Inbound A msgraw) = w).
  { intros Hpred.
    rewrite (step_keeps_listening JSON_parse name0 name1 w A msgraw Hwait);
      rewrite Hstep; simpl; rewrite ?Hpred; try discriminate;
      try reflexivity.
    simpl. rewrite <- Hwait, <- Hstep. apply world_eta. }
  repeat split.
  - simpl. now rewrite Hstep.
  - intros Hnot. apply Hkeep. unfold players_predicate. fold data.
    destruct Hnot as [Hnot|Hnot].
    + destruct (at_ data 1) as [x|]; simpl; [|reflexivity].
      destruct (String.eqb_spec x "queryresponse"); [congruence|reflexivity].
    + destruct (negb (is_ (at_ data 1) "queryresponse")); [reflexivity|].
      destruct (at_ data 2) as [x|]; simpl; [|reflexivity].
      destruct (String.eqb_spec x "userdetails"); [congruence|reflexivity].
  - intros details (H1 & H2 & d3 & H3 & Hparse) Ht N1 N2.
    apply Hkeep. unfold players_predicate.
    rewrite H1, H2, H3, Hparse. simpl. unfold falsy at 1. rewrite Ht. simpl.
    assert (F : forall l,
              (forall x, In x l -> strict_eq x (field details "name") = false)
              -> find_ (fun x => strict_eq x (field details "name")) l = None).
    { induction l as [|y l IH]; simpl; [reflexivity|]. intros H.
      rewrite (H y (or_introl eq_refl)). apply IH. intros x Hx.
      apply H. now right. }
    rewrite U1, U2, (F _ N1), (F _ N2). reflexivity.
Qed.
End RunFacts.

(** The side a reply about the candidate [u] is bound to: the first side
    when [u] is one of its candidates, the second side otherwise. *)
Definition binds (which : side_id) (u : string) (b : BattleSpec) : Prop :=
  match which with
  | Side1 => In (JStr u) (usernames (side1 b))
  | Side2 => ~ In (JStr u) (usernames (side1 b))
             /\ In (JStr u) (usernames (side2 b))
  end.

Definition other_side (which : side_id) (b : BattleSpec) : SideSpec :=
  match which with Side1 => side2 b | Side2 => side1 b end.

Lemma find_some {A : Type} (p : A -> bool) l x :
  In x l -> p x = true -> exists y, find_ p l = Some y /\ p y = true.
Proof.
  induction l as [|z l IH]; simpl; [tauto|]. intros [->|Hin] Hx.
  - rewrite Hx. eauto.
  - destruct (p z) eqn:Hz; eauto.
Qed.

(** A frame whose last line says who won. *)
Definition ends_with_win (msgraw : string) : Prop :=
  exists line,
    pop (split "\n" (slice msgraw 3 (Some (-2)%Z))) = Some line
    /\ at_ (split "|" line) 1 = Some "win".

(** A private message from [n0] to [n1] that carries a challenge; each name
    follows the one character of its rank. *)
Definition challenge_pm (msgraw n0 n1 : string) : Prop :=
  exists d0 r0 r1 d4 more,
    split "|" (slice msgraw 3 (Some (-2)%Z))
    = d0 :: "pm" :: String r0 n0 :: String r1 n1 :: d4 :: more
    /\ startsWith d4 "/challenge " = true.

Section RunFacts2.
Variable JSON_parse : string -> completion jsval.
Variables name0 name1 : jsval.

Local Abbreviation players := (players_predicate JSON_parse).
Local Abbreviation pred_ := (predicate_of JSON_parse name0 name1).
Local Abbreviation step_ := (battle_step JSON_parse name0 name1).
Local Abbreviation run_ := (battle_run JSON_parse name0 name1).
Local Abbreviation reply_ := (lookup_reply JSON_parse).
Local Abbreviation reached_ := (reached JSON_parse name0 name1).

Lemma players_online b msgraw fields u which :
  reply_ msgraw (JObj fields) ->
  lookup "name" fields = JStr u -> u <> "" ->
  truthy (lookup "rooms" fields) = true ->
  binds which u b ->
  players b msgraw
  = (confirm which (JStr u) b,
     if falsy (confirmed (side1 (confirm which (JStr u) b)))
        || falsy (confirmed (side2 (confirm which (JStr u) b)))
     then Normal JUndefined else Normal (JBool true)).
Proof.
  intros (H1 & H2 & d3 & H3 & Hparse) Hname Hu Hrooms Hbinds.
  unfold players_predicate. rewrite H1, H2, H3, Hparse. simpl.
  unfold field. simpl. rewrite Hname. unfold falsy at 2. rewrite Hrooms.
  assert (Ht : truthy (JStr u) = true).
  { simpl. destruct (String.eqb_spec u ""); [contradiction | reflexivity]. }
  destruct which; simpl in Hbinds.
  - rewrite (find_candidate _ _ Hbinds). simpl found. rewrite Ht.
    unfold falsy at 1. rewrite Ht. cbn [negb].
    match goal with |- (if ?c then _ else _) = _ => destruct c end;
      reflexivity.
  - destruct Hbinds as [Hno Hin].
    rewrite (find_absent _ _ Hno), (find_candidate _ _ Hin). simpl found.
    simpl (truthy JUndefined). cbv iota.
    unfold falsy at 1. rewrite Ht. cbn [negb].
    match goal with |- (if ?c then _ else _) = _ => destruct c end;
      reflexivity.
Qed.

(** X6.  In a run that waits for the players, an online reply about a
    candidate binds it to its side (the first side if it is a candidate
    there, else the second).  If the other side is still unconfirmed the
    run keeps waiting and sends nothing.  If the other side is confirmed
    the step is complete: the first socket is sent the team of the first
    side and then the challenge naming [bots[1]] and the chalcode, the
    second socket the team of the second side, and the run waits for the
    challenge with the promise of [battle] still pending. *)
Theorem online_reply_confirms
    (wires0 io1 : wires) (arg : jsval) (w0 : world)
    (before : list battle_event) (msgraw : string)
    (fields : list (string * jsval)) (u : string) (which : side_id) :
  battle wires0 arg = (io1, Normal w0) ->
  step (run_ w0 before) = AwaitPlayers ->
  reply_ msgraw (JObj fields) ->
  lookup "name" fields = JStr u -> u <> "" ->
  truthy (lookup "rooms" fields) = true ->
  binds which u (spec w0) ->
  let w := run_ w0 before in
  let w' := step_ w (Inbound A msgraw) in
  spec w' = confirm which (JStr u) (spec w)
  /\ (truthy (confirmed (other_side which (spec w))) = false ->
      step w' = AwaitPlayers /\ io w' = io w /\ outcome w' = Pending)
  /\ (truthy (confirmed (other_side which (spec w))) = true ->
      step w' = AwaitChallenge
      /\ sent0 (io w')
         = (sent0 (io w)
            ++ [utm (team (side1 (spec w0)));
                msgToRaw ("|/challenge " ++ ToString name1 ++ ", "
                          ++ chalcode (spec w0))])%list
      /\ sent1 (io w') = (sent1 (io w) ++ [utm (team (side2 (spec w0)))])%list
      /\ outcome w' = Pending /\ wait w' = awaitws).
Proof.
  intros Hb Hstep Hreply Hname Hu Hrooms Hbinds w w'.
  destruct (reached_ wires0 arg io1 w0 before Hb)
    as (Hp & _ & _ & (Hm & Hcc & (T1 & U1 & _) & (T2 & U2 & _))).
  fold w in Hp, Hstep, Hm, Hcc, T1, U1, T2, U2.
  unfold phase_ok in Hp. rewrite Hstep in Hp.
  destruct Hp as (Hwait & Hout & Hrep).
  assert (Hbinds' : binds which u (spec w)).
  { destruct which; simpl in *; now rewrite U1, ?U2. }
  pose proof (players_online (spec w) msgraw fields u which
                Hreply Hname Hu Hrooms Hbinds') as Hpred.
  assert (Ht : truthy (JStr u) = true).
  { simpl. destruct (String.eqb_spec u ""); [contradiction | reflexivity]. }
  assert (Hlive : step_ w (Inbound A msgraw)
                  = react name0 name1
                      {| spec := confirm which (JStr u) (spec w);
                         io := io w; step := AwaitPlayers;
                         wait := listener (snd (players (spec w) msgraw))
                                   msgraw awaitws;
                         outcome := outcome w; replay := replay w |}).
  { rewrite (step_live JSON_parse name0 name1 w A msgraw Hwait);
      rewrite Hstep; [|reflexivity]. simpl. now rewrite Hpred. }
  assert (Hother : falsy (confirmed (side1 (confirm which (JStr u) (spec w))))
                   || falsy (confirmed (side2 (confirm which (JStr u) (spec w))))
                   = falsy (confirmed (other_side which (spec w)))).
  { unfold falsy.
    destruct which;
      cbn [confirm side1 side2 set_confirmed confirmed other_side];
      rewrite Ht; cbn [negb orb]; [reflexivity | apply orb_false_r]. }
  rewrite Hpred, Hother in Hlive. simpl snd in Hlive.
  split; [|split].
  - unfold w'. rewrite Hlive. apply spec_react.
  - intros Hf. unfold w'. rewrite Hlive. unfold falsy. rewrite Hf. simpl.
    unfold react. simpl. auto.
  - intros Hf. unfold w'. rewrite Hlive. unfold falsy. rewrite Hf. simpl.
    unfold react, then_challenge. simpl.
    assert (Hteams : team (side1 (confirm which (JStr u) (spec w)))
                     = team (side1 (spec w0))
                     /\ team (side2 (confirm which (JStr u) (spec w)))
                        = team (side2 (spec w0))
                     /\ chalcode (confirm which (JStr u) (spec w))
                        = chalcode (spec w0)).
    { destruct which; simpl; auto. }
    destruct Hteams as (-> & -> & ->).
    repeat split; try assumption.
    now rewrite <- app_assoc.
Qed.

Local Ltac done_ :=
  split; [|split]; [reflexivity | reflexivity | simpl; discriminate].

Lemma players_shadowed b data :
  incl (usernames (side2 b)) (usernames (side1 b)) ->
  truthy (confirmed (side2 b)) = false ->
  side2 (fst (players b data)) = side2 b
  /\ usernames (side1 (fst (players b data))) = usernames (side1 b)
  /\ snd (players b data) <> Normal (JBool true).
Proof.
  intros Hincl Hc2. unfold players_predicate.
  destruct (negb _ || negb _); [done_|].
  destruct (at_ _ 3) as [d3|]; [|done_].
  destruct (JSON_parse _) as [details|e]; [|done_].
  destruct (falsy details); [done_|].
  set (same := fun x => strict_eq x (field details "name")).
  destruct (truthy (found (find_ same (usernames (side1 b))) JUndefined))
    eqn:T1.
  - assert (F1 : falsy (found (find_ same (usernames (side1 b))) JUndefined)
                 = false) by (unfold falsy; now rewrite T1).
    assert (F2 : falsy (confirmed (side2 b)) = true)
      by (unfold falsy; now rewrite Hc2).
    rewrite F1.
    destruct (falsy (field details "rooms")); [done_|].
    cbn [confirm side1 side2 set_confirmed confirmed].
    rewrite F2, orb_true_r. done_.
  - destruct (find_ same (usernames (side2 b))) as [x2|] eqn:F2; simpl.
    + destruct (falsy x2) eqn:T2; [done_|].
      exfalso. apply find_in in F2 as [Hin Hsame].
      destruct (find_some same _ x2 (Hincl _ Hin) Hsame) as (y & Fy & Hy).
      rewrite Fy in T1. simpl in T1.
      unfold same in Hy, Hsame.
      apply strict_eq_eq in Hy, Hsame. subst y.
      unfold falsy in T2. rewrite Hsame, T1 in T2. discriminate.
    + done_.
Qed.

(** X7.  When every candidate of the second side is also a candidate of
    the first (one user entered on both sides, say), each online reply is
    bound to the first side, the second side is never confirmed, and the
    run never gets past the step that waits for the players: it sends no
    team and no challenge, its promise is never resolved, and its only
    ways out are a rejection by a reply and the timeout. *)
Theorem shadowed_side_is_never_confirmed
    (wires0 io1 : wires) (arg : jsval) (w0 : world) (es : list battle_event) :
  battle wires0 arg = (io1, Normal w0) ->
  incl (usernames (side2 (spec w0))) (usernames (side1 (spec w0))) ->
  let w := run_ w0 es in
  confirmed (side2 (spec w)) = confirmed (side2 (spec w0))
  /\ (step w = AwaitPlayers \/ step w = Over)
  /\ io w = io1
  /\ (forall room_url, outcome w <> Resolved room_url).
Proof.
  intros Hb Hincl w.
  pose proof (battle_starts wires0 arg io1 w0 Hb)
    as (_ & Hs0 & Hw0 & Ho0 & Hr0 & Hio0 & _).
  assert (Hf0 : truthy (confirmed (side2 (spec w0))) = false).
  { unfold battle in Hb. destruct (check arg) as [b|] eqn:Hc;
      [|discriminate].
    injection Hb as _ <-. simpl.
    apply check_ok in Hc as [_ H2]. now apply check_side_ok in H2. }
  set (K := fun v : world =>
         side2 (spec v) = side2 (spec w0)
         /\ usernames (side1 (spec v)) = usernames (side1 (spec w0))
         /\ io v = io1
         /\ ((step v = AwaitPlayers /\ wait v = awaitws /\ outcome v = Pending)
             \/ (step v = Over /\ forall url, outcome v <> Resolved url))).
  assert (Hstep : forall v e, K v -> K (step_ v e)).
  { intros v e (K1 & K2 & K3 & [(St & W & O)|(St & O)]).
    2:{ rewrite step_over by exact St. unfold K. auto 6. }
    assert (Hrej : forall r b' st,
              side2 b' = side2 (spec w0) ->
              usernames (side1 b') = usernames (side1 (spec w0)) ->
              K (then_rejected r
                   {| spec := b'; io := io v; step := AwaitPlayers;
                      wait := st;
                      outcome := outcome v; replay := replay v |})).
    { intros r b' st B1 B2. unfold then_rejected. simpl.
      unfold K. simpl. repeat split; auto. right. split; [reflexivity|].
      rewrite O. discriminate. }
    destruct e as [c data|k].
    - destruct c.
      2:{ simpl. rewrite St. simpl. unfold K. auto 8. }
      rewrite (step_live JSON_parse name0 name1 v A data W);
        rewrite St; [|reflexivity]. simpl predicate_of.
      destruct (players_shadowed (spec v) data) as (P1 & P2 & P3).
      { now rewrite K1, K2. }
      { now rewrite K1. }
      destruct (listener_cases (snd (players (spec v) data)) data)
        as [->|[[Hr _]|[why [_ ->]]]].
      + unfold react. simpl. unfold K. simpl.
        repeat split; try congruence. left. auto.
      + contradiction.
      + unfold react. cbn [wait promise]. apply Hrej; congruence.
    - simpl. rewrite St. simpl. destruct (k =? 0)%nat; [|unfold K; auto 8].
      unfold react, with_wait, on_timeout. cbn [fst snd wait promise abort].
      rewrite W. cbn [promise awaitws rej].
      rewrite St. apply Hrej; assumption. }
  assert (HK : K w).
  { assert (K0 : K w0) by (unfold K; auto 8).
    assert (Hrun : forall l v, K v -> K (run_ v l)).
    { induction l as [|e l IH]; intros v Kv; simpl; auto. }
    apply Hrun, K0. }
  destruct HK as (K1 & K2 & K3 & Hcase).
  repeat split.
  - now rewrite K1.
  - destruct Hcase as [(St & _)|(St & _)]; auto.
  - exact K3.
  - destruct Hcase as [(_ & _ & ->)|(_ & O)]; [discriminate | exact O].
Qed.
End RunFacts2.

(** A frame whose second line, of the lines separated by backslash and
    [n], announces a battle room. *)
Definition announces_battle (msgraw : string) : Prop :=
  exists data_,
    at_ (split "\n" (slice msgraw 3 (Some (-2)%Z))) 1 = Some data_
    /\ at_ (split "|" data_) 1 = Some "init"
    /\ at_ (split "|" data_) 2 = Some "battle".

Lemma is_some (s : string) : is_ (Some s) s = true.
Proof. simpl. apply String.eqb_refl. Qed.

Lemma is_not o (s : string) : o <> Some s -> is_ o s = false.
Proof.
  destruct o as [x|]; simpl; [|reflexivity]. intros H.
  destruct (String.eqb_spec x s); [congruence | reflexivity].
Qed.

Lemma room_predicate_announced b msgraw :
  announces_battle msgraw -> room_predicate b msgraw = (b, Normal (JBool true)).
Proof.
  intros (data_ & H1 & H2 & H3). unfold room_predicate. rewrite H1.
  destruct data_ as [|c rest]; [discriminate|].
  now rewrite H2, H3, !is_some.
Qed.

(** ** The pattern for the upload notice: when it compiles

    A text none of whose characters has a meaning of its own in a pattern:
    in a pattern it stands for itself. *)
Definition pattern_text (s : string) : bool :=
  forallb (fun c => negb (RegExp.syntax_char c)) (list_ascii_of_string s).

Ltac each_char c :=
  destruct c as [[] [] [] [] [] [] [] []].

(** The next character is no quantifier. *)
Definition no_quantifier (t : string) : bool :=
  match t with
  | String c _ => negb (existsb (Ascii.eqb c) (list_ascii_of_string "+*?{"))
  | EmptyString => true
  end.

(** The characters of [s] one after the other, then [r]. *)
Fixpoint chars_then (s : string) (r : RegExp.regex) : RegExp.regex :=
  match s with
  | EmptyString => r
  | String c t => RegExp.Seq (RegExp.Char c) (chars_then t r)
  end.

Lemma quantifier_none atom n t :
  no_quantifier t = true -> RegExp.quantifier atom n t = Some (atom, n, t).
Proof.
  destruct t as [|c t]; [reflexivity|].
  each_char c; intros H; try discriminate H; reflexivity.
Qed.

Lemma parse_term_char f n c t :
  RegExp.syntax_char c = false -> no_quantifier t = true ->
  RegExp.parse_term (S f) n (String c t) = Some (RegExp.Char c, n, t).
Proof.
  intros Hc Ht.
  each_char c; try discriminate Hc; apply quantifier_none; exact Ht.
Qed.

Lemma parse_alternative_cons f n c t :
  RegExp.syntax_char c = false ->
  RegExp.parse_alternative (S f) n (String c t)
  = match RegExp.parse_term f n (String c t) with
    | Some (a, n1, s1) =>
        match RegExp.parse_alternative f n1 s1 with
        | Some (b, n2, s2) => Some (RegExp.Seq a b, n2, s2)
        | None => None
        end
    | None => None
    end.
Proof.
  intros Hc. each_char c; try discriminate Hc; reflexivity.
Qed.

Lemma plain_cons c t :
  pattern_text (String c t) = true ->
  RegExp.syntax_char c = false /\ pattern_text t = true.
Proof.
  unfold pattern_text. cbn [list_ascii_of_string forallb].
  intros H. apply andb_true_iff in H as [Hc Ht].
  split; [now apply negb_true_iff|exact Ht].
Qed.

Lemma plain_no_quantifier c :
  RegExp.syntax_char c = false ->
  negb (existsb (Ascii.eqb c) (list_ascii_of_string "+*?{")) = true.
Proof. each_char c; intros H; try discriminate H; reflexivity. Qed.

Lemma no_quantifier_app t rest :
  pattern_text t = true -> no_quantifier rest = true ->
  no_quantifier (t ++ rest) = true.
Proof.
  destruct t as [|c t]; intros Ht Hr; [exact Hr|].
  apply plain_cons in Ht as [Hc _]. now apply plain_no_quantifier.
Qed.

Lemma parse_alternative_literal s :
  forall rest F n,
    pattern_text s = true -> no_quantifier rest = true -> String.length s < F ->
    RegExp.parse_alternative F n (s ++ rest)
    = match RegExp.parse_alternative (F - String.length s) n rest with
      | Some (b, n2, s2) => Some (chars_then s b, n2, s2)
      | None => None
      end.
Proof.
  induction s as [|c t IH]; intros rest F n Hs Hr HF.
  - cbn [append String.length chars_then]. rewrite Nat.sub_0_r.
    now destruct (RegExp.parse_alternative F n rest) as [[[b n2] s2]|].
  - apply plain_cons in Hs as [Hc Ht].
    destruct F as [|[|f]]; cbn [String.length] in HF; try lia.
    cbn [append]. rewrite parse_alternative_cons by exact Hc.
    rewrite parse_term_char
      by (try exact Hc; now apply no_quantifier_app).
    rewrite IH by (assumption || lia).
    cbn [String.length Nat.sub chars_then].
    now destruct (RegExp.parse_alternative _ n rest) as [[[b n2] s2]|].
Qed.

Lemma parse_alternative_bar F n t :
  0 < F ->
  RegExp.parse_alternative F n (String "|" t)
  = Some (RegExp.Empty, n, String "|" t).
Proof. destruct F; [lia | reflexivity]. Qed.

Lemma parse_alternative_text s F n :
  pattern_text s = true -> String.length s < F ->
  RegExp.parse_alternative F n s = Some (chars_then s RegExp.Empty, n, "").
Proof.
  intros Hs HF.
  rewrite <- (append_nil_r s) at 1.
  rewrite parse_alternative_literal by (assumption || reflexivity).
  destruct (F - String.length s) as [|f] eqn:E; [lia | reflexivity].
Qed.

Lemma parse_alternative_any_lazy F n t :
  1 < F ->
  RegExp.parse_alternative F n (String "." (String "+" (String "?" t)))
  = match RegExp.parse_alternative (F - 1) n t with
    | Some (b, n2, s2) =>
        Some (RegExp.Seq (RegExp.PlusLazy RegExp.Any) b, n2, s2)
    | None => None
    end.
Proof.
  destruct F as [|[|f]]; try lia. intros _.
  cbn [Nat.sub]. rewrite ?Nat.sub_0_r. reflexivity.
Qed.

Lemma parse_disjunction_pos F n s :
  0 < F ->
  RegExp.parse_disjunction F n s
  = match RegExp.parse_alternative (F - 1) n s with
    | Some (a, n1, String "|" t) =>
        match RegExp.parse_disjunction (F - 1) n1 t with
        | Some (d, n2, t') => Some (RegExp.Alt a d, n2, t')
        | None => None
        end
    | other => other
    end.
Proof.
  destruct F as [|f]; [lia|]. intros _. cbn [Nat.sub].
  rewrite ?Nat.sub_0_r. reflexivity.
Qed.

Lemma uploaded_pattern_parses id F :
  pattern_text id = true -> 50 + String.length id < F ->
  exists r,
    RegExp.parse_disjunction F 0
      ("^|popup||html|<p>Your replay has been uploaded!.+?" ++ id)
    = Some (r, 0, "").
Proof.
  intros Hp HF.
  change ("^|popup||html|<p>Your replay has been uploaded!.+?" ++ id)
    with (String "^" (String "|"
            ("popup" ++ String "|" (String "|"
               ("html" ++ String "|"
                  ("<p>Your replay has been uploaded!"
                   ++ String "." (String "+" (String "?" id)))))))).
  rewrite parse_disjunction_pos by lia.
  rewrite parse_alternative_caret.
  destruct (F - 1) as [|[|f]] eqn:E1; try lia.
  cbv beta iota.
  rewrite parse_disjunction_pos by lia.
  rewrite parse_alternative_literal
    by (try reflexivity; cbn [String.length]; lia).
  rewrite parse_alternative_bar by (cbn [String.length]; lia).
  cbv beta iota.
  rewrite parse_disjunction_pos by lia.
  rewrite parse_alternative_bar by lia.
  cbv beta iota.
  rewrite parse_disjunction_pos by lia.
  rewrite parse_alternative_literal
    by (try reflexivity; cbn [String.length]; lia).
  rewrite parse_alternative_bar by (cbn [String.length]; lia).
  cbv beta iota.
  rewrite parse_disjunction_pos by lia.
  rewrite parse_alternative_literal
    by (try reflexivity; cbn [String.length]; lia).
  rewrite parse_alternative_any_lazy by (cbn [String.length]; lia).
  rewrite parse_alternative_text
    by (try exact Hp; cbn [String.length]; lia).
  cbv beta iota. eexists. reflexivity.
Qed.

(** For a room whose name is such a text the pattern of the upload notice
    is a pattern. *)
Lemma uploaded_pattern_compiles room :
  pattern_text (slice room 1 None) = true ->
  exists re, RegExp.compile (uploaded_pattern room) = Normal re.
Proof.
  intros Hp. unfold RegExp.compile, uploaded_pattern.
  destruct (uploaded_pattern_parses (slice room 1 None)
              (3 * String.length
                     ("^|popup||html|<p>Your replay has been uploaded!.+?"
                      ++ slice room 1 None) + 3) Hp) as [r Hr].
  - rewrite length_append. cbn [String.length]. lia.
  - rewrite Hr. now exists r.
Qed.

Section RunFacts3.
Variable JSON_parse : string -> completion jsval.
Variables name0 name1 : jsval.

Local Abbreviation pred_ := (predicate_of JSON_parse name0 name1).
Local Abbreviation step_ := (battle_step JSON_parse name0 name1).
Local Abbreviation run_ := (battle_run JSON_parse name0 name1).
Local Abbreviation reached_ := (reached JSON_parse name0 name1).

Lemma step_unchanged w c data :
  wait w = awaitws -> listens_on (step w) = Some c ->
  pred_ (step w) (spec w) data = (spec w, Normal JUndefined) ->
  step_ w (Inbound c data) = w.
Proof.
  intros Hwait Hl Hpred.
  rewrite (step_keeps_listening JSON_parse name0 name1 w c data Hwait Hl);
    rewrite Hpred; simpl; try discriminate.
  rewrite <- Hwait. apply world_eta.
Qed.

(** X8.  In a run that waits for the room, a frame on the first socket
    whose second line announces a battle starts the battle in the room
    named by its first line.  The first socket is sent, for that room, the
    message of the battle, the timer command, the command leaving the
    battle and the command adding the confirmed candidate of the first
    side as [p1]; the second socket the timer command, the command leaving
    the battle, the command adding the confirmed candidate of the second
    side as [p2] and the command leaving the room.  Each candidate added
    is one of the candidates the battle was started with.  The same frame
    on the second socket does nothing. *)
Theorem announced_battle_is_set_up
    (wires0 io1 : wires) (arg : jsval) (w0 : world)
    (before : list battle_event) (msgraw : string) :
  battle wires0 arg = (io1, Normal w0) ->
  step (run_ w0 before) = AwaitRoom ->
  announces_battle msgraw ->
  let w := run_ w0 before in
  let w' := step_ w (Inbound A msgraw) in
  let id := slice (room_of msgraw) 1 None in
  exists u1 u2,
    In u1 (usernames (side1 (spec w0)))
    /\ In u2 (usernames (side2 (spec w0)))
    /\ sent0 (io w')
       = (sent0 (io w)
          ++ [msgToRaw (id ++ "|" ++ message (spec w0));
              msgToRaw (id ++ "|/timer on");
              msgToRaw (id ++ "|/leavebattle");
              msgToRaw (id ++ "|/addplayer " ++ ToString u1 ++ ", p1")])%list
    /\ sent1 (io w')
       = (sent1 (io w)
          ++ [msgToRaw (id ++ "|/timer on");
              msgToRaw (id ++ "|/leavebattle");
              msgToRaw (id ++ "|/addplayer " ++ ToString u2 ++ ", p2");
              msgToRaw ("|/noreply /leave " ++ id)])%list
    /\ step w' = AwaitEnd (room_of msgraw)
    /\ outcome w' = Resolved ("https://play.pokemonshowdown.com/" ++ id)
    /\ replay w' = Pending
    /\ step_ w (Inbound B msgraw) = w.
Proof.
  intros Hb Hstep Hann w w' id.
  destruct (reached_ wires0 arg io1 w0 before Hb)
    as (Hp & _ & Hc & (Hm & _ & (_ & U1 & C1) & (_ & U2 & C2))).
  fold w in Hp, Hc, Hstep, Hm, U1, U2, C1, C2.
  unfold phase_ok in Hp. rewrite Hstep in Hp.
  destruct Hp as (Hwait & Hout & Hrep).
  unfold confirmed_ok in Hc. rewrite Hstep in Hc. destruct Hc as [T1 T2].
  destruct C1 as [[_ C1]|[C1 _]]; [congruence|].
  destruct C2 as [[_ C2]|[C2 _]]; [congruence|].
  exists (confirmed (side1 (spec w))), (confirmed (side2 (spec w))).
  assert (Hw' : w' = then_started msgraw w).
  { unfold w'.
    rewrite (step_resolves JSON_parse name0 name1 w A msgraw (spec w) Hwait);
      rewrite Hstep; try reflexivity.
    cbn [predicate_of]. now apply room_predicate_announced. }
  rewrite Hw'. unfold then_started. simpl. fold id.
  rewrite Hm, Hout, <- !app_assoc. simpl.
  repeat split; auto. now rewrite Hstep.
Qed.

(** X9.  In a run that waits for the end of the battle, a frame on the
    first socket ends the wait exactly when the second field of its last
    line is [win]; the room the frame is about is not looked at.  The run
    then asks for the replay of its own room on the first socket and waits
    for the notice.  Any other frame, and any frame on the second socket,
    changes nothing. *)
Theorem last_line_win_ends_battle
    (wires0 io1 : wires) (arg : jsval) (w0 : world)
    (before : list battle_event) (room msgraw : string) :
  battle wires0 arg = (io1, Normal w0) ->
  step (run_ w0 before) = AwaitEnd room ->
  let w := run_ w0 before in
  let w' := step_ w (Inbound A msgraw) in
  (ends_with_win msgraw ->
   step w' = AwaitReplay room
   /\ sent0 (io w')
      = (sent0 (io w) ++ [msgToRaw (slice room 1 None ++ "|/savereplay")])%list
   /\ sent1 (io w') = sent1 (io w)
   /\ replay w' = Pending
   /\ outcome w' = outcome w)
  /\ (~ ends_with_win msgraw -> w' = w)
  /\ step_ w (Inbound B msgraw) = w.
Proof.
  intros Hb Hstep w w'.
  destruct (reached_ wires0 arg io1 w0 before Hb) as (Hp & _).
  fold w in Hp, Hstep. unfold phase_ok in Hp. rewrite Hstep in Hp.
  destruct Hp as (Hwait & Hrep).
  split; [|split].
  - intros (line & Hpop & Hwin). unfold w'.
    rewrite (step_resolves JSON_parse name0 name1 w A msgraw (spec w) Hwait);
      rewrite Hstep; try reflexivity.
    + unfold react. simpl. auto.
    + cbn [predicate_of]. unfold end_predicate. now rewrite Hpop, Hwin, is_some.
  - intros Hno. unfold w'. apply step_unchanged; [exact Hwait| |];
      rewrite Hstep; [reflexivity|].
    cbn [predicate_of]. unfold end_predicate.
    destruct (pop _) as [line|] eqn:Hpop; [|reflexivity].
    rewrite is_not; [reflexivity|].
    intros Hwin. apply Hno. now exists line.
  - simpl. now rewrite Hstep.
Qed.

(** X10.  In a run that waits for the upload notice in a room whose name
    has no character with a meaning of its own in a pattern, every frame on
    the first socket ends the wait, whatever it says: the first socket is
    sent the command leaving the room, and the promise in [replay] is
    resolved with what the link pattern finds in that frame. *)
Theorem any_frame_ends_replay_wait
    (wires0 io1 : wires) (arg : jsval) (w0 : world)
    (before : list battle_event) (room msgraw : string) :
  battle wires0 arg = (io1, Normal w0) ->
  step (run_ w0 before) = AwaitReplay room ->
  pattern_text (slice room 1 None) = true ->
  let w := run_ w0 before in
  let w' := step_ w (Inbound A msgraw) in
  replay w' = Resolved (href_of msgraw)
  /\ step w' = Over
  /\ sent0 (io w') = (sent0 (io w) ++ [leave room])%list
  /\ sent1 (io w') = sent1 (io w)
  /\ outcome w' = Resolved ("https://play.pokemonshowdown.com/"
                            ++ slice room 1 None).
Proof.
  intros Hb Hstep Htext w w'.
  destruct (uploaded_pattern_compiles room Htext) as [re Hre].
  destruct (reached_ wires0 arg io1 w0 before Hb) as (Hp & Hs & _).
  fold w in Hp, Hs, Hstep. unfold phase_ok in Hp. rewrite Hstep in Hp.
  unfold started_ok in Hs. rewrite Hstep in Hs.
  destruct Hp as (Hwait & Hrep).
  unfold w'.
  rewrite (step_resolves JSON_parse name0 name1 w A msgraw (spec w) Hwait);
    rewrite Hstep; try reflexivity.
  - unfold react. simpl. rewrite Hrep. auto.
  - cbn [predicate_of].
    apply (replay_predicate_accepts_everything room re _ _ Hre).
Qed.

(** X11.  In a run that waits for the challenge, a private message on the
    second socket from [bots[0]] to [bots[1]] that starts with the
    challenge command is accepted: the second socket is sent the accept
    command naming [bots[0]] and the run waits for the room.  A private
    message from anyone else, and the same frame on the first socket,
    change nothing. *)
Theorem challenge_is_accepted
    (wires0 io1 : wires) (arg : jsval) (w0 : world)
    (before : list battle_event) (n0 n1 msgraw : string) :
  name0 = JStr n0 -> name1 = JStr n1 ->
  battle wires0 arg = (io1, Normal w0) ->
  step (run_ w0 before) = AwaitChallenge ->
  let w := run_ w0 before in
  (challenge_pm msgraw n0 n1 ->
   let w' := step_ w (Inbound B msgraw) in
   step w' = AwaitRoom
   /\ sent1 (io w') = (sent1 (io w) ++ [msgToRaw ("|/accept " ++ n0)])%list
   /\ sent0 (io w') = sent0 (io w)
   /\ outcome w' = Pending)
  /\ (forall other, other <> n0 -> challenge_pm msgraw other n1 ->
      step_ w (Inbound B msgraw) = w)
  /\ step_ w (Inbound A msgraw) = w.
Proof.
  intros Hn0 Hn1 Hb Hstep w.
  destruct (reached_ wires0 arg io1 w0 before Hb) as (Hp & _).
  fold w in Hp, Hstep. unfold phase_ok in Hp. rewrite Hstep in Hp.
  destruct Hp as (Hwait & Hout & Hrep).
  split; [|split].
  - intros (d0 & r0 & r1 & d4 & more & Hsplit & Hstart) w'. unfold w'.
    rewrite (step_resolves JSON_parse name0 name1 w B msgraw (spec w) Hwait);
      rewrite Hstep; try reflexivity.
    + unfold react. simpl. rewrite Hn0. simpl. auto.
    + cbn [predicate_of]. unfold challenge_predicate. rewrite Hsplit. simpl at_.
      rewrite is_some, !slice_tail, Hn0, Hn1, Hstart. simpl strict_eq.
      now rewrite !String.eqb_refl.
  - intros other Hother (d0 & r0 & r1 & d4 & more & Hsplit & Hstart).
    apply step_unchanged; [exact Hwait| |]; rewrite Hstep; [reflexivity|].
    cbn [predicate_of]. unfold challenge_predicate. rewrite Hsplit. simpl at_.
    rewrite is_some, slice_tail, Hn0. simpl strict_eq.
    destruct (String.eqb_spec other n0); [contradiction | reflexivity].
  - simpl. now rewrite Hstep.
Qed.
End RunFacts3.

(** ** [getEntry]: the draws it reads *)

Lemma r1_loop_step random cursor r1 :
  String.length r1 < 8 ->
  r1_loop random cursor r1
  = r1_loop random (S cursor)
      (r1 ++ char_at chars
               (floor_times (random cursor)
                  (Z.of_nat (String.length chars)))).
Proof.
  intros H. rewrite r1_loop_equation_1 at 1.
  destruct (lt_dec (String.length r1) 8); [reflexivity | lia].
Qed.

Lemma r1_loop_done random cursor r1 :
  8 <= String.length r1 -> r1_loop random cursor r1 = (r1, cursor).
Proof.
  intros H. rewrite r1_loop_equation_1.
  destruct (lt_dec (String.length r1) 8); [lia | reflexivity].
Qed.

Lemma r1_loop_draws random n :
  forall cursor r1,
    String.length r1 + n = 8 ->
    (forall k, cursor <= k < cursor + n -> unit_interval (random k)) ->
    snd (r1_loop random cursor r1) = cursor + n
    /\ forall random',
         (forall k, cursor <= k < cursor + n -> random' k = random k) ->
         r1_loop random' cursor r1 = r1_loop random cursor r1.
Proof.
  induction n as [|n IH]; intros cursor r1 Hlen Hunit.
  - rewrite r1_loop_done by lia. split; [simpl; lia|].
    intros random' _. now rewrite r1_loop_done by lia.
  - rewrite r1_loop_step by lia.
    destruct (char_at_chars
                (floor_times (random cursor) (Z.of_nat (String.length chars))))
      as [c [Hc _]].
    { apply floor_times_range; [apply Hunit; lia | reflexivity]. }
    destruct (IH (S cursor)
                (r1 ++ char_at chars
                         (floor_times (random cursor)
                            (Z.of_nat (String.length chars)))))
      as [Hsnd Hsame].
    { rewrite length_append, Hc. simpl. lia. }
    { intros k Hk. apply Hunit. lia. }
    split; [rewrite Hsnd; lia|].
    intros random' Hagree. rewrite r1_loop_step by lia.
    rewrite (Hagree cursor) by lia.
    apply Hsame. intros k Hk. apply Hagree. lia.
Qed.

Lemma getEntry_cursor (random : nat -> draw) (cursor : nat) :
  (forall k, cursor <= k < cursor + 9 -> unit_interval (random k)) ->
  snd (getEntry random cursor) = cursor + 9.
Proof.
  intros Hunit.
  destruct (r1_loop_draws random 8 cursor "") as [Hsnd _];
    [reflexivity | intros k Hk; apply Hunit; lia |].
  unfold getEntry. destruct (r1_loop random cursor "") as [r1 cursor1].
  simpl in *. lia.
Qed.

(** X12.  When the nine values that [Math.random] returns next are within
    its range, [getEntry] reads exactly those nine, eight for the session
    name and one for the server number, and what it returns depends on
    nothing else. *)
Theorem getEntry_reads_nine_draws (random : nat -> draw) (cursor : nat) :
  (forall k, cursor <= k < cursor + 9 -> unit_interval (random k)) ->
  snd (getEntry random cursor) = cursor + 9
  /\ forall random',
       (forall k, cursor <= k < cursor + 9 -> random' k = random k) ->
       getEntry random' cursor = getEntry random cursor.
Proof.
  intros Hunit. split; [now apply getEntry_cursor|].
  destruct (r1_loop_draws random 8 cursor "") as [Hsnd Hsame];
    [reflexivity | intros k Hk; apply Hunit; lia |].
  intros random' Hagree. unfold getEntry.
  rewrite (Hsame random') by (intros k Hk; apply Hagree; lia).
  destruct (r1_loop random cursor "") as [r1 cursor1]. simpl in Hsnd.
  rewrite (Hagree cursor1) by lia. reflexivity.
Qed.

Lemma getEntry_reads_nine_draws_witness :
  snd (getEntry (fun _ => {| num := 1; den := 2 |}) 0) = 0 + 9
  /\ forall random',
       (forall k, 0 <= k < 0 + 9 -> random' k = {| num := 1; den := 2 |}) ->
       getEntry random' 0 = getEntry (fun _ => {| num := 1; den := 2 |}) 0.
Proof.
  apply (getEntry_reads_nine_draws (fun _ => {| num := 1; den := 2 |}) 0).
  intros k _. unfold unit_interval. simpl. lia.
Defined.

(** ** [connect]: the sockets it opens *)

Lemma open_sockets_spec random :
  (forall k, unit_interval (random k)) ->
  forall bs cursor sks,
    exists news,
      snd (fst (open_sockets random cursor bs sks)) = (sks ++ news)%list
      /\ List.length news = List.length bs
      /\ snd (open_sockets random cursor bs sks)
         = cursor + 9 * List.length bs
      /\ List.length (fst (fst (open_sockets random cursor bs sks)))
         = List.length bs
      /\ forall i b,
           nth_error bs i = Some b ->
           nth_error (fst (fst (open_sockets random cursor bs sks))) i
           = Some {| name := name b; pass := pass b;
                     ws := Some (List.length sks + i) |}
           /\ nth_error news i
              = Some {| url := fst (getEntry random (cursor + 9 * i));
                        closed := false; sent := [] |}.
Proof.
  intros Hunit. induction bs as [|b bs IH]; intros cursor sks.
  - exists []. simpl. rewrite app_nil_r. repeat split; try lia.
    all: destruct i; discriminate.
  - simpl.
    pose proof (getEntry_cursor random cursor (fun k _ => Hunit k))
      as Hnine.
    destruct (getEntry random cursor) as [entry cursor1] eqn:Hentry.
    cbn [snd] in Hnine. subst cursor1.
    set (sk := {| url := entry; closed := false; sent := [] |}).
    destruct (IH (cursor + 9) (sks ++ [sk])%list)
      as (news & H1 & H2 & H3 & H4 & H5).
    destruct (open_sockets random (cursor + 9) bs (sks ++ [sk]))
      as [[bs' sks'] cursor2]. cbn [fst snd] in *.
    exists (sk :: news). repeat split.
    + now rewrite H1, <- app_assoc.
    + cbn [List.length]. now rewrite H2.
    + cbn [List.length]. lia.
    + cbn [List.length]. now rewrite H4.
    + destruct i as [|i]; cbn [nth_error] in *.
      * injection H as <-. now rewrite Nat.add_0_r.
      * destruct (H5 i b0 H) as [Hb _]. rewrite Hb.
        rewrite length_app. cbn [List.length]. do 3 f_equal. lia.
    + destruct i as [|i]; cbn [nth_error] in *.
      * match goal with
        | |- context [getEntry random ?k] => replace k with cursor by lia
        end.
        now rewrite Hentry.
      * destruct (H5 i b0 H) as [_ Hs].
        match goal with
        | |- context [getEntry random ?k] =>
            replace k with (cursor + 9 + 9 * i) by lia
        end.
        exact Hs.
Qed.

(** X13.  [connect] gives every bot a socket of its own, in the order of
    [bots]: bot [i] keeps its name and password and gets a new open socket
    on which nothing has been sent, at the endpoint that [getEntry] returns
    from the nine values of [Math.random] after the [9 * i] read for the
    bots before it; its chain starts at the correlator waiting for the
    handshake line.  The sockets that existed are untouched and the signal
    is as it was.  With no bot at all the promise of [connect] is resolved
    at once; with at least one it is pending. *)
Theorem connect_opens_one_socket_per_bot
    (random : nat -> draw) (cursor : nat) (p : PSBots) :
  (forall k, unit_interval (random k)) ->
  let c := fst (connect random cursor p) in
  snd (connect random cursor p) = cursor + 9 * List.length (bots p)
  /\ signal_aborted (pool c) = signal_aborted p
  /\ List.length (bots (pool c)) = List.length (bots p)
  /\ List.length (sockets (pool c))
     = List.length (sockets p) + List.length (bots p)
  /\ (forall id sk,
        nth_error (sockets p) id = Some sk ->
        nth_error (sockets (pool c)) id = Some sk)
  /\ (forall i b,
        nth_error (bots p) i = Some b ->
        nth_error (bots (pool c)) i
        = Some {| name := name b; pass := pass b;
                  ws := Some (List.length (sockets p) + i) |}
        /\ nth_error (sockets (pool c)) (List.length (sockets p) + i)
           = Some {| url := fst (getEntry random (cursor + 9 * i));
                     closed := false; sent := [] |}
        /\ nth_error (stages c) i = Some (AwaitChallstr awaitws))
  /\ all c = match bots p with
             | [] => Resolved "=== ALL CONNECTED ==="
             | _ :: _ => Pending
             end.
Proof.
  intros Hunit c.
  destruct (open_sockets_spec random Hunit (bots p) cursor (sockets p))
    as (news & H1 & H2 & H3 & H4 & H5).
  unfold c, connect.
  destruct (open_sockets random cursor (bots p) (sockets p))
    as [[bs sks] cursor'] eqn:Hopen. simpl in *.
  repeat split; auto.
  - rewrite H1, length_app. lia.
  - intros id sk Hid. rewrite H1, nth_error_app1; [exact Hid|].
    apply nth_error_Some. congruence.
  - now destruct (H5 i b H).
  - destruct (H5 i b H) as [_ Hs].
    rewrite H1, nth_error_app2 by lia.
    now replace (List.length (sockets p) + i - List.length (sockets p))
      with i by lia.
  - destruct (H5 i b H) as [Hb _].
    rewrite nth_error_map, Hb. reflexivity.
  - unfold join. destruct (bots p) as [|b rest]; destruct bs as [|b' rest'];
      simpl in *; try discriminate; reflexivity.
Qed.

Lemma connect_opens_one_socket_per_bot_witness :
  snd (connect half 0 two_bots_pool) = 18
  /\ nth_error (bots (pool (fst (connect half 0 two_bots_pool)))) 1
     = Some {| name := JStr "botB"; pass := JStr "secretB"; ws := Some 1 |}
  /\ nth_error (sockets (pool (fst (connect half 0 two_bots_pool)))) 1
     = Some {| url := fst (getEntry half 9); closed := false; sent := [] |}.
Proof.
  destruct (connect_opens_one_socket_per_bot half 0 two_bots_pool)
    as (H1 & _ & _ & _ & _ & H2 & _).
  - intros k. unfold unit_interval, half. simpl. lia.
  - split; [exact H1|].
    destruct (H2 1 {| name := JStr "botB"; pass := JStr "secretB";
                      ws := None |} eq_refl) as (Hb & Hs & _).
    split; [exact Hb | exact Hs].
Defined.

(** ** [connect]: how its promise settles *)

(** The promise of [connect] and the chains agree: a resolution carries the
    text of the last [then], a rejection carries the reason of a chain that
    has failed and comes with the abort, and a failed chain has rejected
    the promise. *)
Definition settles_by_chains (c : connecting) : Prop :=
  (forall x, all c = Resolved x -> x = all_connected)
  /\ (forall r, all c = Rejected r ->
        signal_aborted (pool c) = true
        /\ exists i, nth_error (stages c) i = Some (Failed r))
  /\ (forall i r, nth_error (stages c) i = Some (Failed r) ->
        exists r', all c = Rejected r').

Definition is_failed (s : stage) : bool :=
  match s with Failed _ => true | _ => false end.

(** Every bot has a socket among the sockets created. *)
Definition wired (p : PSBots) : Prop :=
  forall i b, nth_error (bots p) i = Some b ->
    exists id, ws b = Some id /\ id < List.length (sockets p).

Lemma length_close_each bs sks :
  List.length (close_each bs sks) = List.length sks.
Proof.
  revert sks. induction bs as [|b bs IH]; intros sks; simpl; [reflexivity|].
  rewrite IH. destruct (ws b); [apply length_update | reflexivity].
Qed.

Lemma shutdown_sockets_length p :
  List.length (sockets (shutdown p)) = List.length (sockets p).
Proof.
  unfold shutdown.
  destruct (some no_socket (bots p) || signal_aborted p); [reflexivity|].
  apply length_close_each.
Qed.

Lemma shutdown_wired p : wired p -> wired (shutdown p).
Proof.
  unfold wired. rewrite shutdown_bots, shutdown_sockets_length. auto.
Qed.

Lemma shutdown_stays_aborted p :
  signal_aborted p = true -> signal_aborted (shutdown p) = true.
Proof. intros H. unfold shutdown. now rewrite H, orb_true_r. Qed.

Lemma open_sockets_wired random bs :
  forall cursor sks,
    List.length (snd (fst (open_sockets random cursor bs sks)))
    = List.length sks + List.length bs
    /\ forall i b,
         nth_error (fst (fst (open_sockets random cursor bs sks))) i = Some b ->
         exists id, ws b = Some id
                    /\ id < List.length sks + List.length bs.
Proof.
  induction bs as [|b bs IH]; intros cursor sks; simpl.
  - split; [lia|]. intros [|i] b H; discriminate.
  - destruct (getEntry random cursor) as [entry cursor1].
    specialize (IH cursor1
      (sks ++ [{| url := entry; closed := false; sent := [] |}])%list).
    destruct (open_sockets random cursor1 bs _) as [[bs' sks'] cursor2].
    cbn [fst snd] in *. destruct IH as [H1 H2].
    rewrite length_app in H1, H2. cbn [List.length] in *.
    split; [lia|]. intros [|i] b0 H; cbn [nth_error] in H.
    + injection H as <-. exists (List.length sks). simpl. split; [auto|lia].
    + destruct (H2 i b0 H) as (id & Hid & Hlt). exists id. split; [auto|lia].
Qed.

Lemma connect_wired random cursor p :
  wired (pool (fst (connect random cursor p))).
Proof.
  unfold connect.
  destruct (open_sockets_wired random (bots p) cursor (sockets p))
    as [H1 H2].
  destruct (open_sockets random cursor (bots p) (sockets p))
    as [[bs sks] cursor']. cbn [fst snd] in *.
  unfold wired. simpl. intros i b H. rewrite H1. eauto.
Qed.

Section ConnectFacts2.
Variable JSON_parse : string -> completion jsval.

Local Abbreviation cstep := (connect_step JSON_parse).
Local Abbreviation crun := (connect_run JSON_parse).

(** What one event can do to a connecting pool. *)
Definition moves (c c' : connecting) : Prop :=
  c' = c
  \/ (exists i s s',
        nth_error (stages c) i = Some s
        /\ is_connected s = false /\ is_failed s = false
        /\ is_connected s' = false /\ is_failed s' = false
        /\ c' = set_stage i s' c)
  \/ (exists i s r,
        nth_error (stages c) i = Some s
        /\ is_connected s = false /\ is_failed s = false
        /\ c' = fail i r c)
  \/ (signal_aborted (pool c) = false
      /\ c' = {| pool := shutdown (pool c); stages := stages c;
                 all := all c |})
  \/ (exists i ch id f,
        nth_error (stages c) i = Some (Fetching ch)
        /\ c' = {| pool := {| bots := bots (pool c);
                              signal_aborted := signal_aborted (pool c);
                              sockets := update id (send f)
                                           (sockets (pool c)) |};
                   stages := update i (fun _ => Connected) (stages c);
                   all := join (update i (fun _ => Connected) (stages c))
                            (all c) |}).

Lemma cstep_moves c e : moves c (cstep c e).
Proof.
  unfold moves.
  assert (Hset : forall i s s',
            nth_error (stages c) i = Some s ->
            is_connected s = false -> is_failed s = false ->
            is_connected s' = false -> is_failed s' = false ->
            moves c (set_stage i s' c)).
  { intros i s s' H1 H2 H3 H4 H5. right. left. exists i, s, s'. auto 10. }
  assert (Hfail : forall i s r,
            nth_error (stages c) i = Some s ->
            is_connected s = false -> is_failed s = false ->
            moves c (fail i r c)).
  { intros i s r H1 H2 H3. right. right. left. exists i, s, r. auto 10. }
  fold (moves c (cstep c e)).
  destruct e as [i data|i|i|i e|i ok text]; simpl.
  - destruct (nth_error (stages c) i) as [[w|ch| |r]|] eqn:Hs;
      try (now left).
    destruct (is_open (pool c) i); [|now left].
    match goal with
    | |- context [match ?q with _ => _ end] => destruct q
    end; [eapply Hset | eapply Hset | eapply Hfail]; eauto.
  - destruct (nth_error (stages c) i) as [s|]; [|now left].
    destruct (signal_aborted (pool c)) eqn:Ha; [now left|].
    right. right. right. left. auto.
  - destruct (nth_error (stages c) i) as [[w|ch| |r]|] eqn:Hs;
      try (now left).
    match goal with
    | |- context [match ?q with _ => _ end] => destruct q
    end; [eapply Hset | eapply Hset | eapply Hfail]; eauto.
  - destruct (nth_error (stages c) i) as [[w|ch| |r]|] eqn:Hs;
      try (now left).
    eapply Hfail; eauto.
  - destruct (nth_error (stages c) i) as [[w|ch| |r]|] eqn:Hs;
      try (now left).
    destruct (nth_error (bots (pool c)) i) as [b|]; [|now left].
    destruct (negb ok); [eapply Hfail; eauto|].
    destruct (JSON_parse _); [|eapply Hfail; eauto]. unfold logged_in.
    destruct (login_refused _) as [[|]|]; try (eapply Hfail; eauto).
    destruct (ws b) as [id|]; [|eapply Hfail; eauto].
    right. right. right. right. exists i, ch, id. eexists. eauto.
Qed.

Lemma moves_wired c c' : moves c c' -> wired (pool c) -> wired (pool c').
Proof.
  intros [->|[(i & s & s' & _ & _ & _ & _ & _ & ->)
             |[(i & s & r & _ & _ & _ & ->)
              |[(_ & ->)|(i & ch & id & f & _ & ->)]]]] H; simpl; auto.
  - now apply shutdown_wired.
  - now apply shutdown_wired.
  - unfold wired in *. simpl. now rewrite length_update.
Qed.

Lemma stage_kept ss i j (s s' x : stage) :
  nth_error ss i = Some s -> nth_error ss j = Some x ->
  is_failed s = false -> is_failed x = true ->
  nth_error (update i (fun _ => s') ss) j = Some x.
Proof.
  intros Hi Hj Hs Hx. destruct (Nat.eq_dec j i) as [->|Hne].
  - rewrite Hi in Hj. injection Hj as ->. congruence.
  - now rewrite nth_error_update_other.
Qed.

Lemma stage_new ss i j (s s' : stage) r :
  nth_error ss i = Some s ->
  nth_error (update i (fun _ => s') ss) j = Some (Failed r) ->
  (j = i /\ s' = Failed r) \/ (j <> i /\ nth_error ss j = Some (Failed r)).
Proof.
  intros Hi Hj. destruct (Nat.eq_dec j i) as [->|Hne].
  - rewrite (nth_error_update_same (fun _ => s') _ _ _ Hi) in Hj.
    injection Hj as ->. now left.
  - rewrite nth_error_update_other in Hj by exact Hne. now right.
Qed.

Lemma moves_settles c c' :
  moves c c' -> connecting_ok c -> settles_by_chains c ->
  settles_by_chains c'.
Proof.
  intros Hm (Hsock & Hlen & Hall) (I1 & I2 & I3).
  destruct Hm as [->|[(i & s & s' & Hs & Hc & Hf & Hc' & Hf' & ->)
                     |[(i & s & r & Hs & Hc & Hf & ->)
                      |[(Ha & ->)|(i & ch & id & f & Hs & ->)]]]].
  - unfold settles_by_chains. auto.
  - unfold settles_by_chains, set_stage. simpl. split; [exact I1|]. split.
    + intros r Hr. destruct (I2 r Hr) as (Hab & j & Hj). split; [exact Hab|].
      exists j. now apply (stage_kept _ _ _ s).
    + intros j r Hj.
      destruct (stage_new _ _ _ _ _ _ Hs Hj) as [[_ ->]|[_ Hold]];
        [discriminate | eauto].
  - unfold settles_by_chains, fail. simpl. split; [|split].
    + intros x Hx. destruct (all c); simpl in Hx; try discriminate. auto.
    + intros r0 Hr0. destruct (all c) as [|x|r1] eqn:Hallc; simpl in Hr0;
        try discriminate; injection Hr0 as ->.
      * split; [now apply shutdown_aborts|]. exists i.
        exact (nth_error_update_same (fun _ => Failed r0) _ _ _ Hs).
      * destruct (I2 r0 eq_refl) as (Hab & j & Hj).
        split; [now apply shutdown_stays_aborted|].
        exists j. now apply (stage_kept _ _ _ s).
    + intros j r1 Hj. destruct (all c) as [|x|r2] eqn:Hallc; simpl; eauto.
      exfalso. specialize (Hall x eq_refl).
      rewrite (forallb_update_not_connected _ _ _ Hs Hc) in Hall.
      discriminate.
  - unfold settles_by_chains. simpl. split; [exact I1|]. split; [|exact I3].
    intros r Hr. destruct (I2 r Hr) as (Hab & _). congruence.
  - unfold settles_by_chains. simpl.
    set (ss := update i (fun _ => Connected) (stages c)).
    assert (Hjoin : join ss (all c) = all c
                    \/ (all c = Pending
                        /\ join ss (all c) = Resolved all_connected)).
    { unfold join. destruct (forallb is_connected ss); [|now left].
      destruct (all c); simpl; auto. }
    split; [|split].
    + intros x Hx. destruct Hjoin as [E|[_ E]]; rewrite E in Hx; auto.
      now injection Hx as <-.
    + intros r Hr. destruct Hjoin as [E|[_ E]]; rewrite E in Hr;
        [|discriminate].
      destruct (I2 r Hr) as (Hab & j & Hj). split; [exact Hab|].
      exists j. now apply (stage_kept _ _ _ (Fetching ch)).
    + intros j r Hj.
      destruct (stage_new _ _ _ _ _ _ Hs Hj) as [[_ E]|[_ Hold]];
        [discriminate|].
      destruct (I3 j r Hold) as [r' Hr']. exists r'.
      destruct Hjoin as [E|[E _]]; congruence.
Qed.

Lemma connect_settles random cursor p :
  settles_by_chains (fst (connect random cursor p))
  /\ forall i s,
       nth_error (stages (fst (connect random cursor p))) i = Some s ->
       s = AwaitChallstr awaitws.
Proof.
  unfold connect.
  destruct (open_sockets random cursor (bots p) (sockets p))
    as [[bs sks] cursor']. cbn [fst].
  assert (Hst : forall i s,
            nth_error (map (fun _ : bot => AwaitChallstr awaitws) bs) i
            = Some s -> s = AwaitChallstr awaitws).
  { intros i s H. rewrite nth_error_map in H.
    destruct (nth_error bs i); simpl in H; [|discriminate].
    now injection H as <-. }
  split; [|exact Hst].
  unfold settles_by_chains. cbn [all stages pool]. repeat split.
  - unfold join. intros x.
    destruct (forallb _ _); simpl; [now intros [= <-] | discriminate].
  - exfalso. unfold join in H. destruct (forallb _ _); discriminate.
  - exfalso. unfold join in H. destruct (forallb _ _); discriminate.
  - intros i r H. apply Hst in H. discriminate.
Qed.

Lemma crun_invariants random cursor p es :
  signal_aborted p = false ->
  let c := crun (fst (connect random cursor p)) es in
  connecting_ok c /\ sealed (pool c) /\ wired (pool c)
  /\ settles_by_chains c.
Proof.
  intros Ha.
  assert (H0 : connecting_ok (fst (connect random cursor p))
               /\ sealed (pool (fst (connect random cursor p)))
               /\ wired (pool (fst (connect random cursor p)))
               /\ settles_by_chains (fst (connect random cursor p))).
  { split; [apply connect_ok|].
    split; [now apply connect_sealed|].
    split; [apply connect_wired | apply connect_settles]. }
  revert H0. generalize (fst (connect random cursor p)).
  induction es as [|e es IH]; intros c (H1 & H2 & H3 & H4); simpl; auto.
  apply IH. pose proof (cstep_moves c e) as Hm.
  split; [now apply cstep_ok|].
  split; [now apply cstep_sealed|].
  split; [now apply (moves_wired c) | now apply (moves_settles c)].
Qed.

(** X14.  Through any run of [connect] its promise is settled by the
    chains: it is resolved only with "=== ALL CONNECTED ===" and only when
    the chain of every bot has got through the login; it is rejected only
    with the reason of a chain that has failed, and then the shared signal
    is aborted and no bot has an open socket; and once a chain has failed
    the promise is rejected. *)
Theorem connect_settles_by_its_chains
    (random : nat -> draw) (cursor : nat) (p : PSBots) (es : list event) :
  signal_aborted p = false ->
  let c := crun (fst (connect random cursor p)) es in
  (forall x, all c = Resolved x ->
     x = "=== ALL CONNECTED ==="
     /\ forall i s, nth_error (stages c) i = Some s -> s = Connected)
  /\ (forall r, all c = Rejected r ->
        signal_aborted (pool c) = true
        /\ (exists i, nth_error (stages c) i = Some (Failed r))
        /\ forall i, is_open (pool c) i = false)
  /\ (forall i r, nth_error (stages c) i = Some (Failed r) ->
        exists r', all c = Rejected r').
Proof.
  intros Ha c.
  destruct (crun_invariants random cursor p es Ha)
    as ((_ & _ & Hall) & Hseal & _ & (I1 & I2 & I3)).
  fold c in Hall, Hseal, I1, I2, I3.
  split; [|split].
  - intros x Hx. split; [now apply I1|].
    intros i s Hs. specialize (Hall x Hx).
    rewrite forallb_forall in Hall.
    specialize (Hall s (nth_error_In _ _ Hs)). now destruct s.
  - intros r Hr. destruct (I2 r Hr) as (Hab & Hex). auto.
  - exact I3.
Qed.
End ConnectFacts2.

(** ** [connect]: the handshake and the login *)

(** A decoded login response that the check lets through, with its
    assertion. *)
Definition login_accepted (r : jsval) (assertion : string) : Prop :=
  exists fields cu,
    r = JObj fields
    /\ truthy (lookup "actionsuccess" fields) = true
    /\ lookup "curuser" fields = JObj cu
    /\ truthy (lookup "loggedin" cu) = true
    /\ lookup "assertion" fields = JStr assertion
    /\ startsWith assertion ";;" = false.

Lemma login_accepted_iff r :
  login_refused r = Normal false <-> exists a, login_accepted r a.
Proof.
  unfold login_refused, login_accepted. split.
  - destruct r as [| | | | | |fields|]; simpl; try discriminate.
    destruct (falsy (lookup "actionsuccess" fields)) eqn:Hok;
      [discriminate|].
    destruct (lookup "curuser" fields) as [| | | | | |cu|] eqn:Hcu; simpl;
      try discriminate.
    destruct (falsy (lookup "loggedin" cu)) eqn:Hli; [discriminate|].
    destruct (lookup "assertion" fields) as [| | | |a| | |] eqn:Has;
      try discriminate.
    intros [= Hs]. exists a, fields, cu. unfold falsy in Hok, Hli.
    apply negb_false_iff in Hok, Hli. auto 10.
  - intros (a & fields & cu & -> & Hok & Hcu & Hli & Has & Hs). simpl.
    unfold falsy. rewrite Hok, Hcu. simpl. rewrite Hli, Has. simpl.
    now rewrite Hs.
Qed.

Lemma slice_challstr (k : string) :
  slice (frame ("|challstr|" ++ k)) 13 (Some (-2)%Z) = k.
Proof.
  unfold frame, slice, slice_index. simpl String.length.
  rewrite length_append. simpl String.length.
  replace (13 <? 0)%Z with false by reflexivity.
  replace (-2 <? 0)%Z with true by reflexivity.
  set (n := String.length k).
  match goal with
  | |- substring (Z.to_nat ?a) (Z.to_nat ?b) _ = _ =>
      replace (Z.to_nat a) with 13 by lia;
      replace (Z.to_nat b) with n by lia
  end.
  simpl. apply substring_prefix.
Qed.

Lemma slice_payload (body : string) :
  slice (frame body) 3 (Some (-2)%Z) = body.
Proof. apply slice_frame. Qed.

Lemma split_go_bar cur t :
  split_go "|" 0 cur (String "|" t) = cur :: split_go "|" 0 "" t.
Proof.
  rewrite split_go_cons. cbn [prefix].
  destruct (ascii_dec "|" "|") as [_|N]; [|congruence].
  now destruct t.
Qed.

Lemma split_go_unit cur c t :
  c <> "|"%char ->
  split_go "|" 0 cur (String c t) = split_go "|" 0 (cur ++ String c "") t.
Proof.
  intros Hc. rewrite split_go_cons. cbn [prefix].
  destruct (ascii_dec "|" c) as [E|_]; [congruence | reflexivity].
Qed.

Lemma split_challstr k :
  split "|" ("|challstr|" ++ k) = "" :: "challstr" :: split "|" k.
Proof.
  unfold split.
  change ("|challstr|" ++ k)
    with (String "|" (String "c" (String "h" (String "a" (String "l"
           (String "l" (String "s" (String "t" (String "r"
             (String "|" k)))))))))).
  rewrite split_go_bar.
  do 8 (rewrite split_go_unit by discriminate).
  now rewrite split_go_bar.
Qed.

Lemma challstr_predicate_handshake k :
  challstr_predicate tt (frame ("|challstr|" ++ k))
  = (tt, Normal (JBool true)).
Proof.
  unfold challstr_predicate. now rewrite slice_payload, split_challstr.
Qed.

Lemma match_challstr {A : Type} (x : string) (a b : A) :
  match x with "challstr" => a | _ => b end
  = if x =? "challstr" then a else b.
Proof.
  repeat (destruct x as [|[[] [] [] [] [] [] [] []] x]; try reflexivity).
Qed.

Lemma challstr_predicate_other data :
  at_ (split "|" (slice data 3 (Some (-2)%Z))) 1 <> Some "challstr" ->
  challstr_predicate tt data = (tt, Normal JUndefined).
Proof.
  intros Hno. unfold challstr_predicate.
  destruct (at_ _ 1) as [x|]; [|reflexivity].
  rewrite match_challstr.
  destruct (String.eqb_spec x "challstr") as [->|Hne];
    [congruence | reflexivity].
Qed.

Lemma update_same {A : Type} (l : list A) i x :
  nth_error l i = Some x -> update i (fun _ => x) l = l.
Proof.
  revert i. induction l as [|y l IH]; intros [|i]; simpl; try discriminate.
  - now intros [= ->].
  - intros H. now rewrite IH.
Qed.

Lemma connecting_eta c :
  {| pool := pool c; stages := stages c; all := all c |} = c.
Proof. now destruct c. Qed.

Section ConnectFacts3.
Variable JSON_parse : string -> completion jsval.

Local Abbreviation cstep := (connect_step JSON_parse).
Local Abbreviation crun := (connect_run JSON_parse).

(** X15.  While the chain of bot [i] waits for the handshake line on an
    open socket: the frame [a["|challstr|k"]] ends the wait and starts the
    login request with the challenge string [k], whatever [k] is; a frame
    whose second field is not [challstr] changes nothing; and the timer of
    the wait fails the chain with "Timed out (awaitws).", which shuts the
    pool down and rejects the promise of [connect] if it is pending. *)
Theorem handshake_starts_login (c : connecting) (i : nat) :
  nth_error (stages c) i = Some (AwaitChallstr awaitws) ->
  is_open (pool c) i = true ->
  (forall k,
     cstep c (SocketMessage i (frame ("|challstr|" ++ k)))
     = {| pool := pool c;
          stages := update i (fun _ => Fetching k) (stages c);
          all := all c |})
  /\ (forall data,
        at_ (split "|" (slice data 3 (Some (-2)%Z))) 1 <> Some "challstr" ->
        cstep c (SocketMessage i data) = c)
  /\ cstep c (TimerFired i)
     = {| pool := shutdown (pool c);
          stages := update i
                      (fun _ => Failed (Value (JStr "Timed out (awaitws).")))
                      (stages c);
          all := rej (Value (JStr "Timed out (awaitws).")) (all c) |}.
Proof.
  intros Hs Hopen. split; [|split].
  - intros k. unfold connect_step. rewrite Hs, Hopen.
    unfold on_message. cbn [fst snd aborted awaitws].
    rewrite challstr_predicate_handshake.
    cbn [listener abort promise res snd awaitws].
    now rewrite slice_challstr.
  - intros data Hno. unfold connect_step. rewrite Hs, Hopen.
    unfold on_message. cbn [fst snd aborted awaitws].
    rewrite (challstr_predicate_other data Hno).
    cbn [listener snd promise awaitws].
    unfold set_stage. rewrite (update_same _ _ _ Hs). apply connecting_eta.
  - unfold connect_step. rewrite Hs. reflexivity.
Qed.

(** X16.  When the login request of bot [i] is answered with a response
    that the check lets through, the chain of that bot resolves: the rename
    command with its name and the assertion is sent on its own socket and
    on no other, nothing is closed and the signal is as it was.  If every
    other chain has resolved, the pending promise of [connect] is resolved
    with "=== ALL CONNECTED ==="; if some other chain has not, the promise
    is left as it was. *)
Theorem accepted_login_sends_rename
    (random : nat -> draw) (cursor : nat) (p : PSBots) (es : list event)
    (i : nat) (challstr text assertion : string) (r : jsval) :
  signal_aborted p = false ->
  let c := crun (fst (connect random cursor p)) es in
  nth_error (stages c) i = Some (Fetching challstr) ->
  JSON_parse (slice text 1 None) = Normal r ->
  login_accepted r assertion ->
  let c' := cstep c (FetchResponse i true text) in
  exists b id sk,
    nth_error (bots (pool c)) i = Some b
    /\ ws b = Some id
    /\ nth_error (sockets (pool c)) id = Some sk
    /\ nth_error (stages c') i = Some Connected
    /\ nth_error (sockets (pool c')) id
       = Some {| url := url sk; closed := closed sk;
                 sent := (sent sk
                          ++ [("[" ++ dq ++ "|/trn " ++ ToString (name b)
                                   ++ ",0," ++ assertion ++ dq
                                   ++ "]")%string])%list |}
    /\ (forall id', id' <> id ->
          nth_error (sockets (pool c')) id' = nth_error (sockets (pool c)) id')
    /\ bots (pool c') = bots (pool c)
    /\ signal_aborted (pool c') = signal_aborted (pool c)
    /\ (forall j, j <> i ->
          nth_error (stages c') j = nth_error (stages c) j)
    /\ ((forall j s, j <> i -> nth_error (stages c) j = Some s ->
           s = Connected) ->
        all c = Pending -> all c' = Resolved "=== ALL CONNECTED ===")
    /\ (forall j s, j <> i -> nth_error (stages c) j = Some s ->
          s <> Connected -> all c' = all c).
Proof.
  intros Ha c Hs Hparse Hacc c'.
  destruct (crun_invariants JSON_parse random cursor p es Ha)
    as ((Hsock & Hlen & Hall) & _ & Hwired & _).
  fold c in Hsock, Hlen, Hall, Hwired.
  destruct (nth_error (bots (pool c)) i) as [b|] eqn:Hb.
  2:{ apply nth_error_None in Hb.
      assert (i < List.length (stages c))
        by (apply nth_error_Some; congruence). lia. }
  destruct (Hwired i b Hb) as (id & Hid & Hlt).
  destruct (nth_error (sockets (pool c)) id) as [sk|] eqn:Hsk.
  2:{ apply nth_error_None in Hsk. lia. }
  assert (Hr : login_refused r = Normal false).
  { apply login_accepted_iff. now exists assertion. }
  assert (Hassert : field r "assertion" = JStr assertion).
  { destruct Hacc as (fields & cu & -> & _ & _ & _ & H & _). exact H. }
  set (ss := update i (fun _ => Connected) (stages c)).
  assert (Hc' : c' = {| pool := {| bots := bots (pool c);
                                   signal_aborted := signal_aborted (pool c);
                                   sockets := update id (send (trn b r))
                                                (sockets (pool c)) |};
                        stages := ss; all := join ss (all c) |}).
  { unfold c'. simpl. rewrite Hs, Hb, Hparse. unfold logged_in.
    now rewrite Hr, Hid. }
  exists b, id, sk. rewrite Hc'. cbn [pool stages all bots sockets
                                       signal_aborted].
  repeat split; auto.
  - exact (nth_error_update_same (fun _ => Connected) _ _ _ Hs).
  - rewrite (nth_error_update_same _ _ _ _ Hsk). unfold send, trn.
    now rewrite Hassert.
  - intros id' Hne. now apply nth_error_update_other.
  - intros j Hne. now apply nth_error_update_other.
  - intros Hothers Hpending. unfold join.
    assert (Hf : forallb is_connected ss = true).
    { apply forallb_forall. intros s Hin.
      apply In_nth_error in Hin as [j Hj].
      destruct (Nat.eq_dec j i) as [->|Hne].
      - unfold ss in Hj.
        rewrite (nth_error_update_same (fun _ => Connected) _ _ _ Hs) in Hj.
        now injection Hj as <-.
      - unfold ss in Hj. rewrite nth_error_update_other in Hj by exact Hne.
        now rewrite (Hothers j s Hne Hj). }
    now rewrite Hf, Hpending.
  - intros j s Hne Hj Hnot. unfold join.
    assert (Hf : forallb is_connected ss = false).
    { apply (forallb_update_not_connected ss j s).
      - unfold ss. now rewrite nth_error_update_other.
      - destruct s; try reflexivity. congruence. }
    now rewrite Hf.
Qed.
End ConnectFacts3.

(** ** [shutdown] *)

Lemma close_each_socket bs sks id sk :
  nth_error sks id = Some sk ->
  exists sk',
    nth_error (close_each bs sks) id = Some sk'
    /\ url sk' = url sk /\ sent sk' = sent sk
    /\ (closed sk = true -> closed sk' = true).
Proof.
  revert sks sk. induction bs as [|b bs IH]; intros sks sk H; simpl.
  - exists sk. auto.
  - destruct (ws b) as [id'|]; [|now apply IH].
    destruct (Nat.eq_dec id id') as [->|Hne].
    + destruct (IH (update id' close sks) (close sk)) as (sk' & H1 & H2 & H3 & H4).
      { exact (nth_error_update_same close _ _ _ H). }
      exists sk'. simpl in *. auto.
    + apply IH. now rewrite nth_error_update_other.
Qed.

(** X17.  [shutdown] does nothing when some bot has no socket yet or when
    the signal is already aborted.  Otherwise it aborts the signal and
    closes the socket of every bot, changing neither the bots nor the
    endpoint and the sent frames of any socket, and reopening none.  It
    follows that a second [shutdown] does nothing. *)
Theorem shutdown_closes_once (p : PSBots) :
  (some no_socket (bots p) = true \/ signal_aborted p = true ->
   shutdown p = p)
  /\ (some no_socket (bots p) = false -> signal_aborted p = false ->
      signal_aborted (shutdown p) = true
      /\ bots (shutdown p) = bots p
      /\ List.length (sockets (shutdown p)) = List.length (sockets p)
      /\ (forall b id, In b (bots p) -> ws b = Some id ->
            closed_at (sockets (shutdown p)) id = true)
      /\ (forall id sk, nth_error (sockets p) id = Some sk ->
            exists sk',
              nth_error (sockets (shutdown p)) id = Some sk'
              /\ url sk' = url sk /\ sent sk' = sent sk
              /\ (closed sk = true -> closed sk' = true)))
  /\ shutdown (shutdown p) = shutdown p.
Proof.
  split; [|split].
  - intros H. unfold shutdown.
    destruct H as [-> | ->]; [reflexivity | now rewrite orb_true_r].
  - intros Hs Ha. unfold shutdown. rewrite Hs, Ha. simpl.
    repeat split.
    + apply length_close_each.
    + intros b id Hin Hws. now apply (close_each_closes _ _ b).
    + intros id sk H. now apply close_each_socket.
  - destruct (some no_socket (bots p) || signal_aborted p) eqn:Hc.
    + assert (E : shutdown p = p) by (unfold shutdown; now rewrite Hc).
      now rewrite !E.
    + assert (A : signal_aborted (shutdown p) = true)
        by (unfold shutdown; now rewrite Hc).
      unfold shutdown at 1. now rewrite A, orb_true_r.
Qed.

(** * Scenarios for the further properties *)

Lemma step_timeout_ends_run_witness :
  outcome (battle_step JSON.parse botA botB (scenario [online "alice"])
             (TimerOf 0))
  = Rejected (Value (JStr "Timed out (awaitws)."))
  /\ replay (battle_step JSON.parse botA botB (scenario [online "alice"])
               (TimerOf 0))
     = Pending.
Proof.
  assert (E : step (battle_run JSON.parse botA botB started [online "alice"])
              = AwaitPlayers) by (vm_compute; reflexivity).
  destruct (step_timeout_ends_run JSON.parse botA botB no_frames lookups_sent
              two_candidates started [online "alice"] [online "carol"] 0
              battle_two_candidates)
    as (_ & _ & _ & H & _).
  - rewrite E. reflexivity.
  - rewrite E in H. exact H.
Defined.

(** A lookup reply whose payload is [null]. *)
Lemma replay_settles_only_after_battle_resolved_witness :
  replay (battle_run JSON.parse botA botB
            (scenario [online "alice"; offline "bob"])
            [online "carol"; challenged; initialised; won])
  = Pending.
Proof.
  pose proof (replay_settles_only_after_battle_resolved
                JSON.parse botA botB no_frames lookups_sent two_candidates
                started [online "alice"; offline "bob"]
                battle_two_candidates) as H.
  cbv zeta in H.
  assert (E : outcome (battle_run JSON.parse botA botB started
                         [online "alice"; offline "bob"])
              = Rejected (Value (rejection_of ("User is offline: " ++ "bob")
                                   (details "bob" "false"))))
    by (vm_compute; reflexivity).
  rewrite E in H. destruct H as [_ H].
  exact (H [online "carol"; challenged; initialised; won]).
Defined.

Definition unregistered : string := frame "|queryresponse|userdetails|null".

Lemma unregistered_reply_rejects_witness :
  outcome (scenario ([online "alice"]
                     ++ Inbound A unregistered :: [online "carol"]))
  = Rejected (Value (rejection_of "Unregistered username in queue."
                       unregistered)).
Proof.
  refine (proj1 (unregistered_reply_rejects JSON.parse botA botB
                   no_frames lookups_sent two_candidates started
                   [online "alice"] [online "carol"] unregistered JNull
                   battle_two_candidates _ _ _)).
  - vm_compute. reflexivity.
  - unfold lookup_reply. cbv zeta.
    split; [vm_compute; reflexivity|].
    split; [vm_compute; reflexivity|].
    exists "null". split; vm_compute; reflexivity.
  - reflexivity.
Defined.

Lemma players_step_ignores_the_rest_witness :
  battle_step JSON.parse botA botB (scenario [online "alice"])
    (Inbound B (details "carol" "{}"))
  = scenario [online "alice"].
Proof.
  refine (proj1 (players_step_ignores_the_rest JSON.parse botA botB
                   no_frames lookups_sent two_candidates started
                   [online "alice"] (details "carol" "{}")
                   battle_two_candidates _)).
  vm_compute. reflexivity.
Defined.

Lemma online_reply_confirms_witness :
  step (battle_step JSON.parse botA botB (scenario [online "alice"])
          (online "carol"))
  = AwaitChallenge.
Proof.
  destruct (online_reply_confirms JSON.parse botA botB
              no_frames lookups_sent two_candidates started
              [online "alice"] (details "carol" "{}")
              [("rooms", JObj []); ("name", JStr "carol")] "carol" Side2
              battle_two_candidates)
    as (_ & _ & H).
  - vm_compute. reflexivity.
  - unfold lookup_reply. cbv zeta.
    split; [vm_compute; reflexivity|].
    split; [vm_compute; reflexivity|].
    exists ("{" ++ escaped "name" ++ ":" ++ escaped "carol" ++ ","
            ++ escaped "rooms" ++ ":{}}").
    split; vm_compute; reflexivity.
  - reflexivity.
  - discriminate.
  - reflexivity.
  - split.
    + intros [H|[H|[]]]; discriminate.
    + left. reflexivity.
  - apply H. vm_compute. reflexivity.
Defined.

(** One user entered as the only candidate of both sides. *)
Definition alice_twice : jsval :=
  JObj [("message", JStr "35 Factory Format: idk");
        ("chalcode", JStr "gen9nationaldex35pokes");
        ("side1", side_of (JStr "packed1") (JArr [JStr "alice"]));
        ("side2", side_of (JStr "packed2") (JArr [JStr "alice"]))].

Definition alice_twice_sent : wires :=
  {| sent0 := [msgToRaw "|/cmd userdetails alice";
               msgToRaw "|/cmd userdetails alice"];
     sent1 := [] |}.

Definition alice_twice_started : world :=
  {| spec := {| message := "35 Factory Format: idk";
                chalcode := "gen9nationaldex35pokes";
                side1 := {| team := "packed1"; usernames := [JStr "alice"];
                            confirmed := JUndefined |};
                side2 := {| team := "packed2"; usernames := [JStr "alice"];
                            confirmed := JUndefined |} |};
     io := alice_twice_sent; step := AwaitPlayers;
     wait := awaitws; outcome := Pending; replay := Pending |}.

Lemma shadowed_side_is_never_confirmed_witness :
  confirmed (side2 (spec (battle_run JSON.parse botA botB alice_twice_started
                            [online "alice"; online "alice"])))
  = JUndefined
  /\ io (battle_run JSON.parse botA botB alice_twice_started
           [online "alice"; online "alice"])
     = alice_twice_sent.
Proof.
  destruct (shadowed_side_is_never_confirmed JSON.parse botA botB
              no_frames alice_twice_sent alice_twice alice_twice_started
              [online "alice"; online "alice"])
    as (H1 & _ & H2 & _).
  - reflexivity.
  - intros x Hx. exact Hx.
  - split; [exact H1 | exact H2].
Defined.

Lemma announced_battle_is_set_up_witness :
  step (battle_step JSON.parse botA botB
          (scenario [online "alice"; online "carol"; challenged])
          initialised)
  = AwaitEnd (">" ++ room_id).
Proof.
  destruct (announced_battle_is_set_up JSON.parse botA botB
              no_frames lookups_sent two_candidates started
              [online "alice"; online "carol"; challenged]
              (frame (init_payload room_id "\n|title|botA vs. botB\n"))
              battle_two_candidates)
    as (u1 & u2 & _ & _ & _ & _ & H & _).
  - vm_compute. reflexivity.
  - exists "|init|battle". repeat split; vm_compute; reflexivity.
  - etransitivity; [exact H | vm_compute; reflexivity].
Defined.

Lemma last_line_win_ends_battle_witness :
  step (battle_step JSON.parse botA botB
          (scenario [online "alice"; online "carol"; challenged; initialised])
          won)
  = AwaitReplay (">" ++ room_id).
Proof.
  destruct (last_line_win_ends_battle JSON.parse botA botB
              no_frames lookups_sent two_candidates started
              [online "alice"; online "carol"; challenged; initialised]
              (">" ++ room_id) (frame (">" ++ room_id ++ "\n|\n|win|alice"))
              battle_two_candidates)
    as (H & _ & _).
  - vm_compute. reflexivity.
  - apply H. exists "|win|alice". split; vm_compute; reflexivity.
Defined.

Lemma any_frame_ends_replay_wait_witness :
  replay (battle_step JSON.parse botA botB
            (scenario [online "alice"; online "carol"; challenged;
                       initialised; won])
            unrelated)
  = Resolved (href_of (frame "|pm| dave| botA|hello")).
Proof.
  refine (proj1 (any_frame_ends_replay_wait JSON.parse botA botB
                   no_frames lookups_sent two_candidates started
                   [online "alice"; online "carol"; challenged;
                    initialised; won]
                   (">" ++ room_id) (frame "|pm| dave| botA|hello")
                   battle_two_candidates _ _)).
  - vm_compute. reflexivity.
  - vm_compute. reflexivity.
Defined.

Lemma challenge_is_accepted_witness :
  step (battle_step JSON.parse botA botB
          (scenario [online "alice"; online "carol"]) challenged)
  = AwaitRoom.
Proof.
  destruct (challenge_is_accepted JSON.parse botA botB
              no_frames lookups_sent two_candidates started
              [online "alice"; online "carol"] "botA" "botB"
              (frame "|pm| botA| botB|/challenge gen9nationaldex35pokes|||")
              eq_refl eq_refl battle_two_candidates)
    as (H & _ & _).
  - vm_compute. reflexivity.
  - apply H.
    exists "", " "%char, " "%char, "/challenge gen9nationaldex35pokes",
           [""; ""; ""].
    split; vm_compute; reflexivity.
Defined.

Lemma connect_settles_by_its_chains_witness :
  signal_aborted
    (pool (connecting_two [SocketMessage 0 handshake;
                           FetchResponse 0 true refusal]))
  = true.
Proof.
  destruct (connect_settles_by_its_chains JSON.parse half 0 two_bots_pool
              [SocketMessage 0 handshake; FetchResponse 0 true refusal]
              eq_refl)
    as (_ & H & _).
  apply (H (Thrown (Error "Could not login botA: ;;Wrong password"))).
  vm_compute. reflexivity.
Defined.

Lemma handshake_starts_login_witness :
  connect_step JSON.parse (connecting_two [])
    (SocketMessage 0 (frame ("|challstr|" ++ "4|0123abcd")))
  = {| pool := pool (connecting_two []);
       stages := update 0 (fun _ => Fetching "4|0123abcd")
                   (stages (connecting_two []));
       all := all (connecting_two []) |}.
Proof.
  refine (proj1 (handshake_starts_login JSON.parse (connecting_two []) 0
                   _ _) "4|0123abcd").
  - vm_compute. reflexivity.
  - vm_compute. reflexivity.
Defined.

(** The body of an accepted login, its sentinel first. *)
Definition acceptance : string :=
  "]{" ++ quoted "actionsuccess" ++ ":true," ++ quoted "assertion" ++ ":"
       ++ quoted "botA,4,0123abcd" ++ "," ++ quoted "curuser" ++ ":{"
       ++ quoted "loggedin" ++ ":true}}".

Definition acceptance_decoded : jsval :=
  JObj [("curuser", JObj [("loggedin", JBool true)]);
        ("assertion", JStr "botA,4,0123abcd");
        ("actionsuccess", JBool true)].

Lemma accepted_login_sends_rename_witness :
  nth_error
    (stages (connect_step JSON.parse
               (connecting_two [SocketMessage 0 handshake])
               (FetchResponse 0 true acceptance))) 0
  = Some Connected.
Proof.
  destruct (accepted_login_sends_rename JSON.parse half 0 two_bots_pool
              [SocketMessage 0 handshake] 0 "4|0123abcd" acceptance
              "botA,4,0123abcd" acceptance_decoded eq_refl)
    as (b & id & sk & _ & _ & _ & H & _).
  - vm_compute. reflexivity.
  - vm_compute. reflexivity.
  - exists [("curuser", JObj [("loggedin", JBool true)]);
            ("assertion", JStr "botA,4,0123abcd");
            ("actionsuccess", JBool true)],
           [("loggedin", JBool true)].
    repeat split.
  - exact H.
Defined.

(** * [generateBattle], the caller of [battle]

    The helper checks that each side has candidates, fills in what the
    battle object lacks and hands it to [battle].  Its state is the list of
    battle-factory formats, whether the team generator exists (the helper
    was constructed with [bf]) and the pool of bots, [None] while [#psbots]
    is [null] and otherwise the sockets of its two connected bots. *)
Record MetagameHelper : Type := {
  metagamesBF : list string;
  generatorBF : bool;
  psbots : option wires
}.

Definition missing_battle_data : error := Error "Missing battle data.".

Definition invalid_format : error := Error "Invalid format".

Definition default_chalcode : string :=
  "gen9nationaldex35pokes @@@ +nduber, +ndag, +ndou, +nduubl, +nduu, +ndrubl, +ndru, +ndnfe, +ndlc".

(** [v === null || v === undefined]. *)
Definition nullish (v : jsval) : bool :=
  match v with JUndefined | JNull => true | _ => false end.

(** [v?.k] for the property names [side1], [side2], [usernames], [code] and
    [name]: [undefined] on [null] and [undefined], and on the values that
    have no such property. *)
Definition opt (v : jsval) (k : string) : jsval :=
  match v with JObj fields => lookup k fields | _ => JUndefined end.

(** [o.k = v] on a plain object. *)
Fixpoint assign (k : string) (v : jsval) (fields : list (string * jsval))
  : list (string * jsval) :=
  match fields with
  | [] => [(k, v)]
  | (k', v') :: rest =>
      if k' =? k then (k, v) :: rest else (k', v') :: assign k v rest
  end.

(** [o.k ??= rhs]: the right-hand side counts only when [o.k] is [null] or
    [undefined]. *)
Definition default_to (k : string) (rhs : completion jsval)
    (fields : list (string * jsval)) : completion (list (string * jsval)) :=
  if nullish (lookup k fields)
  then v <- rhs ;; Normal (assign k v fields)
  else Normal fields.

(** [this.#metagamesBF.includes(format)]. *)
Definition includes (l : list string) (v : jsval) : bool :=
  existsb (fun f => strict_eq (JStr f) v) l.

(** [ref?.code?.slice(10) ?? default]: [slice] is a method of strings and
    arrays only. *)
Definition chalcode_of (ref : jsval) : completion jsval :=
  match opt ref "code" with
  | JUndefined | JNull => Normal (JStr default_chalcode)
  | JStr s => Normal (JStr (slice s 10 None))
  | JArr items => Normal (JArr (skipn 10 items))
  | _ => Throw TypeError
  end.

(** [`35 Factory Format: ${ref?.name ?? "idk"}`]. *)
Definition message_of (ref : jsval) : jsval :=
  JStr ("35 Factory Format: "
        ++ ToString (if nullish (opt ref "name") then JStr "idk"
                     else opt ref "name")).

Section GenerateBattle.
(** What the host and the simulator decide: [x > 0] for an [x] that is a
    string, an array or an object; the first entry of the metagame stored
    under a group and a name ([name] is [None] when the format has no
    slash); and the packed team that the generator returns for a format,
    given how many teams it has generated before. *)
Variable gt0_host : jsval -> completion bool.
Variable ref_of : string -> option string -> jsval.
Variable packed_team : string -> nat -> string.

(** [x > 0]. *)
Definition gt0 (x : jsval) : completion bool :=
  match x with
  | JUndefined | JNull => Normal false
  | JBool b => Normal b
  | JNum z => Normal (0 <? z)%Z
  | _ => gt0_host x
  end.

(** [side?.usernames?.length > 0], [side] being [battle?.side1] or
    [battle?.side2]. *)
Definition has_items (side : jsval) : completion bool :=
  match opt side "usernames" with
  | JArr items => Normal (negb (List.length items =? 0)%nat)
  | JStr s => Normal (negb (s =? ""))
  | JObj fields => gt0 (lookup "length" fields)
  | _ => Normal false
  end.

Definition getRandomBF (h : MetagameHelper) (random : nat -> draw)
    (cursor : nat) : jsval * nat :=
  let index :=
    floor_times (random cursor) (Z.of_nat (List.length (metagamesBF h))) in
  (if (index <? 0)%Z then JUndefined
   else match nth_error (metagamesBF h) (Z.to_nat index) with
        | Some f => JStr f
        | None => JUndefined
        end,
   S cursor).

(** [generateTeam(format, true)]; [teams] counts the teams generated. *)
Definition generateTeam (h : MetagameHelper) (format : jsval) (teams : nat)
  : completion (jsval * nat) :=
  if negb (includes (metagamesBF h) format) then Throw invalid_format
  else if negb (generatorBF h) then Throw TypeError
  else Normal (JStr (packed_team (ToString format) teams), S teams).

(** [side.team ??= this.generateTeam(battle.format, true)]; the guard has
    seen [usernames] on [side], which makes it an object. *)
Definition fill_team (h : MetagameHelper) (format : jsval) (teams : nat)
    (side : jsval) : completion (jsval * nat) :=
  match side with
  | JObj s =>
      if nullish (lookup "team" s)
      then t <- generateTeam h format teams ;;
           Normal (JObj (assign "team" (fst t) s), snd t)
      else Normal (side, teams)
  | _ => Throw TypeError
  end.

(** The body of [generateBattle] up to its [return]: the battle object as
    it is handed to [battle], and the counters.  Past the guard the battle
    is an object, the guard having seen [side1] on it. *)
Definition prepare (h : MetagameHelper) (random : nat -> draw)
    (cursor teams : nat) (battle_ : jsval) : completion (jsval * nat * nat) :=
  a <- has_items (opt battle_ "side1") ;;
  if negb a then Throw missing_battle_data
  else
    b <- has_items (opt battle_ "side2") ;;
    if negb b then Throw missing_battle_data
    else
      match battle_ with
      | JObj fields =>
          (* [battle.format ??= this.getRandomBF()] *)
          let drawn := getRandomBF h random cursor in
          let absent := nullish (lookup "format" fields) in
          let fields1 :=
            if absent then assign "format" (fst drawn) fields else fields in
          let cursor1 := if absent then snd drawn else cursor in
          match lookup "format" fields1 with
          | JStr f =>
              let pieces := split "/" f in
              let ref := ref_of (found (at_ pieces 0) "") (at_ pieces 1) in
              fields2 <- default_to "chalcode" (chalcode_of ref) fields1 ;;
              fields3 <- default_to "message" (Normal (message_of ref))
                           fields2 ;;
              s1 <- fill_team h (JStr f) teams (lookup "side1" fields3) ;;
              let fields4 := assign "side1" (fst s1) fields3 in
              s2 <- fill_team h (JStr f) (snd s1) (lookup "side2" fields4) ;;
              let fields5 := assign "side2" (fst s2) fields4 in
              Normal (JObj fields5, cursor1, snd s2)
          | _ => Throw TypeError
          end
      | _ => Throw TypeError
      end.

(** [generateBattle]: the pool after the call and what the call returns
    or throws. *)
Definition generateBattle (h : MetagameHelper) (random : nat -> draw)
    (cursor teams : nat) (battle_ : jsval)
  : option wires * completion world :=
  match prepare h random cursor teams battle_ with
  | Throw e => (psbots h, Throw e)
  | Normal (arg, _, _) =>
      match psbots h with
      | None => (None, Throw TypeError)
      | Some io0 =>
          let (io1, r) := battle io0 arg in (Some io1, r)
      end
  end.
End GenerateBattle.

(** ** [generateBattle]: properties *)

Lemma lookup_assign_same k v fields : lookup k (assign k v fields) = v.
Proof.
  induction fields as [|[k' v'] rest IH]; simpl.
  - now rewrite String.eqb_refl.
  - destruct (String.eqb_spec k' k) as [->|Hne]; simpl.
    + now rewrite String.eqb_refl.
    + destruct (String.eqb_spec k' k); [contradiction | exact IH].
Qed.

Lemma lookup_assign_other k k' v fields :
  k' <> k -> lookup k' (assign k v fields) = lookup k' fields.
Proof.
  intros Hne. induction fields as [|[k0 v0] rest IH]; simpl.
  - destruct (String.eqb_spec k k'); [congruence | reflexivity].
  - destruct (String.eqb_spec k0 k) as [->|Hk]; simpl.
    + destruct (String.eqb_spec k k'); [congruence | reflexivity].
    + destruct (String.eqb_spec k0 k'); [reflexivity | exact IH].
Qed.

Lemma lookup_assign_id k k' fields :
  lookup k' (assign k (lookup k fields) fields) = lookup k' fields.
Proof.
  destruct (string_dec k' k) as [->|Hne].
  - apply lookup_assign_same.
  - now apply lookup_assign_other.
Qed.

Lemma check_side_ext s s' :
  (forall k, lookup k s' = lookup k s) ->
  check_side (JObj s') = check_side (JObj s).
Proof. intros H. unfold check_side. simpl. now rewrite !H. Qed.

Lemma check_ext fields fields' :
  lookup "message" fields' = lookup "message" fields ->
  lookup "chalcode" fields' = lookup "chalcode" fields ->
  check_side (lookup "side1" fields') = check_side (lookup "side1" fields) ->
  check_side (lookup "side2" fields') = check_side (lookup "side2" fields) ->
  check (JObj fields') = check (JObj fields).
Proof.
  intros Hm Hc H1 H2. unfold check. simpl. now rewrite Hm, Hc, H1, H2.
Qed.

Section GenerateBattleFacts.
Variable gt0_host : jsval -> completion bool.
Variable ref_of : string -> option string -> jsval.
Variable packed_team : string -> nat -> string.

Local Abbreviation has_items_ := (has_items gt0_host).
Local Abbreviation prepare_ := (prepare gt0_host ref_of packed_team).
Local Abbreviation generateBattle_ :=
  (generateBattle gt0_host ref_of packed_team).
Local Abbreviation fill_team_ := (fill_team packed_team).

Lemma has_items_object side :
  has_items_ side = Normal true ->
  exists s, side = JObj s
            /\ forall items, lookup "usernames" s = JArr items -> items <> [].
Proof.
  unfold has_items. destruct side as [| | | | | |s|]; simpl; try discriminate.
  intros H. exists s. split; [reflexivity|]. intros items Hi.
  rewrite Hi in H. injection H as H. now destruct items.
Qed.

Lemma has_items_array s items :
  lookup "usernames" s = JArr items -> items <> [] ->
  has_items_ (JObj s) = Normal true.
Proof.
  intros H Hne. unfold has_items. simpl. rewrite H. now destruct items.
Qed.

Lemma fill_team_spec h f t side side' t' :
  fill_team_ h f t side = Normal (side', t') ->
  exists s s',
    side = JObj s /\ side' = JObj s'
    /\ (forall k, k <> "team" -> lookup k s' = lookup k s)
    /\ (nullish (lookup "team" s) = false -> s' = s /\ t' = t)
    /\ (nullish (lookup "team" s) = true ->
        includes (metagamesBF h) f = true /\ generatorBF h = true
        /\ lookup "team" s' = JStr (packed_team (ToString f) t)
        /\ t' = S t).
Proof.
  unfold fill_team. destruct side as [| | | | | |s|]; try discriminate.
  destruct (nullish (lookup "team" s)) eqn:Hn.
  - unfold generateTeam.
    destruct (includes (metagamesBF h) f); [|discriminate].
    destruct (generatorBF h); [|discriminate]. simpl.
    intros [= <- <-]. exists s. eexists.
    split; [reflexivity|]. split; [reflexivity|].
    split; [intros k Hk; now apply lookup_assign_other|].
    split; [congruence|]. intros _.
    repeat split. apply lookup_assign_same.
  - intros [= <- <-]. exists s, s.
    split; [reflexivity|]. split; [reflexivity|].
    split; [reflexivity|]. split; [auto | congruence].
Qed.

Lemma default_to_spec k rhs fields fields' :
  default_to k rhs fields = Normal fields' ->
  (forall k', k' <> k -> lookup k' fields' = lookup k' fields)
  /\ (nullish (lookup k fields) = false -> fields' = fields)
  /\ (nullish (lookup k fields) = true -> rhs = Normal (lookup k fields')).
Proof.
  unfold default_to. destruct (nullish (lookup k fields)) eqn:Hn.
  - destruct rhs as [v|e]; [|discriminate]. simpl. intros [= <-].
    split; [intros k' Hk; now apply lookup_assign_other|].
    split; [congruence|]. intros _. now rewrite lookup_assign_same.
  - intros [= <-]. split; [reflexivity|]. split; [auto | congruence].
Qed.

(** What a prepared battle object has of the one that was passed in. *)
Lemma prepare_spec h random cursor teams arg arg' cursor' teams' :
  prepare_ h random cursor teams arg = Normal (arg', cursor', teams') ->
  exists fields fields' s1 s1' s2 s2',
    arg = JObj fields /\ arg' = JObj fields'
    /\ has_items_ (lookup "side1" fields) = Normal true
    /\ has_items_ (lookup "side2" fields) = Normal true
    /\ lookup "side1" fields = JObj s1 /\ lookup "side1" fields' = JObj s1'
    /\ lookup "side2" fields = JObj s2 /\ lookup "side2" fields' = JObj s2'
    /\ (forall k, k <> "team" -> lookup k s1' = lookup k s1)
    /\ (forall k, k <> "team" -> lookup k s2' = lookup k s2)
    /\ (nullish (lookup "team" s1) = false -> s1' = s1)
    /\ (nullish (lookup "team" s2) = false -> s2' = s2)
    /\ (nullish (lookup "message" fields) = false ->
        lookup "message" fields' = lookup "message" fields)
    /\ (nullish (lookup "chalcode" fields) = false ->
        lookup "chalcode" fields' = lookup "chalcode" fields).
Proof.
  unfold prepare.
  destruct (has_items_ (opt arg "side1")) as [[|]|] eqn:G1; cbn [bind negb];
    try discriminate.
  destruct (has_items_ (opt arg "side2")) as [[|]|] eqn:G2; cbn [bind negb];
    try discriminate.
  destruct arg as [| | | | | |fields|]; try discriminate.
  cbn [opt] in G1, G2. cbv beta iota zeta.
  set (fields1 := if nullish (lookup "format" fields)
                  then assign "format" (fst (getRandomBF h random cursor))
                         fields
                  else fields).
  assert (F1 : forall k, k <> "format" -> lookup k fields1 = lookup k fields).
  { intros k Hk. unfold fields1. destruct (nullish _); [|reflexivity].
    now apply lookup_assign_other. }
  destruct (lookup "format" fields1) as [| | | |f| | |]; try discriminate.
  destruct (default_to "chalcode" _ fields1) as [fields2|] eqn:D2;
    [|discriminate].
  apply default_to_spec in D2 as (F2 & K2 & _). cbn [bind].
  destruct (default_to "message" _ fields2) as [fields3|] eqn:D3;
    [|discriminate].
  apply default_to_spec in D3 as (F3 & K3 & _). cbn [bind].
  destruct (fill_team_ h (JStr f) teams (lookup "side1" fields3))
    as [[side1' t1]|] eqn:T1; [|discriminate].
  apply fill_team_spec in T1 as (s1 & s1' & E1 & -> & L1 & N1 & _).
  cbn [bind fst snd].
  destruct (fill_team_ h (JStr f) t1
              (lookup "side2" (assign "side1" (JObj s1') fields3)))
    as [[side2' t2]|] eqn:T2; [|discriminate].
  apply fill_team_spec in T2 as (s2 & s2' & E2 & -> & L2 & N2 & _).
  cbn [bind fst snd].
  intros [= <- <- <-].
  rewrite lookup_assign_other in E2 by discriminate.
  assert (S1 : lookup "side1" fields = JObj s1).
  { rewrite <- E1, F3, F2, F1 by discriminate. reflexivity. }
  assert (S2 : lookup "side2" fields = JObj s2).
  { rewrite <- E2, F3, F2, F1 by discriminate. reflexivity. }
  exists fields, (assign "side2" (JObj s2')
                    (assign "side1" (JObj s1') fields3)),
         s1, s1', s2, s2'.
  repeat split; auto.
  - rewrite lookup_assign_other by discriminate. apply lookup_assign_same.
  - apply lookup_assign_same.
  - intros H. now apply N1.
  - intros H. now apply N2.
  - intros H. rewrite !lookup_assign_other by discriminate.
    assert (H2 : nullish (lookup "message" fields2) = false).
    { rewrite F2, F1 by discriminate. exact H. }
    rewrite (K3 H2), F2, F1 by discriminate. reflexivity.
  - intros H. rewrite !lookup_assign_other, F3 by discriminate.
    assert (H1 : nullish (lookup "chalcode" fields1) = false).
    { rewrite F1 by discriminate. exact H. }
    rewrite (K2 H1), F1 by discriminate. reflexivity.
Qed.

(** X18.  [generateBattle] never starts a battle for a side without
    candidates.  Whenever it returns, [battle] has accepted the object and
    both candidate lists are non-empty; the pool existed and [battle] has
    sent one lookup for each candidate on the first socket.  And when the
    [usernames] of the first side is an empty array, or that of the second
    side while the first side has candidates, it throws the error "Missing
    battle data." and leaves the pool as it was. *)
Theorem generateBattle_needs_candidates
    (h : MetagameHelper) (random : nat -> draw) (cursor teams : nat)
    (arg : jsval) :
  (forall w,
     snd (generateBattle_ h random cursor teams arg) = Normal w ->
     usernames (side1 (spec w)) <> []
     /\ usernames (side2 (spec w)) <> []
     /\ opt (opt arg "side1") "usernames" = JArr (usernames (side1 (spec w)))
     /\ opt (opt arg "side2") "usernames" = JArr (usernames (side2 (spec w)))
     /\ exists io0,
          psbots h = Some io0
          /\ fst (generateBattle_ h random cursor teams arg) = Some (io w)
          /\ sent0 (io w)
             = (sent0 io0 ++ map userdetails (usernames (side1 (spec w)))
                 ++ map userdetails (usernames (side2 (spec w))))%list
          /\ sent1 (io w) = sent1 io0)
  /\ (opt (opt arg "side1") "usernames" = JArr []
      \/ (has_items_ (opt arg "side1") = Normal true
          /\ opt (opt arg "side2") "usernames" = JArr []) ->
      generateBattle_ h random cursor teams arg
      = (psbots h, Throw (Error "Missing battle data."))).
Proof.
  split.
  - intros w. unfold generateBattle.
    destruct (prepare_ h random cursor teams arg) as [[[arg' c'] t']|]
      eqn:Hprep; [|discriminate].
    destruct (psbots h) as [io0|]; [|discriminate].
    apply prepare_spec in Hprep
      as (fields & fields' & s1 & s1' & s2 & s2' & -> & -> & G1 & G2
          & S1 & S1' & S2 & S2' & L1 & L2 & _).
    unfold battle. destruct (check (JObj fields')) as [b|] eqn:Hc;
      [|discriminate].
    simpl. intros [= <-]. simpl.
    apply check_iff in Hc as (fs & [= <-] & _ & _ & A1 & A2).
    rewrite S1' in A1. rewrite S2' in A2.
    destruct A1 as (x1 & [= <-] & _ & U1 & _).
    destruct A2 as (x2 & [= <-] & _ & U2 & _).
    rewrite L1 in U1 by discriminate. rewrite L2 in U2 by discriminate.
    rewrite S1 in G1. rewrite S2 in G2.
    apply has_items_object in G1 as (y1 & [= <-] & N1).
    apply has_items_object in G2 as (y2 & [= <-] & N2).
    rewrite S1, S2. simpl.
    repeat split; auto.
    exists io0. repeat split; reflexivity.
  - intros H. unfold generateBattle, prepare.
    destruct H as [H|[H1 H2]].
    + unfold has_items at 1. rewrite H. reflexivity.
    + rewrite H1. simpl. unfold has_items at 1. rewrite H2. reflexivity.
Qed.

Lemma accepted_has_items arg b :
  accepted arg b ->
  usernames (side1 b) <> [] -> usernames (side2 b) <> [] ->
  has_items_ (opt arg "side1") = Normal true
  /\ has_items_ (opt arg "side2") = Normal true.
Proof.
  intros (fields & -> & _ & _ & (s1 & E1 & _ & U1 & _)
          & (s2 & E2 & _ & U2 & _)) N1 N2.
  cbn [opt]. rewrite E1, E2.
  split; eapply has_items_array; eauto.
Qed.

(** Writing to a property the value it has leaves the object as it is. *)
Lemma assign_lookup k v fields :
  lookup k fields = v -> v <> JUndefined -> assign k v fields = fields.
Proof.
  induction fields as [|[k' v'] rest IH]; simpl; intros H Hv.
  - now destruct Hv.
  - destruct (k' =? k) eqn:E.
    + apply String.eqb_eq in E. now subst.
    + f_equal. now apply IH.
Qed.

(** A battle object that has a string [format] and all that [battle]
    checks goes through [prepare] untouched: the object comes out as it
    went in, and so do the cursor of the random draws and the count of the
    teams generated. *)
Lemma prepare_complete h random cursor teams fields b f :
  accepted (JObj fields) b ->
  usernames (side1 b) <> [] -> usernames (side2 b) <> [] ->
  lookup "format" fields = JStr f ->
  prepare_ h random cursor teams (JObj fields)
  = Normal (JObj fields, cursor, teams).
Proof.
  intros Hacc N1 N2 Hf.
  destruct (accepted_has_items _ _ Hacc N1 N2) as [G1 G2].
  destruct Hacc as (fs & [= <-] & Hm & Hc & (s1 & E1 & T1 & _)
                    & (s2 & E2 & T2 & _)).
  unfold prepare. rewrite G1. cbn [bind negb]. rewrite G2.
  cbn [bind negb]. cbv beta iota zeta. rewrite Hf. cbn [nullish].
  rewrite Hf. unfold default_to. rewrite Hc. cbn [nullish bind].
  rewrite Hm. cbn [nullish bind].
  unfold fill_team. rewrite E1, T1. cbn [nullish bind fst snd].
  rewrite (assign_lookup "side1" (JObj s1) fields E1) by discriminate.
  rewrite E2, T2. cbn [nullish bind fst snd].
  rewrite (assign_lookup "side2" (JObj s2) fields E2) by discriminate.
  reflexivity.
Qed.

(** X19.  A battle object that already has a string [format] and all that
    [battle] checks, with candidates on both sides, is handed to [battle]
    as it is.  The body of [generateBattle] leaves the object as it was,
    reads no random number and generates no team: the cursor of the draws
    and the count of the teams come out as they went in.  The run that
    starts is the one [battle] starts for that object; without a pool the
    call throws a [TypeError].  And when the object has no [format] while
    no battle-factory format is loaded, the call throws a [TypeError]
    although nothing that [battle] needs is missing. *)
Theorem complete_battle_is_passed_on
    (h : MetagameHelper) (random : nat -> draw) (cursor teams : nat)
    (arg : jsval) (b : BattleSpec) :
  accepted arg b ->
  usernames (side1 b) <> [] -> usernames (side2 b) <> [] ->
  (forall f, opt arg "format" = JStr f ->
     prepare_ h random cursor teams arg = Normal (arg, cursor, teams)
     /\ generateBattle_ h random cursor teams arg
        = match psbots h with
          | Some io0 =>
              (Some (request_players b io0),
               Normal {| spec := b; io := request_players b io0;
                         step := AwaitPlayers; wait := awaitws;
                         outcome := Pending; replay := Pending |})
          | None => (None, Throw TypeError)
          end)
  /\ (nullish (opt arg "format") = true -> metagamesBF h = [] ->
      generateBattle_ h random cursor teams arg
      = (psbots h, Throw TypeError)).
Proof.
  intros Hacc N1 N2.
  destruct (accepted_has_items _ _ Hacc N1 N2) as [G1 G2].
  pose proof (proj2 (check_iff _ _) Hacc) as Hcheck.
  assert (Hobj : exists fields, arg = JObj fields).
  { destruct Hacc as (fields & -> & _). now exists fields. }
  destruct Hobj as [fields ->]. cbn [opt] in *. split.
  - intros f Hf.
    pose proof (prepare_complete h random cursor teams fields b f
                  Hacc N1 N2 Hf) as Hprep.
    split; [exact Hprep|].
    unfold generateBattle. rewrite Hprep.
    destruct (psbots h) as [io0|]; [|reflexivity].
    unfold battle. now rewrite Hcheck.
  - intros Hn Hbf. unfold generateBattle, prepare. cbn [opt].
    rewrite G1. cbn [bind negb]. rewrite G2. cbn [bind negb].
    cbv beta iota zeta. rewrite Hn. unfold getRandomBF. rewrite Hbf.
    cbn [List.length Z.of_nat fst snd]. rewrite lookup_assign_same.
    unfold floor_times. rewrite Z.mul_0_r. cbn [Z.div Z.div_eucl].
    reflexivity.
Qed.

(** X20.  A battle object that names only the candidates gets the rest
    filled in: the format is the battle-factory format at the index drawn,
    the chalcode is the code of the first entry of that metagame from its
    eleventh character on (the default chalcode when the entry has none),
    the message is "35 Factory Format: " followed by the name of the entry
    (by "idk" when it has none), and the teams of the first and the second
    side are the next two packed teams the generator returns for the
    format.  [battle] accepts the object and starts the run. *)
Theorem bare_battle_gets_defaults
    (h : MetagameHelper) (random : nat -> draw) (cursor teams : nat)
    (fields s1 s2 : list (string * jsval)) (us1 us2 : list jsval)
    (f c : string) (io0 : wires) :
  lookup "side1" fields = JObj s1 -> lookup "side2" fields = JObj s2 ->
  lookup "usernames" s1 = JArr us1 -> lookup "usernames" s2 = JArr us2 ->
  us1 <> [] -> us2 <> [] ->
  truthy (lookup "confirmed" s1) = false ->
  truthy (lookup "confirmed" s2) = false ->
  nullish (lookup "format" fields) = true ->
  nullish (lookup "chalcode" fields) = true ->
  nullish (lookup "message" fields) = true ->
  nullish (lookup "team" s1) = true -> nullish (lookup "team" s2) = true ->
  unit_interval (random cursor) ->
  nth_error (metagamesBF h)
    (Z.to_nat (floor_times (random cursor)
                 (Z.of_nat (List.length (metagamesBF h))))) = Some f ->
  generatorBF h = true -> psbots h = Some io0 ->
  let ref := ref_of (found (at_ (split "/" f) 0) "") (at_ (split "/" f) 1) in
  chalcode_of ref = Normal (JStr c) ->
  exists w,
    generateBattle_ h random cursor teams (JObj fields)
    = (Some (io w), Normal w)
    /\ spec w
       = {| message := "35 Factory Format: "
                       ++ ToString (if nullish (opt ref "name")
                                    then JStr "idk" else opt ref "name");
            chalcode := c;
            side1 := {| team := packed_team f teams; usernames := us1;
                        confirmed := lookup "confirmed" s1 |};
            side2 := {| team := packed_team f (S teams); usernames := us2;
                        confirmed := lookup "confirmed" s2 |} |}
    /\ io w = request_players (spec w) io0
    /\ step w = AwaitPlayers.
Proof.
  intros E1 E2 U1 U2 N1 N2 C1 C2 Hf Hc Hm T1 T2 Hunit Hnth Hgen Hpool ref
         Hcode.
  assert (G1 : has_items_ (JObj s1) = Normal true)
    by (eapply has_items_array; eauto).
  assert (G2 : has_items_ (JObj s2) = Normal true)
    by (eapply has_items_array; eauto).
  assert (Hdraw : fst (getRandomBF h random cursor) = JStr f).
  { unfold getRandomBF. cbn [fst].
    pose proof (Z.ltb_spec0
                  (floor_times (random cursor)
                     (Z.of_nat (List.length (metagamesBF h)))) 0) as Hlt.
    destruct Hlt as [Hneg|_]; [|now rewrite Hnth].
    exfalso. unfold unit_interval in Hunit. unfold floor_times in Hneg.
    assert (0 <= num (random cursor)
                 * Z.of_nat (List.length (metagamesBF h))
                 / den (random cursor))%Z by (apply Z.div_pos; nia).
    lia. }
  assert (Hin : includes (metagamesBF h) (JStr f) = true).
  { unfold includes. apply existsb_exists. exists f.
    split; [eapply nth_error_In; eauto | simpl; apply String.eqb_refl]. }
  set (fields1 := assign "format" (JStr f) fields).
  set (fields2 := assign "chalcode" (JStr c) fields1).
  set (fields3 := assign "message" (message_of ref) fields2).
  set (s1' := assign "team" (JStr (packed_team f teams)) s1).
  set (s2' := assign "team" (JStr (packed_team f (S teams))) s2).
  set (fields4 := assign "side1" (JObj s1') fields3).
  set (fields5 := assign "side2" (JObj s2') fields4).
  assert (Hprep : prepare_ h random cursor teams (JObj fields)
                  = Normal (JObj fields5, S cursor, S (S teams))).
  { unfold prepare. cbn [opt]. rewrite E1, G1. cbn [bind negb].
    rewrite E2, G2. cbn [bind negb]. cbv beta iota zeta.
    rewrite Hf, Hdraw. fold fields1.
    unfold fields1 at 1. rewrite lookup_assign_same.
    fold ref. unfold default_to.
    replace (lookup "chalcode" fields1) with (lookup "chalcode" fields)
      by (unfold fields1; now rewrite lookup_assign_other by discriminate).
    rewrite Hc, Hcode. cbn [bind]. fold fields2.
    replace (lookup "message" fields2) with (lookup "message" fields)
      by (unfold fields2, fields1;
          now rewrite !lookup_assign_other by discriminate).
    rewrite Hm. cbn [bind]. fold fields3.
    replace (lookup "side1" fields3) with (JObj s1)
      by (unfold fields3, fields2, fields1;
          now rewrite !lookup_assign_other by discriminate).
    unfold fill_team, generateTeam. rewrite T1, Hin, Hgen.
    cbn [negb bind fst snd ToString]. fold s1'. fold fields4.
    replace (lookup "side2" fields4) with (JObj s2)
      by (unfold fields4, fields3, fields2, fields1;
          now rewrite !lookup_assign_other by discriminate).
    rewrite T2. cbn [negb bind fst snd ToString]. reflexivity. }
  set (b := {| message := "35 Factory Format: "
                          ++ ToString (if nullish (opt ref "name")
                                       then JStr "idk" else opt ref "name");
               chalcode := c;
               side1 := {| team := packed_team f teams; usernames := us1;
                           confirmed := lookup "confirmed" s1 |};
               side2 := {| team := packed_team f (S teams);
                           usernames := us2;
                           confirmed := lookup "confirmed" s2 |} |}).
  assert (Hcheck : check (JObj fields5) = Normal b).
  { apply check_iff. exists fields5. split; [reflexivity|].
    unfold fields5, fields4.
    rewrite !lookup_assign_same.
    rewrite !(lookup_assign_other "side2") by discriminate.
    rewrite !(lookup_assign_other "side1") by discriminate.
    rewrite lookup_assign_same.
    unfold fields3. rewrite lookup_assign_same.
    rewrite (lookup_assign_other "message") by discriminate.
    unfold fields2. rewrite lookup_assign_same.
    repeat split.
    - exists s1'. unfold s1'. cbn [team usernames confirmed side1 b].
      rewrite lookup_assign_same.
      rewrite !(lookup_assign_other "team") by discriminate. auto.
    - exists s2'. unfold s2'. cbn [team usernames confirmed side2 b].
      rewrite lookup_assign_same.
      rewrite !(lookup_assign_other "team") by discriminate. auto. }
  exists {| spec := b; io := request_players b io0; step := AwaitPlayers;
            wait := awaitws; outcome := Pending; replay := Pending |}.
  unfold generateBattle. rewrite Hprep, Hpool. unfold battle.
  rewrite Hcheck. cbn [spec io step]. auto.
Qed.
End GenerateBattleFacts.

(** ** Scenarios for [generateBattle] *)

(** A helper with one battle-factory format, its generator and a connected
    pool that has sent nothing. *)
Definition factory : MetagameHelper :=
  {| metagamesBF := ["2024/nov"]; generatorBF := true;
     psbots := Some no_frames |}.

(** The first entry of the metagame the format names. *)
Definition nov_entry (group : string) (name_ : option string) : jsval :=
  JObj [("name", JStr "Nov 2024"); ("header", JBool true);
        ("code", JStr "/challenge gen9nationaldex35pokes")].

Definition no_host (x : jsval) : completion bool := Normal false.

Definition packed (format : string) (n : nat) : string :=
  "team" ++ string_of_Z (Z.of_nat n).

(** The battle of the first scenario with its format named. *)
Definition complete_battle : jsval :=
  JObj [("format", JStr "2024/nov");
        ("message", JStr "35 Factory Format: idk");
        ("chalcode", JStr "gen9nationaldex35pokes");
        ("side1", side_of (JStr "packed1") (JArr [JStr "alice"; JStr "bob"]));
        ("side2", side_of (JStr "packed2") (JArr [JStr "carol"]))].

Lemma complete_battle_is_passed_on_witness :
  prepare no_host nov_entry packed factory half 0 0 complete_battle
  = Normal (complete_battle, 0, 0)
  /\ generateBattle no_host nov_entry packed factory half 0 0 complete_battle
     = (Some lookups_sent, Normal started).
Proof.
  refine (proj1 (complete_battle_is_passed_on no_host nov_entry packed
                   factory half 0 0 complete_battle two_candidates_spec
                   _ _ _) "2024/nov" eq_refl).
  - apply check_iff. reflexivity.
  - discriminate.
  - discriminate.
Defined.

(** A battle object that names the candidates and nothing else. *)
Definition bare_sides : list (string * jsval) :=
  [("side1", JObj [("usernames", JArr [JStr "alice"])]);
   ("side2", JObj [("usernames", JArr [JStr "carol"])])].

Lemma bare_battle_gets_defaults_witness :
  exists w,
    generateBattle no_host nov_entry packed factory half 0 0 (JObj bare_sides)
    = (Some (io w), Normal w)
    /\ chalcode (spec w) = " gen9nationaldex35pokes"
    /\ message (spec w) = "35 Factory Format: Nov 2024"
    /\ team (side1 (spec w)) = "team0" /\ team (side2 (spec w)) = "team1".
Proof.
  destruct (bare_battle_gets_defaults no_host nov_entry packed factory half
              0 0 bare_sides
              [("usernames", JArr [JStr "alice"])]
              [("usernames", JArr [JStr "carol"])]
              [JStr "alice"] [JStr "carol"] "2024/nov"
              " gen9nationaldex35pokes" no_frames)
    as (w & H1 & H2 & _); try reflexivity; try discriminate.
  - unfold unit_interval, half. simpl. lia.
  - exists w. split; [exact H1|]. rewrite H2. repeat split.
Defined.

(** * The link in the upload notice

    [/href="(.+?)"/.exec(msgraw)?.[1] ?? "this should not have happened"],
    the value the [replay] promise is resolved with. *)

Definition dq_unit : ascii := ascii_of_nat 34.

(** The text the pattern starts with. *)
Definition href_opening : string := "href=" ++ dq.

(** The pattern after its opening text: the group and the closing quote. *)
Definition link_regex : RegExp.regex :=
  RegExp.Seq
    (RegExp.Group 1 (RegExp.Seq (RegExp.PlusLazy RegExp.Any) RegExp.Empty))
    (RegExp.Seq (RegExp.Char dq_unit) RegExp.Empty).

Definition href_regex : RegExp.regex :=
  RegExp.Seq (RegExp.Char "h")
    (RegExp.Seq (RegExp.Char "r")
       (RegExp.Seq (RegExp.Char "e")
          (RegExp.Seq (RegExp.Char "f")
             (RegExp.Seq (RegExp.Char "=")
                (RegExp.Seq (RegExp.Char dq_unit) link_regex))))).

(** A unit that [.+?] takes without reaching the closing quote. *)
Definition inner_unit (c : ascii) : bool :=
  negb (Ascii.eqb dq_unit c) && negb (RegExp.line_terminator c).

Fixpoint inner (s : string) : bool :=
  match s with
  | EmptyString => true
  | String c t => inner_unit c && inner t
  end.

(** The loop of the lazy quantifier over [.], as [RegExp.m] runs it. *)
Definition lazy_more (k : RegExp.mstate -> option RegExp.mstate)
  : nat -> RegExp.mstate -> option RegExp.mstate :=
  fix more (fuel : nat) (cur : RegExp.mstate) {struct fuel}
    : option RegExp.mstate :=
    match k cur with
    | Some out => Some out
    | None =>
        match fuel with
        | O => None
        | S fuel' =>
            RegExp.m RegExp.Any cur (fun nxt =>
              if (RegExp.pos cur <? RegExp.pos nxt)%nat
              then more fuel' nxt
              else None)
        end
    end.

Lemma lazy_more_eq k fuel cur :
  lazy_more k fuel cur
  = match k cur with
    | Some out => Some out
    | None =>
        match fuel with
        | O => None
        | S fuel' =>
            RegExp.m RegExp.Any cur (fun nxt =>
              if (RegExp.pos cur <? RegExp.pos nxt)%nat
              then lazy_more k fuel' nxt
              else None)
        end
    end.
Proof. destruct fuel; reflexivity. Qed.

Lemma compile_href : RegExp.compile href_pattern = Normal href_regex.
Proof. vm_compute. reflexivity. Qed.

Lemma m_char c r st k :
  RegExp.m (RegExp.Seq (RegExp.Char c) r) st k
  = match RegExp.rest st with
    | String c' t =>
        if Ascii.eqb c c' then RegExp.m r (RegExp.advance st t) k else None
    | EmptyString => None
    end.
Proof. reflexivity. Qed.

Lemma prefix_nil t : prefix "" t = true.
Proof. now destruct t. Qed.

Lemma prefix_cons c s c' t :
  prefix (String c s) (String c' t)
  = if Ascii.eqb c c' then prefix s t else false.
Proof.
  cbn [prefix]. destruct (ascii_dec c c') as [->|Hne].
  - now rewrite Ascii.eqb_refl.
  - destruct (Ascii.eqb_spec c c'); [contradiction | reflexivity].
Qed.

Lemma prefix_enough n x y :
  String.length n <= String.length x -> prefix n (x ++ y) = prefix n x.
Proof.
  revert x. induction n as [|c n IH]; intros x Hlen.
  - now rewrite !prefix_nil.
  - destruct x as [|c' x]; simpl in Hlen; [lia|].
    change (String c' x ++ y) with (String c' (x ++ y)).
    rewrite !prefix_cons. destruct (Ascii.eqb c c'); [|reflexivity].
    apply IH. lia.
Qed.

(** A text as a pattern: one [Char] for each of its units, then [r]. *)
Fixpoint literal_then (text : string) (r : RegExp.regex) : RegExp.regex :=
  match text with
  | EmptyString => r
  | String c t => RegExp.Seq (RegExp.Char c) (literal_then t r)
  end.

Lemma href_regex_literal : href_regex = literal_then href_opening link_regex.
Proof. reflexivity. Qed.

(** Where the text does not start, the pattern fails. *)
Lemma m_literal_fails text r st k :
  prefix text (RegExp.rest st) = false ->
  RegExp.m (literal_then text r) st k = None.
Proof.
  revert st. induction text as [|c text IH]; intros st H.
  - now rewrite prefix_nil in H.
  - cbn [literal_then]. rewrite m_char.
    destruct (RegExp.rest st) as [|c' t]; [reflexivity|].
    rewrite prefix_cons in H. destruct (Ascii.eqb c c'); [|reflexivity].
    now apply IH.
Qed.

(** Where the text starts, the pattern goes on after it. *)
Lemma m_literal_passes text r t cs k :
  forall p,
    RegExp.m (literal_then text r)
      {| RegExp.pos := p; RegExp.rest := text ++ t; RegExp.caps := cs |} k
    = RegExp.m r
        {| RegExp.pos := String.length text + p; RegExp.rest := t;
           RegExp.caps := cs |} k.
Proof.
  induction text as [|c text IH]; intros p; [reflexivity|].
  cbn [literal_then append]. rewrite m_char. cbn [RegExp.rest].
  rewrite Ascii.eqb_refl. unfold RegExp.advance.
  cbn [RegExp.pos RegExp.caps]. rewrite IH. cbn [String.length].
  now replace (String.length text + S p) with (S (String.length text + p))
    by lia.
Qed.

Lemma m_no_opening st k :
  prefix href_opening (RegExp.rest st) = false ->
  RegExp.m href_regex st k = None.
Proof. rewrite href_regex_literal. apply m_literal_fails. Qed.

Lemma m_opening p t cs k :
  RegExp.m href_regex
    {| RegExp.pos := p; RegExp.rest := href_opening ++ t; RegExp.caps := cs |}
    k
  = RegExp.m link_regex
      {| RegExp.pos := 6 + p; RegExp.rest := t; RegExp.caps := cs |} k.
Proof. rewrite href_regex_literal. apply m_literal_passes. Qed.

Lemma m_any st k :
  RegExp.m RegExp.Any st k
  = match RegExp.rest st with
    | String c t =>
        if RegExp.line_terminator c then None else k (RegExp.advance st t)
    | EmptyString => None
    end.
Proof. reflexivity. Qed.

Lemma m_link st k :
  RegExp.m link_regex st k
  = RegExp.m RegExp.Any st (fun first =>
      lazy_more
        (fun st' =>
           RegExp.m (RegExp.Seq (RegExp.Char dq_unit) RegExp.Empty)
             (RegExp.set_cap 1
                (substring 0 (RegExp.pos st' - RegExp.pos st)
                   (RegExp.rest st)) st')
             k)
        (String.length (RegExp.rest first)) first).
Proof. reflexivity. Qed.

(** The lazy loop stops at the first quote. *)
Lemma lazy_more_scan p0 r0 u post :
  inner u = true ->
  forall fuel p cs,
    String.length u <= fuel ->
    lazy_more
      (fun st' =>
         RegExp.m (RegExp.Seq (RegExp.Char dq_unit) RegExp.Empty)
           (RegExp.set_cap 1 (substring 0 (RegExp.pos st' - p0) r0) st')
           Some)
      fuel
      {| RegExp.pos := p; RegExp.rest := u ++ String dq_unit post;
         RegExp.caps := cs |}
    = Some {| RegExp.pos := S (String.length u + p); RegExp.rest := post;
              RegExp.caps :=
                (1, substring 0 (String.length u + p - p0) r0) :: cs |}.
Proof.
  induction u as [|c u IH]; intros Hu fuel p cs Hfuel.
  - rewrite lazy_more_eq, m_char.
    cbn [RegExp.set_cap RegExp.rest RegExp.pos RegExp.caps append].
    rewrite Ascii.eqb_refl. reflexivity.
  - cbn [inner] in Hu. apply andb_true_iff in Hu as [Hc Hu].
    unfold inner_unit in Hc. apply andb_true_iff in Hc as [Hq Hl].
    apply negb_true_iff in Hq, Hl.
    destruct fuel as [|fuel]; [simpl in Hfuel; lia|].
    rewrite lazy_more_eq, m_char.
    cbn [RegExp.set_cap RegExp.rest RegExp.pos RegExp.caps append].
    rewrite Hq. rewrite m_any.
    cbn [RegExp.rest RegExp.advance RegExp.pos RegExp.caps].
    rewrite Hl. replace (p <? S p)%nat with true
      by (symmetry; apply Nat.ltb_lt; lia).
    unfold RegExp.advance. cbn [RegExp.pos RegExp.caps].
    rewrite IH by (auto; simpl in Hfuel; lia).
    cbn [String.length].
    now replace (String.length u + S p) with (S (String.length u) + p)
      by lia.
Qed.

(** From the opening text on: the group takes the link. *)
Lemma m_href_link p c0 u post :
  RegExp.line_terminator c0 = false -> inner u = true ->
  RegExp.m href_regex
    {| RegExp.pos := p;
       RegExp.rest := href_opening ++ String c0 u ++ String dq_unit post;
       RegExp.caps := [] |} Some
  = Some {| RegExp.pos := S (String.length u + S (6 + p));
            RegExp.rest := post;
            RegExp.caps := [(1, String c0 u)] |}.
Proof.
  intros Hc0 Hu. rewrite m_opening, m_link, m_any.
  cbn [RegExp.rest RegExp.advance RegExp.pos RegExp.caps append].
  rewrite Hc0.
  unfold RegExp.advance. cbn [RegExp.pos RegExp.caps RegExp.rest].
  rewrite (lazy_more_scan (6 + p)
             (String c0 (u ++ String dq_unit post)) u post Hu)
    by (rewrite length_append; lia).
  replace (String.length u + S (6 + p) - (6 + p))
    with (String.length (String c0 u)) by (simpl; lia).
  change (String c0 (u ++ String dq_unit post))
    with (String c0 u ++ String dq_unit post).
  now rewrite substring_prefix.
Qed.

Lemma exec_from_eq r p s :
  RegExp.exec_from r p s
  = match RegExp.m r {| RegExp.pos := p; RegExp.rest := s;
                        RegExp.caps := [] |} Some with
    | Some out => Some out
    | None =>
        match s with
        | String _ t => RegExp.exec_from r (S p) t
        | EmptyString => None
        end
    end.
Proof. destruct s; reflexivity. Qed.

Lemma exec_from_first_link pre c0 u post :
  (forall a b, pre = a ++ b -> b <> "" ->
               prefix href_opening (b ++ href_opening) = false) ->
  RegExp.line_terminator c0 = false -> inner u = true ->
  forall p,
    exists out,
      RegExp.exec_from href_regex p
        (pre ++ href_opening ++ String c0 u ++ String dq_unit post)
      = Some out
      /\ RegExp.caps out = [(1, String c0 u)].
Proof.
  intros Hpre Hc0 Hu. induction pre as [|c pre IH]; intros p.
  - change ("" ++ href_opening ++ String c0 u ++ String dq_unit post)
      with (href_opening ++ String c0 u ++ String dq_unit post).
    rewrite exec_from_eq, (m_href_link p c0 u post Hc0 Hu).
    eexists. split; reflexivity.
  - rewrite exec_from_eq, m_no_opening.
    + change (String c pre ++ href_opening ++ String c0 u
              ++ String dq_unit post)
        with (String c (pre ++ href_opening ++ String c0 u
                        ++ String dq_unit post)).
      apply IH. intros a b E Hb. apply (Hpre (String c a) b); [|exact Hb].
      now rewrite E.
    + cbn [RegExp.rest].
      replace (String c pre ++ href_opening ++ String c0 u
               ++ String dq_unit post)
        with ((String c pre ++ href_opening)
              ++ String c0 u ++ String dq_unit post)
        by (now rewrite append_assoc).
      rewrite prefix_enough.
      * apply (Hpre "" (String c pre)); [reflexivity | discriminate].
      * rewrite length_append. simpl. lia.
Qed.

Lemma exec_from_no_opening s :
  (forall a b, s = a ++ b -> prefix href_opening b = false) ->
  forall p, RegExp.exec_from href_regex p s = None.
Proof.
  induction s as [|c s IH]; intros Hs p; rewrite exec_from_eq.
  - rewrite m_no_opening; [reflexivity|]. apply (Hs "" ""). reflexivity.
  - rewrite m_no_opening by (apply (Hs "" (String c s)); reflexivity).
    apply IH. intros a b E. apply (Hs (String c a) b). now rewrite E.
Qed.

(** X21.  What the [replay] promise is resolved with.  In a frame whose
    first [href="] is followed by a link of at least one character, without
    line terminators and with no quote after its first character, and then
    by a quote, the pattern finds that link, whatever precedes the [href]
    and follows the closing quote.  In a frame in which [href="] occurs
    nowhere, as when every quote is escaped, the fallback text is
    returned. *)
Theorem href_of_finds_first_link :
  (forall pre c0 u post,
     (forall a b, pre = a ++ b -> b <> "" ->
                  prefix ("href=" ++ dq) (b ++ "href=" ++ dq) = false) ->
     RegExp.line_terminator c0 = false -> inner u = true ->
     href_of (pre ++ "href=" ++ dq ++ String c0 u ++ dq ++ post)
     = String c0 u)
  /\ (forall s,
        (forall a b, s = a ++ b -> prefix ("href=" ++ dq) b = false) ->
        href_of s = "this should not have happened").
Proof.
  split.
  - intros pre c0 u post Hpre Hc0 Hu. unfold href_of.
    rewrite compile_href. unfold RegExp.exec.
    destruct (exec_from_first_link pre c0 u post Hpre Hc0 Hu 0)
      as (out & Hexec & Hcaps).
    change (pre ++ "href=" ++ dq ++ String c0 u ++ dq ++ post)
      with (pre ++ href_opening ++ String c0 u ++ String dq_unit post).
    now rewrite Hexec, Hcaps.
  - intros s Hs. unfold href_of. rewrite compile_href. unfold RegExp.exec.
    now rewrite (exec_from_no_opening s Hs 0).
Qed.

(** * The frames a run has sent *)

Section SentFrames.
Variables name0 name1 : jsval.

(** The frames of each [then] of [battle], by socket. *)
Definition challenge0 (b : BattleSpec) : list string :=
  [msgToRaw ("|/utm " ++ team (side1 b));
   msgToRaw ("|/challenge " ++ ToString name1 ++ ", " ++ chalcode b)].

Definition challenge1 (b : BattleSpec) : list string :=
  [msgToRaw ("|/utm " ++ team (side2 b))].

Definition accept1 : list string :=
  [msgToRaw ("|/accept " ++ ToString name0)].

Definition setup0 (b : BattleSpec) (room : string) : list string :=
  [msgToRaw (slice room 1 None ++ "|" ++ message b);
   msgToRaw (slice room 1 None ++ "|/timer on");
   msgToRaw (slice room 1 None ++ "|/leavebattle");
   msgToRaw (slice room 1 None ++ "|/addplayer "
             ++ ToString (confirmed (side1 b)) ++ ", p1")].

Definition setup1 (b : BattleSpec) (room : string) : list string :=
  [msgToRaw (slice room 1 None ++ "|/timer on");
   msgToRaw (slice room 1 None ++ "|/leavebattle");
   msgToRaw (slice room 1 None ++ "|/addplayer "
             ++ ToString (confirmed (side2 b)) ++ ", p2");
   msgToRaw ("|/noreply /leave " ++ slice room 1 None)].

Definition savereplay0 (room : string) : list string :=
  [msgToRaw (slice room 1 None ++ "|/savereplay")].

(** What a run has sent on each socket, after the lookups, when it waits in
    a step. *)
Definition frames0 (b : BattleSpec) (p : phase) : list string :=
  match p with
  | AwaitPlayers | Over => []
  | AwaitChallenge | AwaitRoom => challenge0 b
  | AwaitEnd room => challenge0 b ++ setup0 b room
  | AwaitReplay room => challenge0 b ++ setup0 b room ++ savereplay0 room
  end.

Definition frames1 (b : BattleSpec) (p : phase) : list string :=
  match p with
  | AwaitPlayers | Over => []
  | AwaitChallenge => challenge1 b
  | AwaitRoom => challenge1 b ++ accept1
  | AwaitEnd room | AwaitReplay room => challenge1 b ++ accept1 ++ setup1 b room
  end.

Definition sent_by (b : BattleSpec) (io1 : wires) (p : phase) : wires :=
  {| sent0 := sent0 io1 ++ frames0 b p; sent1 := sent1 io1 ++ frames1 b p |}.

(** A run that waits has sent the frames of its step; a run that is over
    has sent the frames of the step in which it ended, and the command
    leaving the room when it ended with the link. *)
Definition frames_ok (io1 : wires) (w : world) : Prop :=
  match step w with
  | Over =>
      (exists p, io w = sent_by (spec w) io1 p)
      \/ (exists room,
            io w = send0 (leave room)
                     (sent_by (spec w) io1 (AwaitReplay room)))
  | p => io w = sent_by (spec w) io1 p
  end.
End SentFrames.

Section SentFramesFacts.
Variable JSON_parse : string -> completion jsval.
Variables name0 name1 : jsval.

Local Abbreviation step_ := (battle_step JSON_parse name0 name1).
Local Abbreviation run_ := (battle_run JSON_parse name0 name1).
Local Abbreviation react_ := (react name0 name1).
Local Abbreviation sent_by_ := (sent_by name0 name1).
Local Abbreviation frames_ok_ := (frames_ok name0 name1).

Lemma wires_eq (a b : wires) :
  sent0 a = sent0 b -> sent1 a = sent1 b -> a = b.
Proof. destruct a, b. simpl. now intros -> ->. Qed.

Lemma react_frames io1 w sw :
  frames_ok_ io1 w ->
  (step w <> AwaitPlayers -> fst sw = spec w) ->
  frames_ok_ io1 (react_ (with_wait w sw)).
Proof.
  unfold frames_ok, react, with_wait. cbn [wait promise step spec io].
  intros H Hspec.
  assert (Hstart : sent_by_ (fst sw) io1 AwaitPlayers
                   = sent_by_ (spec w) io1 AwaitPlayers) by reflexivity.
  destruct (promise (snd sw)) as [|data|r].
  - cbn [step spec io].
    destruct (step w) eqn:E; try (rewrite Hspec by discriminate; exact H).
    exact H.
  - destruct (step w) eqn:E;
      [ | rewrite Hspec by discriminate .. ].
    + unfold then_challenge. cbn [step spec io]. rewrite H.
      apply wires_eq; unfold send0, send1, sent_by; simpl;
        now rewrite ?app_nil_r, <- ?app_assoc.
    + unfold then_accept. cbn [step spec io]. rewrite H.
      apply wires_eq; unfold send0, send1, sent_by; simpl;
        now rewrite <- ?app_assoc.
    + unfold then_started. cbn [step spec io]. rewrite H.
      apply wires_eq; unfold send0, send1, sent_by, leave; simpl;
        now rewrite <- ?app_assoc.
    + unfold then_savereplay. cbn [step spec io]. rewrite H.
      apply wires_eq; unfold send0, send1, sent_by; simpl;
        now rewrite <- ?app_assoc.
    + unfold then_link. cbn [step spec io]. rewrite H. right.
      now exists room.
    + cbn [step spec io]. exact H.
  - unfold then_rejected. cbn [step spec io].
    destruct (step w) eqn:E; cbn [step spec io];
      try (rewrite Hspec by discriminate);
      try (left; eexists; exact H).
    + left. exists AwaitPlayers. rewrite H. reflexivity.
    + exact H.
Qed.

Lemma step_frames io1 w e : frames_ok_ io1 w -> frames_ok_ io1 (step_ w e).
Proof.
  intros H. destruct e as [c data|k]; simpl.
  - destruct (listens_on (step w)) as [c'|]; [|exact H].
    destruct (same_conn c c'); [|exact H].
    apply react_frames; [exact H|]. intros Hs.
    destruct (on_message_spec JSON_parse name0 name1 (step w) (spec w)
                (wait w) data) as [E|E]; rewrite E; [reflexivity|].
    now apply predicate_keeps_spec.
  - destruct (call_index (step w)) as [k'|]; [|exact H].
    destruct (k =? k')%nat; [|exact H].
    apply react_frames; [exact H | reflexivity].
Qed.

(** The step in which a run ended, its last step before [Over], or the
    step it waits in when it has not ended. *)
Fixpoint ended_in (w : world) (es : list battle_event) : phase :=
  match es with
  | [] => step w
  | e :: es' =>
      match step (step_ w e) with
      | Over => step w
      | _ => ended_in (step_ w e) es'
      end
  end.

(** What a run has sent when [p] is the step it waits in or ended in: the
    frames of [p], and the command leaving the room when the [replay]
    promise is resolved. *)
Definition sent_in (io1 : wires) (w : world) (p : phase) : wires :=
  match replay w, p with
  | Resolved _, AwaitReplay room =>
      send0 (leave room) (sent_by_ (spec w) io1 p)
  | _, _ => sent_by_ (spec w) io1 p
  end.

Lemma live_waits w :
  phase_ok w -> step w <> Over -> replay w = Pending.
Proof. unfold phase_ok. destruct (step w); tauto. Qed.

(** The reaction that ends a run. *)
Lemma react_ends io1 w sw :
  replay w = Pending ->
  io w = sent_by_ (spec w) io1 (step w) ->
  (step w <> AwaitPlayers -> fst sw = spec w) ->
  step (react_ (with_wait w sw)) = Over ->
  step w <> Over ->
  match replay (react_ (with_wait w sw)) with
  | Resolved _ =>
      exists room,
        step w = AwaitReplay room
        /\ io (react_ (with_wait w sw))
           = send0 (leave room)
               (sent_by_ (spec (react_ (with_wait w sw))) io1 (step w))
  | _ => io (react_ (with_wait w sw))
         = sent_by_ (spec (react_ (with_wait w sw))) io1 (step w)
  end.
Proof.
  unfold react, with_wait. cbn [wait promise step spec io replay].
  intros Hrep H Hspec.
  destruct (promise (snd sw)) as [|data|r].
  - cbn [step]. intros Hs Hn. now destruct Hn.
  - destruct (step w) eqn:E; try discriminate.
    + intros _ _. unfold then_link. cbn [step spec io replay].
      rewrite Hrep. cbn [res]. exists room. split; [reflexivity|].
      rewrite Hspec by discriminate. now rewrite H.
    + intros _ Hn. now destruct Hn.
  - unfold then_rejected. cbn [step].
    destruct (step w) eqn:E; cbn [step spec io replay]; intros _ Hn;
      rewrite ?Hrep; cbn [rej]; try (now destruct Hn);
      try (rewrite Hspec by discriminate); exact H.
Qed.

Lemma step_ends io1 w e :
  phase_ok w -> step w <> Over ->
  io w = sent_by_ (spec w) io1 (step w) ->
  step (step_ w e) = Over ->
  match replay (step_ w e) with
  | Resolved _ =>
      exists room,
        step w = AwaitReplay room
        /\ io (step_ w e)
           = send0 (leave room) (sent_by_ (spec (step_ w e)) io1 (step w))
  | _ => io (step_ w e) = sent_by_ (spec (step_ w e)) io1 (step w)
  end.
Proof.
  intros Hok Hn H. pose proof (live_waits w Hok Hn) as Hrep.
  destruct e as [c data|k]; unfold battle_step.
  - destruct (listens_on (step w)) as [c'|]; [|intros Hs; now destruct Hn].
    destruct (same_conn c c'); [|intros Hs; now destruct Hn].
    intros Hs. apply react_ends; auto. intros Hp.
    destruct (on_message_spec JSON_parse name0 name1 (step w) (spec w)
                (wait w) data) as [E|E]; rewrite E; [reflexivity|].
    now apply predicate_keeps_spec.
  - destruct (call_index (step w)) as [k'|]; [|intros Hs; now destruct Hn].
    destruct (k =? k')%nat; [|intros Hs; now destruct Hn].
    intros Hs. apply react_ends; auto.
Qed.

Lemma run_sent io1 es :
  forall w,
    phase_ok w -> step w <> Over ->
    io w = sent_by_ (spec w) io1 (step w) ->
    ended_in w es <> Over
    /\ (step (run_ w es) <> Over -> step (run_ w es) = ended_in w es)
    /\ io (run_ w es) = sent_in io1 (run_ w es) (ended_in w es)
    /\ (forall link,
          replay (run_ w es) = Resolved link ->
          step (run_ w es) = Over
          /\ exists room, ended_in w es = AwaitReplay room).
Proof.
  induction es as [|e es IH]; intros w Hok Hn H.
  - cbn [ended_in battle_run fold_left]. unfold sent_in.
    rewrite (live_waits w Hok Hn).
    split; [exact Hn|]. split; [reflexivity|]. split; [exact H|].
    discriminate.
  - change (run_ w (e :: es)) with (run_ (step_ w e) es).
    cbn [ended_in].
    destruct (step (step_ w e)) eqn:Ev.
    6: { rewrite (run_over JSON_parse name0 name1 es (step_ w e) Ev).
         pose proof (step_ends io1 w e Hok Hn H Ev) as Hend.
         unfold sent_in. split; [exact Hn|].
         split; [intros Hs; now destruct Hs|].
         destruct (replay (step_ w e)) as [|link|r].
         - split; [exact Hend | discriminate].
         - destruct Hend as (room & Hr & Hio). rewrite Hr in *.
           split; [exact Hio|]. intros link' _. split; [exact Ev|].
           now exists room.
         - split; [exact Hend | discriminate]. }
    all: apply IH;
      [ now apply step_ok
      | rewrite Ev; discriminate
      | pose proof (step_frames io1 w e) as Hf;
        unfold frames_ok in Hf; rewrite Ev in Hf; rewrite Ev;
        apply Hf; destruct (step w); [exact H ..| now destruct Hn] ].
Qed.

(** X22.  What a run of [battle] has sent is determined by the step it
    waits in or, when it is over, by the step in which it ended.  While it
    waits for the players it has sent the lookups only; from then on the
    first socket has been sent the team of the first side and the
    challenge, the second socket the team of the second side, then the
    accept command, then each socket its room commands, then the first
    socket the command saving the replay, in that order and nothing else.
    A run that is over has sent what the step it ended in had sent, and
    after that the command leaving the room when its [replay] promise is
    resolved, which happens only to a run that ended waiting for the upload
    notice. *)
Theorem sent_frames_follow_the_step
    (wires0 io1 : wires) (arg : jsval) (w0 : world)
    (es : list battle_event) :
  battle wires0 arg = (io1, Normal w0) ->
  let w := run_ w0 es in
  let p := ended_in w0 es in
  p <> Over
  /\ (step w <> Over -> step w = p)
  /\ io w = match replay w, p with
            | Resolved _, AwaitReplay room =>
                send0 (leave room) (sent_by_ (spec w) io1 p)
            | _, _ => sent_by_ (spec w) io1 p
            end
  /\ (forall link,
        replay w = Resolved link ->
        step w = Over /\ exists room, p = AwaitReplay room).
Proof.
  intros Hb w p.
  pose proof (battle_starts wires0 arg io1 w0 Hb)
    as (_ & Hs0 & Hw0 & Ho0 & Hr0 & Hio0 & _).
  apply (run_sent io1 es w0).
  - unfold phase_ok. rewrite Hs0. auto.
  - rewrite Hs0. discriminate.
  - rewrite Hs0, Hio0. unfold sent_by. simpl.
    destruct io1. simpl. now rewrite !app_nil_r.
Qed.
End SentFramesFacts.

Lemma sent_frames_follow_the_step_witness :
  io (scenario [online "alice"; online "carol"; challenged; TimerOf 2;
                initialised])
  = sent_by botA botB
      (spec (scenario [online "alice"; online "carol"; challenged;
                       TimerOf 2; initialised]))
      lookups_sent AwaitRoom.
Proof.
  pose proof (sent_frames_follow_the_step JSON.parse botA botB
                no_frames lookups_sent two_candidates started
                [online "alice"; online "carol"; challenged; TimerOf 2;
                 initialised]
                battle_two_candidates) as H.
  cbv zeta in H. destruct H as (_ & _ & H & _).
  etransitivity; [exact H|].
  vm_compute. reflexivity.
Defined.

(** * A socket error during [connect] *)

Section SocketErrorFacts.
Variable JSON_parse : string -> completion jsval.

Local Abbreviation cstep := (connect_step JSON_parse).
Local Abbreviation crun := (connect_run JSON_parse).

Lemma run_snoc c es e : crun c (es ++ [e]) = cstep (crun c es) e.
Proof. unfold connect_run. now rewrite fold_left_app. Qed.

(** X23.  An [error] event on any socket, while the signal is not aborted,
    shuts the pool down: the signal is aborted and every socket is closed.
    It fails no chain and does not settle the promise of [connect].  A
    login request in flight still completes: when its response passes the
    check and every other chain has resolved, the pending promise is
    resolved with "=== ALL CONNECTED ===", with the signal aborted and no
    socket open. *)
Theorem socket_error_closes_without_rejecting
    (random : nat -> draw) (cursor : nat) (p : PSBots) (es : list event)
    (i : nat) :
  signal_aborted p = false ->
  let c := crun (fst (connect random cursor p)) es in
  i < List.length (stages c) ->
  signal_aborted (pool c) = false ->
  let c1 := cstep c (SocketError i) in
  signal_aborted (pool c1) = true
  /\ (forall j, is_open (pool c1) j = false)
  /\ all c1 = all c
  /\ stages c1 = stages c
  /\ (forall j challstr text r assertion,
        nth_error (stages c) j = Some (Fetching challstr) ->
        JSON_parse (slice text 1 None) = Normal r ->
        login_accepted r assertion ->
        (forall k s, k <> j -> nth_error (stages c) k = Some s ->
                     s = Connected) ->
        all c = Pending ->
        let c2 := cstep c1 (FetchResponse j true text) in
        all c2 = Resolved "=== ALL CONNECTED ==="
        /\ signal_aborted (pool c2) = true
        /\ forall k, is_open (pool c2) k = false).
Proof.
  intros Ha c Hi Hlive c1.
  destruct (crun_invariants JSON_parse random cursor p es Ha)
    as ((Hsock & Hlen & Hall) & Hseal & Hwired & _).
  fold c in Hsock, Hlen, Hall, Hseal, Hwired.
  assert (Hc1 : c1 = {| pool := shutdown (pool c); stages := stages c;
                        all := all c |}).
  { unfold c1. simpl.
    destruct (nth_error (stages c) i) eqn:E.
    - now rewrite Hlive.
    - apply nth_error_None in E. lia. }
  destruct (crun_invariants JSON_parse random cursor p
              (es ++ [SocketError i]) Ha)
    as (Hok1 & Hseal1 & Hwired1 & _).
  rewrite run_snoc in Hok1, Hseal1, Hwired1. fold c c1 in Hok1, Hseal1, Hwired1.
  assert (Hab1 : signal_aborted (pool c1) = true).
  { rewrite Hc1. simpl. now apply shutdown_aborts. }
  split; [exact Hab1|]. split; [exact (Hseal1 Hab1)|].
  split; [now rewrite Hc1|]. split; [now rewrite Hc1|].
  intros j challstr text r assertion Hj Hparse Hacc Hothers Hpending c2.
  assert (Hab2 : signal_aborted (pool c2) = true)
    by (apply cstep_stays_aborted; exact Hab1).
  assert (Hseal2 : sealed (pool c2)) by (apply cstep_sealed; assumption).
  split; [|split; [exact Hab2 | exact (Hseal2 Hab2)]].
  assert (Hj1 : nth_error (stages c1) j = Some (Fetching challstr))
    by (now rewrite Hc1).
  destruct (nth_error (bots (pool c1)) j) as [b|] eqn:Hb.
  2:{ apply nth_error_None in Hb. destruct Hok1 as (_ & Hlen1 & _).
      assert (j < List.length (stages c1))
        by (apply nth_error_Some; congruence). lia. }
  destruct (Hwired1 j b Hb) as (id & Hid & _).
  assert (Hr : login_refused r = Normal false).
  { apply login_accepted_iff. now exists assertion. }
  unfold c2. simpl. rewrite Hj1, Hb, Hparse. unfold logged_in.
  rewrite Hr, Hid. cbn [all]. unfold join.
  assert (Hf : forallb is_connected
                 (update j (fun _ => Connected) (stages c1)) = true).
  { apply forallb_forall. intros s Hin.
    apply In_nth_error in Hin as [k Hk].
    destruct (Nat.eq_dec k j) as [->|Hne].
    - rewrite (nth_error_update_same (fun _ => Connected) _ _ _ Hj1) in Hk.
      now injection Hk as <-.
    - rewrite nth_error_update_other in Hk by exact Hne.
      rewrite Hc1 in Hk. simpl in Hk. now rewrite (Hothers k s Hne Hk). }
  rewrite Hf. rewrite Hc1. simpl. now rewrite Hpending.
Qed.
End SocketErrorFacts.

Lemma socket_error_closes_without_rejecting_witness :
  all (connecting_two [SocketMessage 0 handshake; SocketError 1]) = Pending
  /\ signal_aborted
       (pool (connecting_two [SocketMessage 0 handshake; SocketError 1]))
     = true.
Proof.
  destruct (socket_error_closes_without_rejecting JSON.parse half 0
              two_bots_pool [SocketMessage 0 handshake] 1 eq_refl)
    as (H1 & _ & H2 & _).
  - vm_compute. lia.
  - vm_compute. reflexivity.
  - split; [|exact H1].
    etransitivity; [exact H2 | vm_compute; reflexivity].
Defined.

Lemma href_of_finds_first_link_witness :
  href_of ("<a " ++ "href=" ++ dq
           ++ String "h"%char "ttps://replay.pokemonshowdown.com/x-1" ++ dq
           ++ " target=_blank>")
  = "https://replay.pokemonshowdown.com/x-1".
Proof.
  apply (proj1 href_of_finds_first_link "<a " "h"%char
           "ttps://replay.pokemonshowdown.com/x-1" " target=_blank>").
  - intros a b E Hb.
    destruct a as [|c1 a]; simpl in E; [subst b; reflexivity|].
    injection E as _ E.
    destruct a as [|c2 a]; simpl in E; [subst b; reflexivity|].
    injection E as _ E.
    destruct a as [|c3 a]; simpl in E; [subst b; reflexivity|].
    injection E as _ E.
    destruct a; simpl in E; [now subst b | discriminate].
  - reflexivity.
  - reflexivity.
Defined.

(** * The choreography of the earlier version

    In the earlier version [battle] returns one promise and hands its [res]
    and [rej] from listener to listener: [L_BATTLE1] on the first socket
    waits for the players, [L_BATTLE2] on the second for the challenge,
    [L_BATTLE3] on the first for the room.  Each listener is attached with
    a controller of its own, aborted when the listener is done, and each
    arms a timer that is never cleared. *)
Module EarlierBattle.

(** The battle object: whatever the caller passed under each name. *)
Record Side : Type := {
  team : jsval;
  usernames : jsval;
  confirmed : jsval
}.

Record Battle : Type := {
  message : jsval;
  chalcode : jsval;
  side1 : Side;
  side2 : Side
}.

Definition side_of_value (s : jsval) : Side :=
  {| team := field s "team"; usernames := field s "usernames";
     confirmed := field s "confirmed" |}.

Definition battle_of (arg : jsval) : Battle :=
  {| message := field arg "message"; chalcode := field arg "chalcode";
     side1 := side_of_value (field arg "side1");
     side2 := side_of_value (field arg "side2") |}.

(** [for(const user of v)]: an array yields its elements and a string its
    units; no other value is iterable. *)
Definition iterate (v : jsval) : completion (list jsval) :=
  match v with
  | JArr items => Normal items
  | JStr s => Normal (map (fun c => JStr (String c "")) (list_ascii_of_string s))
  | _ => Throw TypeError
  end.

(** The receiver of [v.find(...)]: only an array has [find]. *)
Definition candidates (v : jsval) : completion (list jsval) :=
  match v with
  | JArr items => Normal items
  | _ => Throw TypeError
  end.

Inductive listener_id : Type := L1 | L2 | L3.

(** A run: the battle object, the frames sent, the listener attached (at
    most one at a time), the number of timers armed, and the promise. *)
Record world : Type := {
  spec : Battle;
  io : wires;
  listening : option listener_id;
  timers : nat;
  outcome : settlement string
}.

Definition no_response : reason := Value (JStr "No response from showdown.").

Definition invalid_argument : reason :=
  Value (JStr "Invalid data in argument.").

(** One loop of lookups on the first socket. *)
Definition lookups (users : list jsval) (io0 : wires) : wires :=
  {| sent0 := sent0 io0 ++ map userdetails users; sent1 := sent1 io0 |}.

(** The promise executor of [battle].  An exception thrown in it rejects
    the promise; one thrown after [rej] has been called changes nothing. *)
Definition battle (io0 : wires) (arg : jsval) : world :=
  let b := battle_of arg in
  match Earlier.refused arg with
  | Throw e =>
      {| spec := b; io := io0; listening := None; timers := 0;
         outcome := Rejected (Thrown e) |}
  | Normal true =>
      {| spec := b; io := io0; listening := None; timers := 0;
         outcome := Rejected invalid_argument |}
  | Normal false =>
      match iterate (usernames (side1 b)) with
      | Throw e =>
          {| spec := b; io := io0; listening := Some L1; timers := 0;
             outcome := Rejected (Thrown e) |}
      | Normal users1 =>
          match iterate (usernames (side2 b)) with
          | Throw e =>
              {| spec := b; io := lookups users1 io0; listening := Some L1;
                 timers := 0; outcome := Rejected (Thrown e) |}
          | Normal users2 =>
              {| spec := b; io := lookups users2 (lookups users1 io0);
                 listening := Some L1; timers := 1; outcome := Pending |}
          end
      end
  end.

(** What a listener does with a message. *)
Inductive verdict : Type :=
| Ignore
| Reject (why : string)
| Proceed.

Definition set_confirmed (s : Side) (v : jsval) : Side :=
  {| team := team s; usernames := usernames s; confirmed := v |}.

Section Run.
Variable JSON_parse : string -> completion jsval.
Variables name0 name1 : jsval.

(** [L_BATTLE1] up to its sends; an exception leaves the listener before
    anything is written. *)
Definition L_BATTLE1 (b : Battle) (data_ : string)
  : completion (Battle * verdict) :=
  let msg := slice data_ 3 (Some (-2)%Z) in
  let data := split "|" msg in
  if negb (is_ (at_ data 1) "queryresponse")
     || negb (is_ (at_ data 2) "userdetails")
  then Normal (b, Ignore)
  else
    match at_ data 3 with
    | None => Throw TypeError
    | Some d3 =>
        details <- JSON_parse (replaceAll "\" "" d3) ;;
        if falsy details
        then Normal (b, Reject "Unregistered username in queue.")
        else
          let dname := field details "name" in
          let same := fun x => strict_eq x dname in
          users1 <- candidates (usernames (side1 b)) ;;
          let foundUser1 := found (find_ same users1) JUndefined in
          foundUser <-
            (if truthy foundUser1 then Normal foundUser1
             else users2 <- candidates (usernames (side2 b)) ;;
                  Normal (found (find_ same users2) JUndefined)) ;;
          if falsy foundUser then Normal (b, Ignore)
          else if falsy (field details "rooms")
          then Normal (b, Reject ("User is offline: " ++ ToString dname))
          else
            let b' :=
              if truthy foundUser1
              then {| message := message b; chalcode := chalcode b;
                      side1 := set_confirmed (side1 b) foundUser;
                      side2 := side2 b |}
              else {| message := message b; chalcode := chalcode b;
                      side1 := side1 b;
                      side2 := set_confirmed (side2 b) foundUser |} in
            if falsy (confirmed (side1 b')) || falsy (confirmed (side2 b'))
            then Normal (b', Ignore)
            else Normal (b', Proceed)
    end.

(** The condition of [L_BATTLE2]: whether it goes on. *)
Definition L_BATTLE2 (data_ : string) : completion bool :=
  let msg := slice data_ 3 (Some (-2)%Z) in
  let data := split "|" msg in
  if negb (is_ (at_ data 1) "pm") then Normal false
  else
    match at_ data 2 with
    | None => Throw TypeError
    | Some d2 =>
        if negb (strict_eq (JStr (slice d2 1 None)) name0) then Normal false
        else
          match at_ data 3 with
          | None => Throw TypeError
          | Some d3 =>
              if negb (strict_eq (JStr (slice d3 1 None)) name1)
              then Normal false
              else
                match at_ data 4 with
                | None => Throw TypeError
                | Some d4 => Normal (startsWith d4 "/challenge ")
                end
          end
    end.

(** The condition of [L_BATTLE3]: the room when it goes on. *)
Definition L_BATTLE3 (data_ : string) : option string :=
  let msg := slice data_ 3 (Some (-2)%Z) in
  match at_ (split "\n" msg) 1 with
  | None | Some "" => None
  | Some line =>
      let data := split "|" line in
      if negb (is_ (at_ data 1) "init") || negb (is_ (at_ data 2) "battle")
      then None
      else Some (room_of data_)
  end.

Definition utm0 (b : Battle) : string :=
  msgToRaw ("|/utm " ++ ToString (team (side1 b))).

Definition utm1 (b : Battle) : string :=
  msgToRaw ("|/utm " ++ ToString (team (side2 b))).

Definition challenge (b : Battle) : string :=
  msgToRaw ("|/challenge " ++ ToString name1 ++ ", "
            ++ ToString (chalcode b)).

Definition accept : string := msgToRaw ("|/accept " ++ ToString name0).

Definition timer_on (room : string) : string :=
  msgToRaw (slice room 1 None ++ "|/timer on").

Definition announce (b : Battle) (room : string) : string :=
  msgToRaw (slice room 1 None ++ "|" ++ ToString (message b)).

Definition same_listener (a b : listener_id) : bool :=
  match a, b with L1, L1 | L2, L2 | L3, L3 => true | _, _ => false end.

(** The listener whose controller the [k]-th timer aborts. *)
Definition listener_of (k : nat) : option listener_id :=
  match k with 1 => Some L1 | 2 => Some L2 | 3 => Some L3 | _ => None end.

Definition detach (k : nat) (l : option listener_id) : option listener_id :=
  match l, listener_of k with
  | Some a, Some b => if same_listener a b then None else l
  | _, _ => l
  end.

(** One event: a message on a socket, or the [k]-th timer armed. *)
Definition step (w : world) (e : battle_event) : world :=
  match e with
  | Inbound c data_ =>
      match listening w, c with
      | Some L1, A =>
          match L_BATTLE1 (spec w) data_ with
          | Throw _ => w
          | Normal (b, Ignore) =>
              {| spec := b; io := io w; listening := listening w;
                 timers := timers w; outcome := outcome w |}
          | Normal (b, Reject why) =>
              {| spec := b; io := io w; listening := None;
                 timers := timers w;
                 outcome := rej (Value (JStr why)) (outcome w) |}
          | Normal (b, Proceed) =>
              {| spec := b;
                 io := send0 (challenge b)
                         (send1 (utm1 b) (send0 (utm0 b) (io w)));
                 listening := Some L2; timers := 2;
                 outcome := outcome w |}
          end
      | Some L2, B =>
          match L_BATTLE2 data_ with
          | Normal true =>
              {| spec := spec w; io := send1 accept (io w);
                 listening := Some L3; timers := 3;
                 outcome := outcome w |}
          | _ => w
          end
      | Some L3, A =>
          match L_BATTLE3 data_ with
          | Some room =>
              {| spec := spec w;
                 io := send0 (announce (spec w) room)
                         (send1 (timer_on room)
                            (send0 (timer_on room) (io w)));
                 listening := None; timers := timers w;
                 outcome := res (base_url ++ slice room 1 None)
                              (outcome w) |}
          | None => w
          end
      | _, _ => w
      end
  | TimerOf k =>
      if (1 <=? k)%nat && (k <=? timers w)%nat
      then {| spec := spec w; io := io w;
              listening := detach k (listening w);
              timers := timers w;
              outcome := rej no_response (outcome w) |}
      else w
  end.

Definition run (w : world) (es : list battle_event) : world :=
  fold_left step es w.
End Run.

End EarlierBattle.

(** ** The earlier choreography: properties *)

Section EarlierBattleFacts.
Import EarlierBattle.
Variable JSON_parse : string -> completion jsval.
Variables name0 name1 : jsval.

Local Abbreviation estep := (EarlierBattle.step JSON_parse name0 name1).
Local Abbreviation erun := (EarlierBattle.run JSON_parse name0 name1).
Local Abbreviation L_BATTLE1_ := (EarlierBattle.L_BATTLE1 JSON_parse).
Local Abbreviation L_BATTLE2_ := (EarlierBattle.L_BATTLE2 name0 name1).

(** The listener attached is the one of the timer armed last. *)
Definition in_step (w : EarlierBattle.world) : Prop :=
  match EarlierBattle.listening w with
  | Some L1 => EarlierBattle.timers w = 1
  | Some L2 => EarlierBattle.timers w = 2
  | Some L3 => EarlierBattle.timers w = 3
  | None => 1 <= EarlierBattle.timers w <= 3
  end.

(** [L_BATTLE1] writes [confirmed] and nothing else. *)
Definition same_but_confirmed (b b' : Battle) : Prop :=
  EarlierBattle.message b' = EarlierBattle.message b
  /\ EarlierBattle.chalcode b' = EarlierBattle.chalcode b
  /\ EarlierBattle.team (EarlierBattle.side1 b')
     = EarlierBattle.team (EarlierBattle.side1 b)
  /\ EarlierBattle.team (EarlierBattle.side2 b')
     = EarlierBattle.team (EarlierBattle.side2 b)
  /\ EarlierBattle.usernames (EarlierBattle.side1 b')
     = EarlierBattle.usernames (EarlierBattle.side1 b)
  /\ EarlierBattle.usernames (EarlierBattle.side2 b')
     = EarlierBattle.usernames (EarlierBattle.side2 b).

Lemma same_but_confirmed_refl b : same_but_confirmed b b.
Proof. unfold same_but_confirmed. auto 10. Qed.

Lemma L_BATTLE1_keeps b data b' v :
  L_BATTLE1_ b data = Normal (b', v) -> same_but_confirmed b b'.
Proof.
  unfold EarlierBattle.L_BATTLE1.
  destruct (negb _ || negb _);
    [intros [= <- _]; apply same_but_confirmed_refl|].
  destruct (at_ _ 3) as [d3|]; [|discriminate].
  destruct (JSON_parse _) as [details|]; [|discriminate]. cbn [bind].
  destruct (falsy details);
    [intros [= <- _]; apply same_but_confirmed_refl|].
  destruct (candidates (usernames (side1 b))) as [users1|]; [|discriminate].
  cbn [bind].
  match goal with
  | |- context [bind ?c _] => destruct c as [foundUser|]; [|discriminate]
  end.
  cbn [bind].
  destruct (falsy foundUser);
    [intros [= <- _]; apply same_but_confirmed_refl|].
  destruct (falsy (field details "rooms"));
    [intros [= <- _]; apply same_but_confirmed_refl|].
  match goal with
  | |- context [if truthy ?u then _ else _] => destruct (truthy u)
  end;
    match goal with
    | |- context [if ?c then _ else _] => destruct c
    end; intros [= <- _]; unfold same_but_confirmed; simpl; auto 10.
Qed.

Lemma estep_in_step w e : in_step w -> in_step (estep w e).
Proof.
  unfold in_step. intros H.
  destruct e as [c data|k]; unfold EarlierBattle.step.
  - destruct (listening w) as [[| |]|] eqn:El; destruct c; simpl;
      rewrite ?El; auto.
    + destruct (L_BATTLE1_ (spec w) data) as [[b [|why|]]|]; simpl;
        rewrite ?El; auto. lia.
    + destruct (L_BATTLE2_ data) as [[|]|]; simpl; rewrite ?El; auto.
    + destruct (L_BATTLE3 data) as [room|]; simpl; rewrite ?El; auto. lia.
  - destruct ((1 <=? k)%nat && (k <=? timers w)%nat) eqn:Hk; [|exact H].
    simpl. unfold detach.
    destruct (listening w) as [[| |]|] eqn:El;
      destruct (listener_of k) as [[| |]|]; simpl; lia.
Qed.

Lemma estep_settled w e :
  outcome w <> Pending -> outcome (estep w e) = outcome w.
Proof.
  intros H. destruct e as [c data|k]; unfold EarlierBattle.step.
  - destruct (listening w) as [[| |]|]; destruct c; try reflexivity.
    + destruct (L_BATTLE1_ (spec w) data) as [[b [|why|]]|]; simpl;
        try reflexivity.
      now apply rej_settled.
    + destruct (L_BATTLE2_ data) as [[|]|]; reflexivity.
    + destruct (L_BATTLE3 data) as [room|]; simpl; [|reflexivity].
      now apply res_settled.
  - destruct ((1 <=? k)%nat && (k <=? timers w)%nat); [|reflexivity].
    simpl. now apply rej_settled.
Qed.

Lemma erun_settled es w :
  outcome w <> Pending -> outcome (erun w es) = outcome w.
Proof.
  revert w. induction es as [|e es IH]; intros w H; simpl; [reflexivity|].
  rewrite IH; rewrite estep_settled; auto.
Qed.

Lemma erun_in_step es w : in_step w -> in_step (erun w es).
Proof.
  revert w. induction es as [|e es IH]; intros w H; simpl; [exact H|].
  apply IH. now apply estep_in_step.
Qed.

Lemma battle_pending io0 arg :
  outcome (EarlierBattle.battle io0 arg) = Pending ->
  exists users1 users2,
    iterate (usernames (side1 (battle_of arg))) = Normal users1
    /\ iterate (usernames (side2 (battle_of arg))) = Normal users2
    /\ EarlierBattle.battle io0 arg
       = {| spec := battle_of arg;
            io := lookups users2 (lookups users1 io0);
            listening := Some L1; timers := 1; outcome := Pending |}.
Proof.
  unfold EarlierBattle.battle.
  destruct (Earlier.refused arg) as [[|]|]; try discriminate.
  destruct (iterate (usernames (side1 (battle_of arg)))) as [users1|];
    [|discriminate].
  destruct (iterate (usernames (side2 (battle_of arg)))) as [users2|];
    [|discriminate].
  intros _. exists users1, users2. auto.
Qed.

(** X24.  In the earlier version the timer armed by [battle] itself is
    never cleared: thirty seconds after the call it rejects the promise
    with "No response from showdown." if the battle has not started by
    then, however far the run has got.  It sends nothing and detaches the
    listener of the first step only; a run that has got further goes on
    with its promise rejected: it still accepts the challenge and still
    sets the room up. *)
Theorem earlier_first_timer_rejects_a_run_in_progress
    (io0 : wires) (arg : jsval) (es : list battle_event) :
  outcome (EarlierBattle.battle io0 arg) = Pending ->
  let w := erun (EarlierBattle.battle io0 arg) es in
  outcome w = Pending ->
  let w' := estep w (TimerOf 1) in
  outcome w' = Rejected (Value (JStr "No response from showdown."))
  /\ io w' = io w /\ spec w' = spec w
  /\ listening w'
     = match listening w with Some L1 => None | l => l end
  /\ (forall later,
        outcome (erun w' later)
        = Rejected (Value (JStr "No response from showdown.")))
  /\ (forall data,
        listening w = Some L2 -> L_BATTLE2_ data = Normal true ->
        listening (estep w' (Inbound B data)) = Some L3
        /\ io (estep w' (Inbound B data))
           = send1 (accept name0) (io w))
  /\ (forall data room,
        listening w = Some L3 -> L_BATTLE3 data = Some room ->
        io (estep w' (Inbound A data))
        = send0 (announce (spec w) room)
            (send1 (timer_on room) (send0 (timer_on room) (io w)))
        /\ outcome (estep w' (Inbound A data))
           = Rejected (Value (JStr "No response from showdown."))).
Proof.
  intros H0 w Hpending w'.
  destruct (battle_pending io0 arg H0) as (users1 & users2 & _ & _ & Hstart).
  assert (Hin : in_step w).
  { apply erun_in_step. rewrite Hstart. reflexivity. }
  assert (Hk : ((1 <=? 1)%nat && (1 <=? timers w)%nat) = true).
  { unfold in_step in Hin. apply andb_true_iff. split; [reflexivity|].
    apply Nat.leb_le. destruct (listening w) as [[| |]|]; lia. }
  assert (Hw' : w' = {| spec := spec w; io := io w;
                        listening := detach 1 (listening w);
                        timers := timers w;
                        outcome := Rejected no_response |}).
  { unfold w', EarlierBattle.step. rewrite Hk, Hpending. reflexivity. }
  assert (Hl : detach 1 (listening w)
               = match listening w with Some L1 => None | l => l end).
  { unfold detach. simpl. now destruct (listening w) as [[| |]|]. }
  rewrite Hw'. cbn [outcome io spec listening].
  split; [reflexivity|]. split; [reflexivity|]. split; [reflexivity|].
  split; [exact Hl|]. split; [|split].
  - intros later. now rewrite erun_settled.
  - intros data El Hm. simpl. rewrite Hl, El. simpl. now rewrite Hm.
  - intros data room El Hm. simpl. rewrite Hl, El. simpl. now rewrite Hm.
Qed.

(** The frames of the earlier run after the lookups, by socket. *)
Definition earlier_challenge0 (b : Battle) : list string :=
  [utm0 b; challenge name1 b].

Definition earlier_challenge1 (b : Battle) : list string := [utm1 b].

Definition earlier_room0 (b : Battle) (room : string) : list string :=
  [timer_on room; announce b room].

Definition earlier_room1 (room : string) : list string := [timer_on room].

(** What a run has sent, by how many timers it has armed: the lookups;
    then the teams and the challenge; then the accept command, and the room
    commands once [L_BATTLE3] has seen the room. *)
Definition earlier_frames_ok (io1 : wires) (w : EarlierBattle.world) : Prop :=
  match timers w with
  | 1 => io w = io1
  | 2 => sent0 (io w) = (sent0 io1 ++ earlier_challenge0 (spec w))%list
         /\ sent1 (io w) = (sent1 io1 ++ earlier_challenge1 (spec w))%list
  | 3 => (sent0 (io w) = (sent0 io1 ++ earlier_challenge0 (spec w))%list
          /\ sent1 (io w)
             = (sent1 io1 ++ earlier_challenge1 (spec w)
                ++ [accept name0])%list)
         \/ (exists room,
               sent0 (io w)
               = (sent0 io1 ++ earlier_challenge0 (spec w)
                  ++ earlier_room0 (spec w) room)%list
               /\ sent1 (io w)
                  = (sent1 io1 ++ earlier_challenge1 (spec w)
                     ++ [accept name0] ++ earlier_room1 room)%list
               /\ listening w = None)
  | _ => False
  end.

Lemma estep_frames io1 w e :
  in_step w -> earlier_frames_ok io1 w -> earlier_frames_ok io1 (estep w e).
Proof.
  intros Hin H.
  destruct e as [c data|k]; unfold EarlierBattle.step.
  - unfold in_step in Hin.
    destruct (listening w) as [[| |]|] eqn:El; destruct c; try exact H.
    + destruct (L_BATTLE1_ (spec w) data) as [[b [|why|]]|] eqn:E1;
        try exact H; unfold earlier_frames_ok in *;
        cbn [timers io spec listening]; rewrite Hin in *; try exact H.
      cbv beta iota in H. rewrite H. unfold send0, send1. cbn [sent0 sent1].
      unfold earlier_challenge0, earlier_challenge1.
      split; [now rewrite <- !app_assoc | reflexivity].
    + destruct (L_BATTLE2_ data) as [[|]|]; try exact H.
      unfold earlier_frames_ok in *.
      cbn [timers io spec listening]. rewrite Hin in H.
      cbv beta iota in H. destruct H as [H0 H1]. left.
      unfold send1. cbn [sent0 sent1].
      split; [exact H0|]. now rewrite H1, <- !app_assoc.
    + destruct (L_BATTLE3 data) as [room|]; [|exact H].
      unfold earlier_frames_ok in *.
      cbn [timers io spec listening]. rewrite Hin in *.
      cbv beta iota in H.
      destruct H as [[H0 H1]|(room' & _ & _ & Hl)]; [|congruence].
      right. exists room. unfold send0, send1. cbn [sent0 sent1].
      rewrite H0, H1. unfold earlier_room0, earlier_room1.
      split; [|split]; [| |reflexivity]; now rewrite <- ?app_assoc.
  - destruct ((1 <=? k)%nat && (k <=? timers w)%nat); [|exact H].
    unfold earlier_frames_ok in *.
    cbn [timers io spec listening].
    destruct (timers w) as [|[|[|[|n]]]]; try exact H.
    destruct H as [H|(room & H0 & H1 & Hl)]; [left; exact H|].
    right. exists room. split; [exact H0|]. split; [exact H1|].
    rewrite Hl. reflexivity.
Qed.

(** X25.  What a run of the earlier [battle] has sent is determined by how
    far it has got: the lookups, one per candidate, on the first socket;
    then the team of the first side and the challenge on the first socket
    and the team of the second side on the second; then the accept command
    on the second socket; then the timer command on both sockets and the
    message of the battle on the first.  It never sends anything else: no
    player is added to the room and no replay is asked for. *)
Theorem earlier_sent_frames_follow_the_timers
    (io0 : wires) (arg : jsval) (es : list battle_event) :
  outcome (EarlierBattle.battle io0 arg) = Pending ->
  let w0 := EarlierBattle.battle io0 arg in
  let w := erun w0 es in
  (exists users1 users2,
     iterate (usernames (side1 (spec w0))) = Normal users1
     /\ iterate (usernames (side2 (spec w0))) = Normal users2
     /\ sent0 (io w0)
        = (sent0 io0 ++ map userdetails users1
           ++ map userdetails users2)%list
     /\ sent1 (io w0) = sent1 io0)
  /\ match timers w with
     | 1 => io w = io w0
     | 2 => sent0 (io w)
            = (sent0 (io w0) ++ [utm0 (spec w); challenge name1 (spec w)])%list
            /\ sent1 (io w) = (sent1 (io w0) ++ [utm1 (spec w)])%list
     | 3 => (sent0 (io w)
             = (sent0 (io w0)
                ++ [utm0 (spec w); challenge name1 (spec w)])%list
             /\ sent1 (io w)
                = (sent1 (io w0) ++ [utm1 (spec w)] ++ [accept name0])%list)
            \/ (exists room,
                  sent0 (io w)
                  = (sent0 (io w0)
                     ++ [utm0 (spec w); challenge name1 (spec w)]
                     ++ [timer_on room; announce (spec w) room])%list
                  /\ sent1 (io w)
                     = (sent1 (io w0) ++ [utm1 (spec w)] ++ [accept name0]
                        ++ [timer_on room])%list
                  /\ listening w = None)
     | _ => False
     end.
Proof.
  intros H0 w0 w.
  destruct (battle_pending io0 arg H0) as (users1 & users2 & I1 & I2 & Hstart).
  split.
  - exists users1, users2. unfold w0. rewrite Hstart.
    cbn [spec io]. unfold lookups. cbn [sent0 sent1].
    repeat split; auto. now rewrite <- app_assoc.
  - assert (Hrun : forall l v,
              in_step v -> earlier_frames_ok (io w0) v ->
              earlier_frames_ok (io w0) (erun v l)).
    { induction l as [|e l IH]; intros v Hin Hv; simpl; [exact Hv|].
      apply IH; [now apply estep_in_step | now apply estep_frames]. }
    apply (Hrun es w0).
    + unfold w0. rewrite Hstart. reflexivity.
    + unfold w0, earlier_frames_ok. rewrite Hstart. reflexivity.
Qed.

(** Both sides have a confirmed player. *)
Definition both_confirmed (b : Battle) : Prop :=
  falsy (confirmed (side1 b)) = false /\ falsy (confirmed (side2 b)) = false.

Lemma L_BATTLE1_proceeds b data b' :
  L_BATTLE1_ b data = Normal (b', Proceed) -> both_confirmed b'.
Proof.
  unfold EarlierBattle.L_BATTLE1.
  destruct (negb _ || negb _); [discriminate|].
  destruct (at_ _ 3) as [d3|]; [|discriminate].
  destruct (JSON_parse _) as [details|]; [|discriminate]. cbn [bind].
  destruct (falsy details); [discriminate|].
  destruct (candidates (usernames (side1 b))) as [users1|]; [|discriminate].
  cbn [bind].
  match goal with
  | |- context [bind ?c _] => destruct c as [foundUser|]; [|discriminate]
  end.
  cbn [bind].
  destruct (falsy foundUser); [discriminate|].
  destruct (falsy (field details "rooms")); [discriminate|].
  match goal with
  | |- context [if truthy ?u then _ else _] => destruct (truthy u)
  end;
    match goal with
    | |- context [if ?c then _ else _] => destruct c eqn:E
    end; intros [= <-]; apply orb_false_iff in E; exact E.
Qed.

(** What holds of a run after the events [seen]: the sides are confirmed
    once the second timer is armed, and the promise is resolved by the room
    of a message seen only. *)
Definition resolved_by (seen : list battle_event) (w : EarlierBattle.world)
  : Prop :=
  (2 <= timers w -> both_confirmed (spec w))
  /\ (forall u, outcome w = Resolved u ->
        timers w = 3 /\ listening w = None
        /\ exists data room,
             In (Inbound A data) seen /\ L_BATTLE3 data = Some room
             /\ u = (base_url ++ slice room 1 None)%string).

Lemma rej_resolved {T : Type} (r : reason) (o : settlement T) u :
  rej r o = Resolved u -> o = Resolved u.
Proof. destruct o; simpl; congruence. Qed.

Lemma estep_resolved_by seen w e :
  in_step w -> resolved_by seen w ->
  resolved_by (seen ++ [e]) (estep w e).
Proof.
  intros Hin [Hc Hr].
  assert (Hsame : resolved_by (seen ++ [e]) w).
  { split; [exact Hc|]. intros u Hu.
    destruct (Hr u Hu) as (Ht & Hl & data & room & Hi & Hm & Eu).
    split; [exact Ht|]. split; [exact Hl|]. exists data, room.
    split; [apply in_or_app; now left|]. now split. }
  destruct e as [c data|k]; unfold EarlierBattle.step.
  - unfold in_step in Hin.
    destruct (listening w) as [[| |]|] eqn:El; destruct c; try exact Hsame.
    + destruct (L_BATTLE1_ (spec w) data) as [[b [|why|]]|] eqn:E1;
        try exact Hsame; split; cbn [timers io spec listening outcome].
      * rewrite Hin. lia.
      * intros u Hu. destruct (Hr u Hu) as (Ht & _). lia.
      * rewrite Hin. lia.
      * intros u Hu. apply rej_resolved in Hu.
        destruct (Hr u Hu) as (Ht & _). lia.
      * intros _. exact (L_BATTLE1_proceeds _ _ _ E1).
      * intros u Hu. destruct (Hr u Hu) as (Ht & _). lia.
    + destruct (L_BATTLE2_ data) as [[|]|]; try exact Hsame.
      split; cbn [timers io spec listening outcome].
      * intros _. apply Hc. lia.
      * intros u Hu. destruct (Hr u Hu) as (Ht & _). lia.
    + destruct (L_BATTLE3 data) as [room|] eqn:E3; [|exact Hsame].
      split; cbn [timers io spec listening outcome]; [exact Hc|].
      intros u Hu. split; [exact Hin|]. split; [reflexivity|].
      destruct (outcome w) as [|u'|r] eqn:Eo; unfold res in Hu.
      * exists data, room. split; [apply in_or_app; right; now left|].
        split; [exact E3|]. now injection Hu as <-.
      * destruct (Hr u' eq_refl) as (_ & Hl & _). congruence.
      * discriminate.
  - destruct ((1 <=? k)%nat && (k <=? timers w)%nat); [|exact Hsame].
    split; cbn [timers io spec listening outcome]; [exact Hc|].
    intros u Hu. apply rej_resolved in Hu.
    destruct (Hsame) as [_ Hr'].
    destruct (Hr' u Hu) as (Ht & Hl & Hex).
    split; [exact Ht|]. split; [|exact Hex].
    rewrite Hl. unfold detach. now destruct (listener_of k).
Qed.

Lemma erun_resolved_by es seen w :
  in_step w -> resolved_by seen w -> resolved_by (seen ++ es) (erun w es).
Proof.
  revert seen w. induction es as [|e es IH]; intros seen w Hin H.
  - now rewrite app_nil_r.
  - simpl. replace (seen ++ e :: es)%list with ((seen ++ [e]) ++ es)%list
      by (now rewrite <- app_assoc).
    apply IH; [now apply estep_in_step | now apply estep_resolved_by].
Qed.

(** X26.  The promise of the earlier [battle] is resolved by [L_BATTLE3]
    only: when it is resolved, its value is the address of the room of a
    message received on the first socket whose second line announces a
    battle; by then both sides have a confirmed player, all three timers
    are armed and no listener of the run is attached any more. *)
Theorem earlier_battle_resolves_with_a_room
    (io0 : wires) (arg : jsval) (es : list battle_event) (u : string) :
  outcome (erun (EarlierBattle.battle io0 arg) es) = Resolved u ->
  (exists data room,
     In (Inbound A data) es /\ L_BATTLE3 data = Some room
     /\ u = (base_url ++ slice room 1 None)%string)
  /\ both_confirmed (spec (erun (EarlierBattle.battle io0 arg) es))
  /\ timers (erun (EarlierBattle.battle io0 arg) es) = 3
  /\ listening (erun (EarlierBattle.battle io0 arg) es) = None.
Proof.
  intros Hu.
  destruct (outcome (EarlierBattle.battle io0 arg)) as [|u0|r] eqn:E0.
  - destruct (battle_pending io0 arg E0) as (users1 & users2 & _ & _ & Hs).
    assert (H : resolved_by ([] ++ es) (erun (EarlierBattle.battle io0 arg) es)).
    { apply erun_resolved_by; rewrite Hs.
      - reflexivity.
      - split; cbn [timers outcome]; [lia | discriminate]. }
    destruct H as [Hc Hr]. destruct (Hr u Hu) as (Ht & Hl & Hex).
    split; [exact Hex|]. split; [apply Hc; lia|]. now split.
  - exfalso. revert E0. unfold EarlierBattle.battle.
    destruct (Earlier.refused arg) as [[|]|]; try discriminate.
    destruct (iterate _); [|discriminate]. destruct (iterate _); discriminate.
  - rewrite erun_settled in Hu by (rewrite E0; discriminate). congruence.
Qed.
End EarlierBattleFacts.

(** *** Scenarios for the earlier choreography *)

Definition earlier_started : EarlierBattle.world :=
  EarlierBattle.battle no_frames two_candidates.

Definition earlier_scenario : list battle_event -> EarlierBattle.world :=
  EarlierBattle.run JSON.parse botA botB earlier_started.

Lemma earlier_first_timer_rejects_a_run_in_progress_witness :
  let w' := EarlierBattle.step JSON.parse botA botB
              (earlier_scenario [online "alice"; online "carol"])
              (TimerOf 1) in
  EarlierBattle.outcome w'
  = Rejected (Value (JStr "No response from showdown."))
  /\ EarlierBattle.listening w' = Some EarlierBattle.L2.
Proof.
  destruct (earlier_first_timer_rejects_a_run_in_progress
              JSON.parse botA botB no_frames two_candidates
              [online "alice"; online "carol"])
    as (H & _ & _ & Hl & _).
  - vm_compute. reflexivity.
  - vm_compute. reflexivity.
  - split; [exact H|]. etransitivity; [exact Hl|]. vm_compute. reflexivity.
Defined.

Lemma earlier_sent_frames_follow_the_timers_witness :
  sent1 (EarlierBattle.io
           (earlier_scenario [online "alice"; online "carol"; challenged]))
  = [msgToRaw "|/utm packed2"; msgToRaw "|/accept botA"].
Proof.
  destruct (earlier_sent_frames_follow_the_timers
              JSON.parse botA botB no_frames two_candidates
              [online "alice"; online "carol"; challenged])
    as [_ H].
  - vm_compute. reflexivity.
  - assert (E : EarlierBattle.timers
                  (earlier_scenario
                     [online "alice"; online "carol"; challenged]) = 3)
      by (vm_compute; reflexivity).
    unfold earlier_scenario, earlier_started in E.
    rewrite E in H. cbv beta iota in H.
    destruct H as [[_ H]|(room & _ & _ & Hl)].
    + etransitivity; [exact H|]. vm_compute. reflexivity.
    + vm_compute in Hl. discriminate.
Defined.

Lemma earlier_battle_resolves_with_a_room_witness :
  EarlierBattle.timers
    (earlier_scenario [online "alice"; online "carol"; challenged;
                       initialised]) = 3.
Proof.
  destruct (earlier_battle_resolves_with_a_room
              JSON.parse botA botB no_frames two_candidates
              [online "alice"; online "carol"; challenged; initialised]
              (base_url ++ room_id))
    as (_ & _ & H & _).
  - vm_compute. reflexivity.
  - exact H.
Defined.
